(** * holoheart_mvp: rate limiting, retrying gateway, chat turn, text
      segmentation and the audio playback queue

    A shallow embedding of
      - backend/app/client/kimi_api.py      (ImprovedRateLimiter, KimiAPI)
      - backend/app/api/router.py           (stream_chat.event_generator)
      - backend/app/utils/text_cleaner.py   (split_text_for_tts, find_sentence_end)
      - backend/app/core/audio/audio_manager.py (AudioManager)
      - backend/app/core/memory/memory_manager.py (MemoryManager, the cache)

    Conventions.  Python [int] is [Z]; Python [float] quantities (clock
    readings, delays, durations) are exact rationals [Q]; a Python [str] is
    the list of its Unicode code points; a call that may raise returns an
    [outcome]. *)

From Stdlib Require Import ZArith QArith List Bool Lia String Ascii.
From Stdlib Require Import Lqa.
Import ListNotations.

Local Open Scope Z_scope.

(** ** Python values shared by all modules *)

Module Py.

(** A [str]: the sequence of its code points. *)
Definition str := list Z.

(** An ASCII literal as a [str]. *)
Definition lit (s : string) : str :=
  List.map (fun a => Z.of_nat (nat_of_ascii a)) (list_ascii_of_string s).

Definition str_eqb (a b : str) : bool :=
  if list_eq_dec Z.eq_dec a b then true else false.

(** [len(s)] *)
Definition len {A} (l : list A) : Z := Z.of_nat (List.length l).

(** An exception object: its class name and [str(e)]. *)
Record exn := Exn { exn_class : string; exn_str : str }.

(** The result of a call: a value, or the exception it raised. *)
Inductive outcome (A : Type) : Type :=
| Returned (a : A)
| Raised (e : exn).
Arguments Returned {A} a.
Arguments Raised {A} e.

(** The [ZeroDivisionError] of a division in which an operand is a float,
    as [time_window] is. *)
Definition ZeroDivisionError : exn :=
  Exn "ZeroDivisionError" (lit "float division by zero").

(** [int(x)] on a float: truncation toward zero. *)
Definition int_of_float (x : Q) : Z := Z.quot (Qnum x) (Zpos (Qden x)).

(** [a < b] on floats. *)
Definition flt (a b : Q) : bool := negb (Qle_bool b a).

(** [max(a, b)]: the first argument unless the second is greater. *)
Definition fmax (a b : Q) : Q := if flt a b then b else a.

(** [s.lower()] on the ASCII range (code points 65..90). *)
Definition lower_char (c : Z) : Z :=
  if (65 <=? c) && (c <=? 90) then c + 32 else c.
Definition lower (s : str) : str := List.map lower_char s.

(** [s.startswith(p)] *)
Fixpoint startswith (p s : str) : bool :=
  match p, s with
  | [], _ => true
  | _ :: _, [] => false
  | a :: p', b :: s' => (a =? b) && startswith p' s'
  end.

(** [p in s] for strings: [p] occurs as a contiguous substring. *)
Fixpoint contains (p s : str) : bool :=
  startswith p s ||
  match s with
  | [] => false
  | _ :: s' => contains p s'
  end.

End Py.
Import Py.

(** ** ImprovedRateLimiter (kimi_api.py) *)

Module RateLimiter.

(** The fields of an [ImprovedRateLimiter]; the lock is not a field of the
    model: every method body below runs under it as one step. *)
Record limiter := Limiter {
  rate_limit : Z;
  time_window : Q;
  tokens : Z;
  last_refill_time : Q;
  last_request_time : Q;
  max_retries : Z;
  retry_delay : Q
}.

(** [__init__], constructed at clock reading [now]. *)
Definition init (rate_limit : Z) (time_window : Q)
           (max_retries : Z) (retry_delay : Q) (now : Q) : limiter :=
  Limiter rate_limit time_window rate_limit now 0%Q max_retries retry_delay.

(** The readings of [time.time()] one call of [acquire] can make: on entry,
    after the spacing sleep, and when the request time is stamped. *)
Record clock := Clock { now_enter : Q; now_woken : Q; now_stamp : Q }.

(** Lines 59-65: the refill at reading [current_time], given the number of
    whole tokens earned. *)
Definition refill (new_tokens : Z) (current_time : Q) (s : limiter) : limiter :=
  if 0 <? new_tokens then
    Limiter (rate_limit s) (time_window s)
            (Z.min (rate_limit s) (tokens s + new_tokens))
            current_time (last_request_time s)
            (max_retries s) (retry_delay s)
  else s.

(** Lines 67-71: take a token when one is left. *)
Definition consume (stamp : Q) (s : limiter) : bool * limiter :=
  if 0 <? tokens s then
    (true,
     Limiter (rate_limit s) (time_window s) (tokens s - 1)
             (last_refill_time s) stamp (max_retries s) (retry_delay s))
  else (false, s).

(** The reading used as [current_time] after the spacing check of
    lines 52-57. *)
Definition spaced_time (c : clock) (s : limiter) : Q :=
  let min_interval := (time_window s / inject_Z (rate_limit s))%Q in
  let time_since_last_request := (now_enter c - last_request_time s)%Q in
  if flt time_since_last_request min_interval then now_woken c
  else now_enter c.

Definition earned_tokens (current_time : Q) (s : limiter) : Z :=
  let time_passed := (current_time - last_refill_time s)%Q in
  int_of_float (time_passed / time_window s * inject_Z (rate_limit s))%Q.

(** [acquire]: both divisions raise [ZeroDivisionError] on a zero divisor,
    before any field is written. *)
Definition acquire (c : clock) (s : limiter) : outcome bool * limiter :=
  if rate_limit s =? 0 then (Raised ZeroDivisionError, s)
  else
    let current_time := spaced_time c s in
    if Qeq_bool (time_window s) 0 then (Raised ZeroDivisionError, s)
    else
      let s1 := refill (earned_tokens current_time s) current_time s in
      let '(ok, s2) := consume (now_stamp c) s1 in
      (Returned ok, s2).

(** The states a limiter goes through along a sequence of [acquire] calls,
    the starting state first. *)
Fixpoint acquire_states (cs : list clock) (s : limiter) : list limiter :=
  s :: match cs with
       | [] => []
       | c :: cs' => acquire_states cs' (snd (acquire c s))
       end.

Definition within_capacity (s : limiter) : Prop :=
  0 <= tokens s <= rate_limit s.

(** *** wait_for_token *)

(** One pass of the polling loop: the reading of [time.time()] in the loop
    test, and the readings of the [acquire] call that follows. *)
Record poll := Poll { now_test : Q; poll_clock : clock }.

(** The [while] loop of [wait_for_token] from [start_time] on.  It ends when
    a token is taken, when [acquire] raises, or when the timeout has passed;
    [None] says that the readings given ran out before that. *)
Fixpoint wait_for_token_loop (start_time timeout : Q) (polls : list poll)
         (s : limiter) : option (outcome bool) * limiter :=
  match polls with
  | [] => (None, s)
  | p :: polls' =>
      if flt (now_test p - start_time)%Q timeout then
        match acquire (poll_clock p) s with
        | (Raised e, s') => (Some (Raised e), s')
        | (Returned true, s') => (Some (Returned true), s')
        | (Returned false, s') =>
            wait_for_token_loop start_time timeout polls' s'
        end
      else (Some (Returned false), s)
  end.

(** [wait_for_token(timeout)], [start_time] being its first reading of the
    clock. *)
Definition wait_for_token (timeout start_time : Q) (polls : list poll)
           (s : limiter) : option (outcome bool) * limiter :=
  wait_for_token_loop start_time timeout polls s.

(** *** execute_with_retry *)

(** What the surroundings do during one pass of the retry loop: the result
    of [self.wait_for_token()] and, when the pass gets that far, the result
    of the wrapped call [func]. *)
Record attempt_env (A : Type) := AttemptEnv {
  wait : outcome bool;
  call : outcome A
}.
Arguments AttemptEnv {A}.
Arguments wait {A}.
Arguments call {A}.

(** What one pass did: its index, whether [func] was called, the exception
    the pass ended with, and the [time.sleep] it made before the next pass. *)
Record attempt_log := AttemptLog {
  att_index : nat;
  att_called : bool;
  att_error : option exn;
  att_sleep : option Q
}.

(** [Exception("获取令牌超时，请稍后再试")] of line 89. *)
Definition token_timeout : exn :=
  Exn "Exception"
      [33719; 21462; 20196; 29260; 36229; 26102; 65292;
       35831; 31245; 21518; 20877; 35797].

(** The [ValueError] of [time.sleep] on a negative length. *)
Definition negative_sleep : exn :=
  Exn "ValueError" (lit "sleep length must be non-negative").

(** ["rate_limit" in error_str] with [error_str = str(e).lower()]. *)
Definition is_rate_limit (e : exn) : bool :=
  contains (lit "rate_limit") (lower (exn_str e)).

(** The digits zero of Unicode 14.0, the character database of CPython
    3.11: the characters with a decimal value are the 66 runs of ten that
    start at these code points, with the values 0 to 9 in order. *)
Definition digit_zeros : list Z :=
  [48; 1632; 1776; 1984; 2406; 2534; 2662; 2790; 2918; 3046; 3174; 3302;
   3430; 3558; 3664; 3792; 3872; 4160; 4240; 6112; 6160; 6470; 6608; 6784;
   6800; 6992; 7088; 7232; 7248; 42528; 43216; 43264; 43472; 43504; 43600;
   44016; 65296; 66720; 68912; 69734; 69872; 69942; 70096; 70384; 70736;
   70864; 71248; 71360; 71472; 71904; 72016; 72784; 73040; 73120; 92768;
   92864; 93008; 120782; 120792; 120802; 120812; 120822; 123200; 123632;
   125264; 130032].

(** The decimal value of a character, if it has one: what [int] reads a
    digit as, in any script. *)
Definition decimal (c : Z) : option Z :=
  match List.find (fun zero => (zero <=? c) && (c <=? zero + 9)) digit_zeros with
  | Some zero => Some (c - zero)
  | None => None
  end.

(** [\d] in a pattern that is a [str]: any Unicode decimal digit. *)
Definition is_digit (c : Z) : bool :=
  match decimal c with
  | Some _ => true
  | None => false
  end.

(** The longest prefix of digits, and what follows it. *)
Fixpoint span_digits (s : str) : str * str :=
  match s with
  | c :: s' =>
      if is_digit c then let '(ds, r) := span_digits s' in (c :: ds, r)
      else ([], s)
  | [] => ([], [])
  end.

(** [int(ds)] for a string of decimal digits. *)
Definition int_of_digits (ds : str) : Z :=
  fold_left
    (fun acc d => 10 * acc + match decimal d with Some v => v | None => 0 end)
    ds 0.

(** The pattern [after (\d+) seconds] anchored at the head of [s]: group 1.
    The character after the digits must be a space, so the greedy [\d+]
    takes the whole run of digits. *)
Definition match_after_seconds (s : str) : option str :=
  if startswith (lit "after ") s then
    let '(ds, r) := span_digits (skipn 6 s) in
    match ds with
    | [] => None
    | _ :: _ => if startswith (lit " seconds") r then Some ds else None
    end
  else None.

(** [re.search(r'after (\d+) seconds', s)]: group 1 of the leftmost
    match. *)
Fixpoint search_after_seconds (s : str) : option str :=
  match match_after_seconds s with
  | Some ds => Some ds
  | None =>
      match s with
      | [] => None
      | _ :: s' => search_after_seconds s'
      end
  end.

(** [int(time_match.group(1))] when there is a match. *)
Definition suggested_wait (s : str) : option Z :=
  match search_after_seconds s with
  | Some ds => Some (int_of_digits ds)
  | None => None
  end.

(** The longest sleep, in whole seconds, that [time.sleep] takes: it counts
    in nanoseconds on 64 bits, and 2^63 ns are a little more than this. *)
Definition longest_sleep : Z := 9223372036.

(** What CPython accepts on the way to the sleep of line 116: [int] reads at
    most 4300 digits, [2 ** attempt] must fit a float to be multiplied by
    one, and the delay must be one [time.sleep] takes.  Beyond these limits
    the handler itself raises [ValueError] or [OverflowError]; the model
    has no such limits, and the theorem on the length of this sleep takes
    them as a hypothesis. *)
Definition within_limits (s : limiter) (attempt : nat) (e : exn) : bool :=
  match search_after_seconds (exn_str e) with
  | Some ds => (len ds <=? 4300) && (int_of_digits ds <=? longest_sleep)
  | None =>
      (Z.of_nat attempt <? 1024) &&
      Qle_bool (retry_delay s * inject_Z (2 ^ Z.of_nat attempt))
               (inject_Z longest_sleep)
  end.

(** Lines 102-113: the time to sleep after a rate-limit error in pass
    [attempt]. *)
Definition backoff (s : limiter) (attempt : nat) (e : exn) : Q :=
  match suggested_wait (exn_str e) with
  | Some suggested => (inject_Z suggested + (1 # 2))%Q
  | None =>
      fmax 1%Q (retry_delay s * inject_Z (2 ^ Z.of_nat attempt))%Q
  end.

(** The [except Exception as e] clause in pass [attempt]: [Some d] sleeps
    [d] seconds and lets the loop go on, [None] re-raises [e]. *)
Definition on_exception (s : limiter) (attempt : nat) (e : exn) : option Q :=
  if is_rate_limit e && (Z.of_nat attempt <? max_retries s)
  then Some (backoff s attempt e)
  else None.

(** The [for] loop from pass [attempt] on, with [remaining] passes left in
    [range(self.max_retries + 1)].  Everything in the loop body is inside the
    [try], the [raise] of line 89 and the [time.sleep] of line 90 included.
    Running off the end of the loop is the implicit [return None]. *)
Fixpoint retry_loop {A} (s : limiter) (env : nat -> attempt_env A)
         (attempt remaining : nat) : list attempt_log * outcome (option A) :=
  match remaining with
  | O => ([], Returned None)
  | S remaining' =>
      let next entry :=
        let '(log, res) := retry_loop s env (S attempt) remaining' in
        (entry :: log, res) in
      let handle called e :=
        match on_exception s attempt e with
        | Some d => next (AttemptLog attempt called (Some e) (Some d))
        | None => ([AttemptLog attempt called (Some e) None], Raised e)
        end in
      match wait (env attempt) with
      | Raised e => handle false e
      | Returned false =>
          if Z.of_nat attempt =? max_retries s then handle false token_timeout
          else
            let delay := (retry_delay s * inject_Z (Z.of_nat attempt + 1))%Q in
            if flt delay 0 then handle false negative_sleep
            else next (AttemptLog attempt false None (Some delay))
      | Returned true =>
          match call (env attempt) with
          | Returned v => ([AttemptLog attempt true None None], Returned (Some v))
          | Raised e => handle true e
          end
      end
  end.

(** [execute_with_retry]: the log of the passes made and the
    result handed to the caller. *)
Definition execute_with_retry {A} (s : limiter) (env : nat -> attempt_env A)
  : list attempt_log * outcome (option A) :=
  retry_loop s env 0 (Z.to_nat (max_retries s + 1)).




(** The backoff the specification text gives for a rate-limit error that
    carries no suggested wait. *)
Definition spec_backoff (s : limiter) (attempt : nat) : Q :=
  fmax (retry_delay s) (retry_delay s * inject_Z (2 ^ Z.of_nat attempt))%Q.

End RateLimiter.

(** ** text_cleaner.py *)

Module TextCleaner.

(** [end_chars] of [find_sentence_end]: the full-width period, question
    mark and exclamation mark, then the ASCII ones. *)
Definition end_chars : list Z := [12290; 65311; 65281; 46; 63; 33].

(** [text.find(char)] counted from offset [i]: the index of the first
    occurrence, or [-1]. *)
Fixpoint find_from (c : Z) (text : str) (i : Z) : Z :=
  match text with
  | [] => -1
  | x :: text' => if x =? c then i else find_from c text' (i + 1)
  end.

Definition find (c : Z) (text : str) : Z := find_from c text 0.

(** [min] of a non-empty list. *)
Definition list_min (p : Z) (ps : list Z) : Z := fold_left Z.min ps p.

Definition find_sentence_end (text : str) : Z :=
  let positions := List.map (fun c => find c text) end_chars in
  let valid_positions := List.filter (fun pos => negb (pos =? -1)) positions in
  match valid_positions with
  | p :: ps => list_min p ps
  | [] => if 50 <? len text then len text - 1 else -1
  end.

Definition is_end_char (c : Z) : bool := existsb (Z.eqb c) end_chars.

(** [text[i]] is a sentence-ending character and no character before it
    is. *)
Definition earliest_terminator (text : str) (i : nat) : Prop :=
  (exists c, nth_error text i = Some c /\ is_end_char c = true) /\
  forall j c, (j < i)%nat -> nth_error text j = Some c -> is_end_char c = false.

Definition no_terminator (text : str) : Prop :=
  Forall (fun c => is_end_char c = false) text.

(** The index, counted from [i], of the first sentence-ending character of
    [text], or [-1]: what the minimum over the six searches amounts to. *)
Fixpoint earliest_end (text : str) (i : Z) : Z :=
  match text with
  | [] => -1
  | x :: text' => if is_end_char x then i else earliest_end text' (i + 1)
  end.

(** The minimum of the positions that are not [-1], if there is one. *)
Definition valid_min (positions : list Z) : option Z :=
  match List.filter (fun pos => negb (pos =? -1)) positions with
  | p :: ps => Some (list_min p ps)
  | [] => None
  end.

(** The characters [str.isspace] accepts. *)
Definition is_space (c : Z) : bool :=
  ((9 <=? c) && (c <=? 13)) || ((28 <=? c) && (c <=? 32)) ||
  (c =? 133) || (c =? 160) || (c =? 5760) ||
  ((8192 <=? c) && (c <=? 8202)) ||
  (c =? 8232) || (c =? 8233) || (c =? 8239) || (c =? 8287) || (c =? 12288).

Fixpoint lstrip (s : str) : str :=
  match s with
  | c :: s' => if is_space c then lstrip s' else s
  | [] => []
  end.

Definition rstrip (s : str) : str := rev (lstrip (rev s)).

(** [s.strip()] *)
Definition strip (s : str) : str := rstrip (lstrip s).

(** [not s.strip()] *)
Definition is_blank (s : str) : bool :=
  match strip s with [] => true | _ :: _ => false end.

(** The character classes of the two split patterns. *)
Definition is_sentence_mark (c : Z) : bool :=
  (c =? 12290) || (c =? 65281) || (c =? 65311) ||
  (c =? 46) || (c =? 33) || (c =? 63).

Definition is_comma (c : Z) : bool := (c =? 65292) || (c =? 44).

(** [re.split(r'(?<=[...])', s)] as Python 3.7 and later split on empty
    matches: the match after every character of the class cuts the string
    there; a string that ends with such a character gets an empty last
    piece. *)
Fixpoint split_after (p : Z -> bool) (s : str) : list str :=
  match s with
  | [] => [[]]
  | c :: s' =>
      match split_after p s' with
      | piece :: pieces =>
          if p c then [c] :: piece :: pieces else (c :: piece) :: pieces
      | [] => [[c]]
      end
  end.

(** The slices [part[i:i+n]] for [i] in [range(0, len(part), n)], [n > 0];
    [fuel] bounds the number of slices. *)
Fixpoint chunks (fuel n : nat) (part : str) : list str :=
  match fuel with
  | O => []
  | S fuel' =>
      match part with
      | [] => []
      | _ :: _ => firstn n part :: chunks fuel' n (skipn n part)
      end
  end.

Definition ValueError : exn :=
  Exn "ValueError" (lit "range() arg 3 must not be zero").

(** The chunks of lines 108-110, each stripped.  [range] raises on a zero
    step and is empty on a negative one. *)
Definition forced_chunks (max_length : Z) (part : str) : outcome (list str) :=
  if max_length =? 0 then Raised ValueError
  else if max_length <? 0 then Returned []
  else Returned (List.map strip
                   (chunks (List.length part) (Z.to_nat max_length) part)).

(** The two variables the loops update. *)
Record builder := Builder {
  paragraphs : list str;
  current_paragraph : str
}.

(** Lines 100-103 and 116-118: save the paragraph in progress when adding
    [n] more characters would exceed [max_length]. *)
Definition flush_if_over (max_length : Z) (n : Z) (b : builder) : builder :=
  if max_length <? len (current_paragraph b) + n then
    match current_paragraph b with
    | [] => b
    | _ :: _ => Builder (paragraphs b ++ [strip (current_paragraph b)]) []
    end
  else b.

(** The body of the loop over [comma_parts]. *)
Definition add_part (max_length : Z) (b : builder) (part : str)
  : outcome builder :=
  if is_blank part then Returned b
  else
    let b1 := flush_if_over max_length (len part) b in
    if max_length <? len part then
      match forced_chunks max_length part with
      | Raised e => Raised e
      | Returned cs => Returned (Builder (paragraphs b1 ++ cs) (current_paragraph b1))
      end
    else Returned (Builder (paragraphs b1) (current_paragraph b1 ++ part)).

Fixpoint add_parts (max_length : Z) (b : builder) (parts : list str)
  : outcome builder :=
  match parts with
  | [] => Returned b
  | part :: parts' =>
      match add_part max_length b part with
      | Raised e => Raised e
      | Returned b' => add_parts max_length b' parts'
      end
  end.

(** The body of the loop over [sentences]. *)
Definition add_sentence (max_length : Z) (b : builder) (sentence : str)
  : outcome builder :=
  if is_blank sentence then Returned b
  else if max_length <? len sentence then
    add_parts max_length b (split_after is_comma sentence)
  else
    let b1 := flush_if_over max_length (len sentence) b in
    Returned (Builder (paragraphs b1) (current_paragraph b1 ++ sentence)).

Fixpoint add_sentences (max_length : Z) (b : builder) (sentences : list str)
  : outcome builder :=
  match sentences with
  | [] => Returned b
  | sentence :: sentences' =>
      match add_sentence max_length b sentence with
      | Raised e => Raised e
      | Returned b' => add_sentences max_length b' sentences'
      end
  end.

Definition split_text_for_tts (text : str) (max_length : Z)
  : outcome (list str) :=
  if len text <=? max_length then Returned [text]
  else
    match add_sentences max_length (Builder [] [])
                        (split_after is_sentence_mark text) with
    | Raised e => Raised e
    | Returned b =>
        match current_paragraph b with
        | [] => Returned (paragraphs b)
        | _ :: _ => Returned (paragraphs b ++ [strip (current_paragraph b)])
        end
    end.

(** [trimmed a b]: [a] is [b] with some of its white-space characters
    left out, everything else kept in place. *)
Inductive trimmed : str -> str -> Prop :=
| trimmed_nil : trimmed [] []
| trimmed_keep c a b : trimmed a b -> trimmed (c :: a) (c :: b)
| trimmed_drop c a b : is_space c = true -> trimmed a b -> trimmed a (c :: b).

Definition no_space (s : str) : Prop :=
  Forall (fun c => is_space c = false) s.

(** What the loops maintain once the text [done] has been consumed: saved
    paragraphs and the paragraph in progress are within [max_length], and
    together they are [done] with some white space left out. *)
Definition consumed (max_length : Z) (b : builder) (done : str) : Prop :=
  Forall (fun p => len p <= max_length) (paragraphs b) /\
  len (current_paragraph b) <= max_length /\
  trimmed (List.concat (paragraphs b) ++ current_paragraph b) done.

(** The specification's wording of what [split] returns: segments within
    [max_length] whose concatenation is the text itself. *)
Definition reconstructs (text : str) (max_length : Z) : Prop :=
  exists segments,
    split_text_for_tts text max_length = Returned segments /\
    Forall (fun p => len p <= max_length) segments /\
    List.concat segments = text.

End TextCleaner.

(** ** KimiAPI.process_stream_chat (kimi_api.py) *)

Module KimiAPI.
Import RateLimiter.

(** A decoded JSON value. *)
#[local] Unset Elimination Schemes.
Inductive json :=
| JNull
| JBool (b : bool)
| JNumber (q : Q)
| JString (s : str)
| JArray (items : list json)
| JObject (members : list (str * json)).
#[local] Set Elimination Schemes.

(** A requested tool call.  [tc_arguments] is what
    [json.loads(tool_call.function.arguments)] gives for the argument
    payload: the decoded value, or the [JSONDecodeError] it raises. *)
Record tool_call := ToolCall {
  tc_id : str;
  tc_name : str;
  tc_arguments : outcome json
}.

(** [choice.message] *)
Record chat_message := ChatMessage {
  cm_content : option str;
  cm_tool_calls : list tool_call
}.

Record choice := Choice {
  finish_reason : str;
  message : chat_message
}.

(** A non-streaming completion: its [choices]. *)
Definition completion := list choice.

(** An entry of the [messages] list. *)
Inductive history_message :=
| Plain (role content : str)
| AssistantRequest (m : chat_message)
    (* choice.message.model_dump() *)
| ToolResult (tool_call_id name : str) (content : json)
    (* "content": json.dumps(content) *).

(** A streamed completion: each chunk is the list of its [choices], a choice
    being the [content] of its delta; iteration ends normally or by an
    exception. *)
Inductive stream :=
| StreamEnd
| StreamChunk (choices : list (option str)) (rest : stream)
| StreamError (e : exn).

(** The dictionaries the generator yields. *)
Inductive event :=
| Start (id : str)
| ToolCallNotice (id content : str)
| Chunk (id content : str)
| Error (id error : str)
| End (id : str).

(** The value of an event's ['type'] key. *)
Definition event_type (ev : event) : string :=
  match ev with
  | Start _ => "start"
  | ToolCallNotice _ _ => "tool_call"
  | Chunk _ _ => "chunk"
  | Error _ _ => "error"
  | End _ => "end"
  end.

(** A call of [execute_with_retry] on [chat.completions.create], with the
    keyword arguments that vary. *)
Record request := Request {
  req_messages : list history_message;
  req_tools : bool;
  req_stream : bool
}.

(** What the inference service and the limiter do in one turn, pass by
    pass, for the probing call and for the streaming call. *)
Record turn_env := TurnEnv {
  probe : nat -> attempt_env completion;
  answer : nat -> attempt_env stream
}.

Definition IndexError : exn := Exn "IndexError" (lit "list index out of range").
Definition NoChoices : exn :=
  Exn "AttributeError" (lit "'NoneType' object has no attribute 'choices'").
Definition NotIterable : exn :=
  Exn "TypeError" (lit "'NoneType' object is not iterable").
Definition JSONDecodeError : exn :=
  Exn "JSONDecodeError" (lit "Expecting value: line 1 column 1 (char 0)").

(** ['正在搜索相关信息...'] *)
Definition searching_notice : str :=
  [27491; 22312; 25628; 32034; 30456; 20851; 20449; 24687; 46; 46; 46].

(** ["API调用错误: "] *)
Definition api_error_prefix : str :=
  [65; 80; 73; 35843; 29992; 38169; 35823; 58; 32].

Definition web_search : str := lit "$web_search".

Definition search_impl (arguments : json) : json := arguments.

Definition unknown_tool (name : str) : json :=
  JString (lit "Error: unable to find tool by name '" ++ name ++ lit "'").

(** Lines 321-336: the loop over the requested tool calls; it stops at the
    first argument payload that does not decode. *)
Fixpoint run_tool_calls (calls : list tool_call)
         (messages : list history_message)
  : list history_message * option exn :=
  match calls with
  | [] => (messages, None)
  | tc :: calls' =>
      match tc_arguments tc with
      | Raised e => (messages, Some e)
      | Returned tool_call_arguments =>
          let tool_result :=
            if str_eqb (tc_name tc) web_search
            then search_impl tool_call_arguments
            else unknown_tool (tc_name tc) in
          run_tool_calls calls'
            (messages ++ [ToolResult (tc_id tc) (tc_name tc) tool_result])
      end
  end.

(** Lines 359-366: the loop over the stream. *)
Fixpoint stream_chunks (id : str) (s : stream) : list event * option exn :=
  match s with
  | StreamEnd => ([], None)
  | StreamError e => ([], Some e)
  | StreamChunk [] _ => ([], Some IndexError)
  | StreamChunk (content :: _) rest =>
      let '(evs, err) := stream_chunks id rest in
      match content with
      | Some (c :: cs) => (Chunk id (c :: cs) :: evs, err)
      | Some [] | None => (evs, err)
      end
  end.

(** The outcome of the inner [try] block (lines 298-366): the events it
    yielded, the [messages] list as it left it, the gateway calls it made
    and the exception that ended it, if any. *)
Record body := Body {
  yielded : list event;
  messages_after : list history_message;
  gateway_calls : list request;
  failure : option exn
}.

Definition guarded_body (lim : limiter) (env : turn_env) (id : str)
           (messages : list history_message) : body :=
  let first := Request messages true false in
  match snd (execute_with_retry lim (probe env)) with
  | Raised e => Body [] messages [first] (Some e)
  | Returned None => Body [] messages [first] (Some NoChoices)
  | Returned (Some []) => Body [] messages [first] (Some IndexError)
  | Returned (Some (choice :: _)) =>
      let '(evs, messages1, err) :=
        if str_eqb (finish_reason choice) (lit "tool_calls") then
          let '(ms, err) :=
            run_tool_calls (cm_tool_calls (message choice))
                           (messages ++ [AssistantRequest (message choice)]) in
          ([ToolCallNotice id searching_notice], ms, err)
        else ([], messages, None) in
      match err with
      | Some e => Body evs messages1 [first] (Some e)
      | None =>
          let second := Request messages1 false true in
          match snd (execute_with_retry lim (answer env)) with
          | Raised e => Body evs messages1 [first; second] (Some e)
          | Returned None =>
              Body evs messages1 [first; second] (Some NotIterable)
          | Returned (Some s) =>
              let '(chunks, err') := stream_chunks id s in
              Body (evs ++ chunks) messages1 [first; second] err'
          end
      end
  end.

(** One turn seen from outside: every event the generator yields when it is
    run to exhaustion, the final [messages] list and the gateway calls. *)
Record turn := Turn {
  events : list event;
  history : list history_message;
  requests : list request
}.

(** [process_stream_chat]: [start], the guarded body, the [error] event of
    the inner handler when the body raised, and [end] from the [finally]
    clause.  The handler itself raises nothing, so the outer [except] clause
    (line 373) is never entered. *)
Definition process_stream_chat (lim : limiter) (env : turn_env) (id : str)
           (messages : list history_message) : turn :=
  let b := guarded_body lim env id messages in
  Turn (Start id ::
        yielded b ++
        match failure b with
        | Some e => [Error id (api_error_prefix ++ exn_str e)]
        | None => []
        end ++
        [End id])
       (messages_after b) (gateway_calls b).

(** ["你是 Kimi"] *)
Definition system_prompt : str := [20320; 26159; 32; 75; 105; 109; 105].

Definition stream_chat (lim : limiter) (env : turn_env) (id : str)
           (message : str) (history : list history_message) : turn :=
  process_stream_chat lim env id
    (Plain (lit "system") system_prompt :: history ++
     [Plain (lit "user") message]).

(** What the service and the limiter do during [process_chat_request]: both
    of its calls are non-streaming. *)
Record chat_env := ChatEnv {
  first_call : nat -> attempt_env completion;
  final_call : nat -> attempt_env completion
}.

(** [process_chat_request]: the value returned or the exception re-raised
    by its handler, the [messages] list as it leaves it, and the gateway
    calls made.  The tool round is the one of [process_stream_chat]. *)
Definition process_chat_request (lim : limiter) (env : chat_env)
           (messages : list history_message)
  : outcome (option str) * list history_message * list request :=
  let first := Request messages true false in
  match snd (execute_with_retry lim (first_call env)) with
  | Raised e => (Raised e, messages, [first])
  | Returned None => (Raised NoChoices, messages, [first])
  | Returned (Some []) => (Raised IndexError, messages, [first])
  | Returned (Some (choice :: _)) =>
      if str_eqb (finish_reason choice) (lit "tool_calls") then
        let '(ms, err) :=
          run_tool_calls (cm_tool_calls (message choice))
                         (messages ++ [AssistantRequest (message choice)]) in
        match err with
        | Some e => (Raised e, ms, [first])
        | None =>
            let second := Request ms false false in
            match snd (execute_with_retry lim (final_call env)) with
            | Raised e => (Raised e, ms, [first; second])
            | Returned None => (Raised NoChoices, ms, [first; second])
            | Returned (Some []) => (Raised IndexError, ms, [first; second])
            | Returned (Some (final :: _)) =>
                (Returned (cm_content (message final)), ms, [first; second])
            end
        end
      else (Returned (cm_content (message choice)), messages, [first])
  end.

(** The specification's wording of a well-formed turn, on the sequence of
    event types: [start] first and nowhere else, [end] last and nowhere
    else. *)
Definition start_first_end_last (types : list string) : Prop :=
  exists middle,
    types = "start"%string :: middle ++ ["end"%string] /\
    ~ In "start"%string middle /\ ~ In "end"%string middle.

Definition is_tool_result (m : history_message) : bool :=
  match m with ToolResult _ _ _ => true | _ => false end.

(** The events the guarded body yields: text chunks and the tool notice. *)
Definition is_body_event (ev : event) : bool :=
  match ev with
  | Chunk _ _ | ToolCallNotice _ _ => true
  | Start _ | Error _ _ | End _ => false
  end.

(** The message appended for a call whose arguments decoded to [arguments]:
    the search result for the one known tool, the error text otherwise. *)
Definition tool_answer (tc : tool_call) (arguments : json) : history_message :=
  ToolResult (tc_id tc) (tc_name tc)
             (if str_eqb (tc_name tc) web_search
              then search_impl arguments
              else unknown_tool (tc_name tc)).

(** The specification's wording of the tool round: the history gains the
    assistant request and one tool result per call, the streaming call is
    made, and the turn ends with [end]. *)
Definition tool_round_completes (t : turn)
           (messages : list history_message) (m : chat_message) : Prop :=
  (exists results,
      history t = messages ++ AssistantRequest m :: results /\
      List.length results = List.length (cm_tool_calls m) /\
      forallb is_tool_result results = true) /\
  (exists req, In req (requests t) /\ req_stream req = true) /\
  last (List.map event_type (events t)) EmptyString = "end"%string.

End KimiAPI.

(** ** stream_chat.event_generator (router.py) *)

Module Router.
Import RateLimiter KimiAPI TextCleaner.

(** The payloads sent to the client as [data: ...] lines. *)
Inductive sse :=
| SseChunk (content : str)
| SseAudio (audio_url : str)
| SseToolCall (content : str)
| SseError (content : str)
| SseEnd (audio_url : option str).

Definition sse_type (ev : sse) : string :=
  match ev with
  | SseChunk _ => "chunk"
  | SseAudio _ => "audio"
  | SseToolCall _ => "tool_call"
  | SseError _ => "error"
  | SseEnd _ => "end"
  end.

(** Lines 210-214: the sentence cut off the accumulated text, with what is
    left of it. *)
Definition feed (accumulated_text : str) : option (str * str) :=
  let sentence_end := find_sentence_end accumulated_text in
  if 10 <? sentence_end then
    Some (firstn (Z.to_nat (sentence_end + 1)) accumulated_text,
          skipn (Z.to_nat (sentence_end + 1)) accumulated_text)
  else None.

(** The specification's wording of when the segmenter returns a segment:
    only when the text has a sentence-ending character, the segment ending
    at the earliest one. *)
Definition segments_only_at_terminator (text : str) : Prop :=
  forall segment remainder,
    feed text = Some (segment, remainder) ->
    exists i, earliest_terminator text i /\ segment = firstn (S i) text.

Definition truthy (s : str) : bool :=
  match s with [] => false | _ :: _ => true end.

(** The payloads that carry content, as opposed to the two that close the
    response. *)
Definition is_payload (ev : sse) : bool :=
  match ev with
  | SseChunk _ | SseAudio _ | SseToolCall _ => true
  | SseError _ | SseEnd _ => false
  end.

Definition is_error_event (ev : event) : bool :=
  match ev with Error _ _ => true | _ => false end.

Section Generator.
(** [request.tts_enabled], and speech synthesis followed by the move to
    the static directory: the audio URL, or nothing when synthesis
    fails. *)
Variable tts_enabled : bool.
Variable synthesize : str -> option str.

Definition audio_for (text : str) : list sse :=
  match synthesize text with
  | Some url => [SseAudio url]
  | None => []
  end.

(** The body of the [async for] loop, from the accumulated text so far;
    the [error] and [end] branches return. *)
Fixpoint forward (accumulated_text : str) (evs : list event) : list sse :=
  match evs with
  | [] => []
  | Chunk _ content :: evs' =>
      let accumulated_text := accumulated_text ++ content in
      SseChunk content ::
      (if tts_enabled && truthy accumulated_text then
         match feed accumulated_text with
         | Some (sentence, remainder) =>
             audio_for sentence ++ forward remainder evs'
         | None => forward accumulated_text evs'
         end
       else forward accumulated_text evs')
  | ToolCallNotice _ _ :: evs' =>
      SseToolCall searching_notice :: forward accumulated_text evs'
  | Error _ error :: _ => [SseError error]
  | End _ :: _ =>
      if tts_enabled && truthy accumulated_text then
        match synthesize accumulated_text with
        | Some url => [SseAudio url; SseEnd (Some url)]
        | None => [SseEnd None]
        end
      else [SseEnd None]
  | Start _ :: evs' => forward accumulated_text evs'
  end.

Definition event_generator (lim : limiter) (env : turn_env) (id : str)
           (message : str) (history : list history_message) : list sse :=
  forward [] (events (stream_chat lim env id message history)).

End Generator.

End Router.

(** ** AudioManager (audio_manager.py) *)

Module AudioManager.

(** Where the consumer task [_audio_processor] is suspended. *)
Inductive phase :=
| Getting                                   (* await self.audio_queue.get() *)
| Playing (audio_path : str) (play_time : Q) (* await asyncio.sleep(play_time) *)
| Pausing.                                  (* await asyncio.sleep(0.1) *)

(** What happens to simulated playbacks, newest first: the log is not a
    field of the class, it records when the consumer enters and leaves
    [asyncio.sleep(play_time)]. *)
Inductive playback :=
| Began (audio_path : str)
| Ended (audio_path : str).

(** The fields of an [AudioManager].  [audio_queue] has the next item at its
    head; [task] is [None] when [self.task] is [None] or done.  The lock is
    never held across a suspension, so each block under it is one step. *)
Record manager := Manager {
  audio_queue : list str;
  current_audio : option str;
  audio_start_time : Q;
  audio_play_duration : Q;
  is_playing : bool;
  task : option phase;
  playback_log : list playback
}.

(** [__init__] *)
Definition init : manager := Manager [] None 0 0 false None [].

(** [start] *)
Definition start (m : manager) : manager :=
  match task m with
  | None =>
      Manager (audio_queue m) (current_audio m) (audio_start_time m)
              (audio_play_duration m) (is_playing m) (Some Getting)
              (playback_log m)
  | Some _ => m
  end.

(** [stop] run from its call to its return with no other call in between:
    the cancelled task leaves its loop through one of the [CancelledError]
    handlers, which write no field, and [stop] then forgets the task; a
    playback in progress is cut short.  The call suspends at
    [await self.task]; [AudioTasks] has it in its two parts, with what
    other calls do in between. *)
Definition stop (m : manager) : manager :=
  match task m with
  | None => m
  | Some ph =>
      Manager (audio_queue m) (current_audio m) (audio_start_time m)
              (audio_play_duration m) (is_playing m) None
              match ph with
              | Playing audio_path _ => Ended audio_path :: playback_log m
              | Getting | Pausing => playback_log m
              end
  end.

(** [add_to_queue(audio_path)], [file_exists] being
    [os.path.exists(audio_path)]. *)
Definition add_to_queue (audio_path : str) (file_exists : bool) (m : manager)
  : bool * manager :=
  match audio_path with
  | [] => (false, m)
  | _ :: _ =>
      if negb file_exists then (false, m)
      else
        (true,
         start (Manager (audio_queue m ++ [audio_path]) (current_audio m)
                        (audio_start_time m) (audio_play_duration m)
                        (is_playing m) (task m) (playback_log m)))
  end.

(** The [while not self.audio_queue.empty()] loop of [clear_queue]: each
    pass takes one item off and marks it done. *)
Fixpoint drain (queue : list str) : list str :=
  match queue with
  | [] => []
  | _ :: queue' => drain queue'
  end.

(** [clear_queue] *)
Definition clear_queue (m : manager) : manager :=
  Manager (drain (audio_queue m)) None (audio_start_time m)
          (audio_play_duration m) false (task m) (playback_log m).

(** The dictionary [get_status] returns; the keys of the first shape that
    the second lacks are [None]. *)
Record status := Status {
  playing : bool;
  path : option str;
  remaining : option Q;
  elapsed : option Q;
  total : option Q;
  queue_size : nat
}.

(** [get_status], [now] being the reading of [time.time()]. *)
Definition get_status (now : Q) (m : manager) : status :=
  match current_audio m with
  | Some (c :: cs) =>
      if is_playing m then
        let elapsed := (now - audio_start_time m)%Q in
        let remaining := fmax 0 (audio_play_duration m - elapsed)%Q in
        Status (is_playing m) (Some (c :: cs)) (Some remaining) (Some elapsed)
               (Some (audio_play_duration m)) (List.length (audio_queue m))
      else Status false None None None None (List.length (audio_queue m))
  | Some [] | None =>
      Status false None None None None (List.length (audio_queue m))
  end.

(** Lines 125-128: the estimated duration for a file of [file_size]
    bytes. *)
Definition estimate (file_size : Z) : Q :=
  let estimate_chars := (inject_Z file_size / 50)%Q in
  fmax 2 (estimate_chars * (1 # 5))%Q.

(** One step of the single consumer task.  A step ends where the task
    suspends, and also at the top of the loop after the pause and after a
    missing file, where the code goes on to [get] without suspending when
    the queue is not empty: a resumption of the code is one or more of these
    steps ([AudioTasks.resume] takes them at once).  [now] is the reading of
    [time.time()], [file_exists] and [file_size] what [os.path.exists] and
    [os.path.getsize] give for the item taken. *)
Definition resume (now : Q) (file_exists : bool) (file_size : outcome Z)
           (m : manager) : manager :=
  match task m with
  | None => m
  | Some Getting =>
      match audio_queue m with
      | [] => m
      | audio_path :: queue' =>
          if negb file_exists then
            Manager queue' (current_audio m) (audio_start_time m)
                    (audio_play_duration m) (is_playing m) (Some Getting)
                    (playback_log m)
          else
            match file_size with
            | Returned size =>
                Manager queue' (Some audio_path) now (estimate size) true
                        (Some (Playing audio_path (estimate size)))
                        (Began audio_path :: playback_log m)
            | Raised _ =>
                Manager queue' None now (audio_play_duration m) false
                        (Some Pausing) (playback_log m)
            end
      end
  | Some (Playing audio_path _) =>
      Manager (audio_queue m) None (audio_start_time m)
              (audio_play_duration m) false (Some Pausing)
              (Ended audio_path :: playback_log m)
  | Some Pausing =>
      Manager (audio_queue m) (current_audio m) (audio_start_time m)
              (audio_play_duration m) (is_playing m) (Some Getting)
              (playback_log m)
  end.

(** What can happen to a manager, one step at a time. *)
Inductive op :=
| Start
| Stop
| AddToQueue (audio_path : str) (file_exists : bool)
| ClearQueue
| GetStatus (now : Q)
| Resume (now : Q) (file_exists : bool) (file_size : outcome Z).

Definition step (o : op) (m : manager) : manager :=
  match o with
  | Start => start m
  | Stop => stop m
  | AddToQueue audio_path file_exists =>
      snd (add_to_queue audio_path file_exists m)
  | ClearQueue => clear_queue m
  | GetStatus _ => m
  | Resume now file_exists file_size => resume now file_exists file_size m
  end.

Fixpoint run (ops : list op) (m : manager) : manager :=
  match ops with
  | [] => m
  | o :: ops' => run ops' (step o m)
  end.

Definition is_add (o : op) : bool :=
  match o with AddToQueue _ _ => true | _ => false end.

(** The playbacks a log has seen begin. *)
Fixpoint begun (log : list playback) : list str :=
  match log with
  | [] => []
  | Began audio_path :: older => audio_path :: begun older
  | Ended _ :: older => begun older
  end.

End AudioManager.

(** ** Accounting over runs of the limiter *)

Module LimiterRuns.
Import RateLimiter.

(** The number of calls of a sequence of [acquire] calls that returned
    [True]. *)
Fixpoint granted (cs : list clock) (s : limiter) : Z :=
  match cs with
  | [] => 0
  | c :: cs' =>
      match fst (acquire c s) with
      | Returned true => 1
      | Returned false | Raised _ => 0
      end + granted cs' (snd (acquire c s))
  end.

(** The tokens the refills of those calls counted as earned ([new_tokens]
    when positive); a call that raises earns nothing. *)
Fixpoint earned (cs : list clock) (s : limiter) : Z :=
  match cs with
  | [] => 0
  | c :: cs' =>
      match fst (acquire c s) with
      | Returned _ => Z.max 0 (earned_tokens (spaced_time c s) s)
      | Raised _ => 0
      end + earned cs' (snd (acquire c s))
  end.

(** The limiter after the whole sequence. *)
Fixpoint after (cs : list clock) (s : limiter) : limiter :=
  match cs with
  | [] => s
  | c :: cs' => after cs' (snd (acquire c s))
  end.

(** [min_interval] of line 52. *)
Definition min_interval (s : limiter) : Q :=
  (time_window s / inject_Z (rate_limit s))%Q.

(** [time.sleep(sleep_time)] of line 56 lasts at least [sleep_time]. *)
Definition sleep_is_honoured (c : clock) (s : limiter) : Prop :=
  flt (now_enter c - last_request_time s)%Q (min_interval s) = true ->
  (now_enter c + (min_interval s - (now_enter c - last_request_time s))
   <= now_woken c)%Q.

(** [KimiAPI.rate_limited_api_call]: the wrapped call is made only with a
    token.  ["API请求超时，请稍后再试"] is the message of its exception. *)
Definition api_timeout : exn :=
  Exn "Exception"
      [65; 80; 73; 35831; 27714; 36229; 26102; 65292;
       35831; 31245; 21518; 20877; 35797].

Definition rate_limited_api_call {A} (env : attempt_env A) : outcome A :=
  match wait env with
  | Raised e => Raised e
  | Returned false => Raised api_timeout
  | Returned true => call env
  end.

(** Pass [k] of [execute_with_retry] ends in a way the loop retries: the
    token wait timed out, or an exception of the rate-limit class was
    raised. *)
Definition failed_retriably {A} (env : nat -> attempt_env A) (k : nat) : Prop :=
  wait (env k) = Returned false \/
  exists e, is_rate_limit e = true /\
            (wait (env k) = Raised e \/
             (wait (env k) = Returned true /\ call (env k) = Raised e)).

End LimiterRuns.

(** ** The text of a turn *)

Module Transcript.
Import KimiAPI Router.

(** The text the [chunk] events of a turn carry, in order. *)
Fixpoint streamed_text (evs : list event) : str :=
  match evs with
  | [] => []
  | Chunk _ content :: evs' => content ++ streamed_text evs'
  | _ :: evs' => streamed_text evs'
  end.

(** The text of the [chunk] payloads of a response, in order. *)
Fixpoint sent_text (out : list sse) : str :=
  match out with
  | [] => []
  | SseChunk content :: out' => content ++ sent_text out'
  | _ :: out' => sent_text out'
  end.

(** What the [audio] payloads of a response carry, in order. *)
Fixpoint audio_payloads (out : list sse) : list str :=
  match out with
  | [] => []
  | SseAudio audio_url :: out' => audio_url :: audio_payloads out'
  | _ :: out' => audio_payloads out'
  end.

(** A synthesizer that always succeeds and hands back the text it was given
    in place of a URL: with it the [audio] payloads of a response show which
    texts [event_generator] passes to [text_to_speech]. *)
Definition echo (text : str) : option str := Some text.

End Transcript.

(** ** Runs of the audio manager *)

Module AudioRuns.
Import AudioManager.

(** What a step puts on the queue: the path of an [add_to_queue] call that
    returns [True]. *)
Definition accepted (o : op) : list str :=
  match o with
  | AddToQueue audio_path file_exists =>
      if fst (add_to_queue audio_path file_exists init) then [audio_path]
      else []
  | _ => []
  end.

(** The paths a run has put on the queue, oldest first. *)
Fixpoint enqueued (ops : list op) : list str :=
  match ops with
  | [] => []
  | o :: ops' => accepted o ++ enqueued ops'
  end.

(** Steps that take nothing off the queue unplayed: no [clear_queue], and
    every file the consumer looks at exists and has a size. *)
Definition keeps_items (o : op) : bool :=
  match o with
  | ClearQueue => false
  | Resume _ file_exists (Returned _) => file_exists
  | Resume _ _ (Raised _) => false
  | Start | Stop | AddToQueue _ _ | GetStatus _ => true
  end.


(** [l1] is [l2] with some items left out, the order kept. *)
Inductive subsequence {A} : list A -> list A -> Prop :=
| subsequence_nil : subsequence [] []
| subsequence_skip x l1 l2 : subsequence l1 l2 -> subsequence l1 (x :: l2)
| subsequence_keep x l1 l2 : subsequence l1 l2 -> subsequence (x :: l1) (x :: l2).

End AudioRuns.

(** ** The memory cache *)

Module MemoryManager.
Import Py.

(** A message of a conversation: a dictionary read with [get], so that a
    key may be missing. *)
Record message := Message {
  msg_role : option str;
  msg_content : option str
}.

(** What [save_conversation] puts on the queue. *)
Record memory_data := MemoryData {
  conversation_id : str;
  timestamp : str;
  messages : list message;
  summary : option str;
  tags : list str
}.

(** The storage format [_convert_to_storage_format] builds: it has no
    [tags] key. *)
Record memory := Memory {
  mem_id : str;
  mem_timestamp : str;
  mem_messages : list message;
  mem_summary : str;
  mem_processed_at : str
}.

(** ["空对话"] *)
Definition empty_conversation : str := [31354; 23545; 35805].

(** ["无用户消息的对话"] *)
Definition no_user_message : str :=
  [26080; 29992; 25143; 28040; 24687; 30340; 23545; 35805].

Definition is_user (msg : message) : bool :=
  match msg_role msg with
  | Some role => str_eqb role (lit "user")
  | None => false
  end.

(** [msg.get("content", "")] *)
Definition content_of (msg : message) : str :=
  match msg_content msg with
  | Some content => content
  | None => []
  end.

(** The loop of [_generate_summary]: it returns at the first user
    message. *)
Fixpoint first_user_summary (msgs : list message) : option str :=
  match msgs with
  | [] => None
  | msg :: msgs' =>
      if is_user msg then
        let content := content_of msg in
        Some (firstn 100 content ++
              (if 100 <? len content then lit "..." else []))
      else first_user_summary msgs'
  end.

(** [_generate_summary] *)
Definition generate_summary (msgs : list message) : str :=
  match msgs with
  | [] => empty_conversation
  | _ :: _ =>
      match first_user_summary msgs with
      | Some s => s
      | None => no_user_message
      end
  end.

(** [_convert_to_storage_format], [processed_at] being the reading of
    [datetime.now().isoformat()].  The keys it reads with a default are
    always present in what [save_conversation] queues. *)
Definition convert_to_storage_format (md : memory_data) (processed_at : str)
  : memory :=
  Memory (conversation_id md) (timestamp md) (messages md)
         match summary md with
         | Some (c :: cs) => c :: cs
         | Some [] | None => generate_summary (messages md)
         end
         processed_at.

(** [self.memory_cache]: a dictionary from dates to lists of memories, in
    insertion order. *)
Definition cache := list (str * list memory).

(** [cache.get(key)] *)
Fixpoint lookup (key : str) (c : cache) : option (list memory) :=
  match c with
  | [] => None
  | (k, v) :: c' => if str_eqb k key then Some v else lookup key c'
  end.

(** [cache[key]] once the key is there. *)
Definition get (key : str) (c : cache) : list memory :=
  match lookup key c with
  | Some v => v
  | None => []
  end.

(** [cache[key] = v]: a new key goes to the end. *)
Fixpoint store (key : str) (v : list memory) (c : cache) : cache :=
  match c with
  | [] => [(key, v)]
  | (k, v0) :: c' =>
      if str_eqb k key then (k, v) :: c' else (k, v0) :: store key v c'
  end.

(** [l[-n:]] for [n > 0] *)
Definition last_items {A} (n : nat) (l : list A) : list A :=
  skipn (List.length l - n) l.

(** [_update_memory_cache] *)
Definition update_memory_cache (m : memory) (c : cache) : cache :=
  let date_key := firstn 10 (mem_timestamp m) in
  let c1 :=
    match lookup date_key c with
    | None => store date_key [] c
    | Some _ => c
    end in
  let c2 := store date_key (get date_key c1 ++ [m]) c1 in
  if 20 <? len (get date_key c2)
  then store date_key (last_items 20 (get date_key c2)) c2
  else c2.

(** What [_update_memory_cache] stores under the date of the memory. *)
Definition updated_entries (m : memory) (c : cache) : list memory :=
  let entries := get (firstn 10 (mem_timestamp m)) c ++ [m] in
  if 20 <? len entries then last_items 20 entries else entries.

(** Every list of the cache holds at most 20 memories, each under the
    first ten characters of its time stamp. *)
Definition well_kept (c : cache) : Prop :=
  forall key entries,
    In (key, entries) c ->
    (List.length entries <= 20)%nat /\
    Forall (fun mem => firstn 10 (mem_timestamp mem) = key) entries.

(** Lines 310-312 of [delete]: the memory goes from every list of the
    cache. *)
Definition delete_cached (memory_id : str) (c : cache) : cache :=
  List.map
    (fun kv =>
       (fst kv,
        filter (fun mem => negb (str_eqb (mem_id mem) memory_id)) (snd kv)))
    c.

Fixpoint find_id (memory_id : str) (memories : list memory) : option memory :=
  match memories with
  | [] => None
  | mem :: memories' =>
      if str_eqb (mem_id mem) memory_id then Some mem
      else find_id memory_id memories'
  end.

(** Lines 276-280 of [get_by_id]: the first cached memory with the id, the
    dates taken in the order of the dictionary. *)
Fixpoint get_by_id_cached (memory_id : str) (c : cache) : option memory :=
  match c with
  | [] => None
  | (_, memories) :: c' =>
      match find_id memory_id memories with
      | Some mem => Some mem
      | None => get_by_id_cached memory_id c'
      end
  end.

(** [get_by_id]: [from_files] is what the search of the file system gives
    when it is reached. *)
Definition get_by_id (memory_id : str) (c : cache)
           (from_files : outcome (option memory)) : outcome (option memory) :=
  match get_by_id_cached memory_id c with
  | Some mem => Returned (Some mem)
  | None => from_files
  end.

(** [l[:limit]] *)
Definition slice_to {A} (limit : Z) (l : list A) : list A :=
  if limit <? 0 then firstn (List.length l - Z.to_nat (- limit)) l
  else firstn (Z.to_nat limit) l.

Section Search.

(** [str.lower] *)
Variable lower : str -> str.

(** The filter of lines 214-218. *)
Definition mentions (query : str) (mem : memory) : bool :=
  existsb (fun msg => contains (lower query) (lower (content_of msg)))
          (mem_messages mem).

(** Lines 210-219 of [search]: the answer from the cache, or [None] when
    the function goes on to the file system. *)
Definition search_cached (query date : option str) (limit : Z) (c : cache)
  : option (list memory) :=
  match date with
  | Some (d :: ds) =>
      match lookup (d :: ds) c with
      | Some memories =>
          Some (slice_to limit
                  match query with
                  | Some (q :: qs) => filter (mentions (q :: qs)) memories
                  | Some [] | None => memories
                  end)
      | None => None
      end
  | Some [] | None => None
  end.

End Search.

(** What changes the cache: [_process_memory] on a queued conversation, once
    its file is written, and [delete]. *)
Inductive cache_op :=
| Remember (md : memory_data) (processed_at : str)
| Forget (memory_id : str).

Definition cache_step (o : cache_op) (c : cache) : cache :=
  match o with
  | Remember md processed_at =>
      update_memory_cache (convert_to_storage_format md processed_at) c
  | Forget memory_id => delete_cached memory_id c
  end.

Fixpoint cache_run (ops : list cache_op) (c : cache) : cache :=
  match ops with
  | [] => c
  | o :: ops' => cache_run ops' (cache_step o c)
  end.

End MemoryManager.

(** ** The audio manager, task by task

    [AudioManager] above sees one consumer and calls that do not overlap.
    Here every consumer task the manager has created is kept, and [stop] is
    in two parts, so that the runs are the interleavings the event loop can
    produce: a step is a stretch of one coroutine between two suspensions. *)

Module AudioTasks.
Import Py.

(** A task running [_audio_processor]: where it is suspended ([None] once
    it has finished), and whether [cancel] has been called on it. *)
Record consumer := Consumer {
  suspended_at : option AudioManager.phase;
  cancel_requested : bool
}.

(** The fields of an [AudioManager], with the tasks behind them: [tasks]
    holds every consumer created so far, oldest first, [task] is the index
    of the one [self.task] refers to, and [stops] lists, for every call of
    [stop] suspended at [await self.task], the task it awaits. *)
Record manager := Manager {
  audio_queue : list str;
  current_audio : option str;
  audio_start_time : Q;
  audio_play_duration : Q;
  is_playing : bool;
  task : option nat;
  tasks : list consumer;
  stops : list nat;
  playback_log : list AudioManager.playback
}.

(** [__init__] *)
Definition init : manager := Manager [] None 0 0 false None [] [] [].

(** [self.task.done()] for the task of index [t]. *)
Definition task_done (t : nat) (m : manager) : bool :=
  match nth_error (tasks m) t with
  | Some (Consumer None _) => true
  | Some (Consumer (Some _) _) | None => false
  end.

Fixpoint set_nth {A} (n : nat) (x : A) (l : list A) : list A :=
  match l, n with
  | [], _ => []
  | _ :: l', O => x :: l'
  | y :: l', S n' => y :: set_nth n' x l'
  end.

Fixpoint remove_first (t : nat) (l : list nat) : list nat :=
  match l with
  | [] => []
  | x :: l' => if (x =? t)%nat then l' else x :: remove_first t l'
  end.

(** [start]: a new task unless [self.task] is a task that is not done. *)
Definition start (m : manager) : manager :=
  let create :=
    Manager (audio_queue m) (current_audio m) (audio_start_time m)
            (audio_play_duration m) (is_playing m)
            (Some (List.length (tasks m)))
            (tasks m ++ [Consumer (Some AudioManager.Getting) false])
            (stops m) (playback_log m) in
  match task m with
  | None => create
  | Some t => if task_done t m then create else m
  end.

(** [stop] up to its suspension (lines 37-40): with a task that is not
    done, [cancel] is called on it and the call waits for it; otherwise the
    call returns at once and writes nothing. *)
Definition stop_call (m : manager) : manager :=
  match task m with
  | None => m
  | Some t =>
      match nth_error (tasks m) t with
      | Some (Consumer (Some ph) _) =>
          Manager (audio_queue m) (current_audio m) (audio_start_time m)
                  (audio_play_duration m) (is_playing m) (task m)
                  (set_nth t (Consumer (Some ph) true) (tasks m))
                  (stops m ++ [t]) (playback_log m)
      | Some (Consumer None _) | None => m
      end
  end.

(** [stop] from its resumption on (lines 41-44), for a call that awaits the
    task of index [t]: it runs once that task is done, and sets [self.task]
    to [None] whatever [self.task] is by then. *)
Definition stop_return (t : nat) (m : manager) : manager :=
  if existsb (Nat.eqb t) (stops m) && task_done t m then
    Manager (audio_queue m) (current_audio m) (audio_start_time m)
            (audio_play_duration m) (is_playing m) None (tasks m)
            (remove_first t (stops m)) (playback_log m)
  else m.

(** [add_to_queue(audio_path)], [file_exists] being
    [os.path.exists(audio_path)]; neither of its awaits suspends. *)
Definition add_to_queue (audio_path : str) (file_exists : bool) (m : manager)
  : bool * manager :=
  match audio_path with
  | [] => (false, m)
  | _ :: _ =>
      if negb file_exists then (false, m)
      else
        (true,
         start (Manager (audio_queue m ++ [audio_path]) (current_audio m)
                        (audio_start_time m) (audio_play_duration m)
                        (is_playing m) (task m) (tasks m) (stops m)
                        (playback_log m)))
  end.

(** [clear_queue] *)
Definition clear_queue (m : manager) : manager :=
  Manager (AudioManager.drain (audio_queue m)) None (audio_start_time m)
          (audio_play_duration m) false (task m) (tasks m) (stops m)
          (playback_log m).

(** [get_status], [now] being the reading of [time.time()]. *)
Definition get_status (now : Q) (m : manager) : AudioManager.status :=
  match current_audio m with
  | Some (c :: cs) =>
      if is_playing m then
        let elapsed := (now - audio_start_time m)%Q in
        let remaining := fmax 0 (audio_play_duration m - elapsed)%Q in
        AudioManager.Status (is_playing m) (Some (c :: cs)) (Some remaining)
                            (Some elapsed) (Some (audio_play_duration m))
                            (List.length (audio_queue m))
      else AudioManager.Status false None None None None
                               (List.length (audio_queue m))
  | Some [] | None =>
      AudioManager.Status false None None None None
                          (List.length (audio_queue m))
  end.

(** The loop of [_audio_processor] from its top to the next suspension, for
    the task of index [t].  [get] suspends on an empty queue only; an item
    whose file is missing is marked done and the loop goes on to the next
    without a suspension.  [file_exists k] is what [os.path.exists] gives
    for the file looked at after [k] others in this stretch, [file_size]
    what [os.path.getsize] gives for the one that exists, [now] the reading
    of [time.time()]. *)
Fixpoint take (now : Q) (file_exists : nat -> bool) (file_size : outcome Z)
         (looked : nat) (queue : list str) (t : nat) (m : manager) : manager :=
  match queue with
  | [] =>
      Manager [] (current_audio m) (audio_start_time m)
              (audio_play_duration m) (is_playing m) (task m)
              (set_nth t (Consumer (Some AudioManager.Getting) false) (tasks m))
              (stops m) (playback_log m)
  | audio_path :: queue' =>
      if negb (file_exists looked) then
        take now file_exists file_size (S looked) queue' t m
      else
        match file_size with
        | Returned size =>
            Manager queue' (Some audio_path) now (AudioManager.estimate size)
                    true (task m)
                    (set_nth t
                       (Consumer
                          (Some (AudioManager.Playing
                                   audio_path (AudioManager.estimate size)))
                          false)
                       (tasks m))
                    (stops m)
                    (AudioManager.Began audio_path :: playback_log m)
        | Raised _ =>
            Manager queue' None now (audio_play_duration m) false (task m)
                    (set_nth t (Consumer (Some AudioManager.Pausing) false)
                             (tasks m))
                    (stops m) (playback_log m)
        end
  end.

(** One resumption of the task of index [t], up to its next suspension or
    its end.  A task on which [cancel] was called gets [CancelledError] where
    it is suspended and leaves through a handler that writes no field; a
    playback it was in is cut short. *)
Definition resume (t : nat) (now : Q) (file_exists : nat -> bool)
           (file_size : outcome Z) (m : manager) : manager :=
  match nth_error (tasks m) t with
  | Some (Consumer (Some ph) true) =>
      Manager (audio_queue m) (current_audio m) (audio_start_time m)
              (audio_play_duration m) (is_playing m) (task m)
              (set_nth t (Consumer None true) (tasks m)) (stops m)
              match ph with
              | AudioManager.Playing audio_path _ =>
                  AudioManager.Ended audio_path :: playback_log m
              | AudioManager.Getting | AudioManager.Pausing => playback_log m
              end
  | Some (Consumer (Some (AudioManager.Playing audio_path _)) false) =>
      Manager (audio_queue m) None (audio_start_time m)
              (audio_play_duration m) false (task m)
              (set_nth t (Consumer (Some AudioManager.Pausing) false) (tasks m))
              (stops m) (AudioManager.Ended audio_path :: playback_log m)
  | Some (Consumer (Some AudioManager.Getting) false)
  | Some (Consumer (Some AudioManager.Pausing) false) =>
      take now file_exists file_size 0 (audio_queue m) t m
  | Some (Consumer None _) | None => m
  end.

(** What the event loop can run next. *)
Inductive op :=
| Start
| StopCall
| StopReturn (t : nat)
| AddToQueue (audio_path : str) (file_exists : bool)
| ClearQueue
| GetStatus (now : Q)
| Resume (t : nat) (now : Q) (file_exists : nat -> bool)
         (file_size : outcome Z).

Definition step (o : op) (m : manager) : manager :=
  match o with
  | Start => start m
  | StopCall => stop_call m
  | StopReturn t => stop_return t m
  | AddToQueue audio_path file_exists =>
      snd (add_to_queue audio_path file_exists m)
  | ClearQueue => clear_queue m
  | GetStatus _ => m
  | Resume t now file_exists file_size =>
      resume t now file_exists file_size m
  end.

Fixpoint run (ops : list op) (m : manager) : manager :=
  match ops with
  | [] => m
  | o :: ops' => run ops' (step o m)
  end.

(** The simulated playbacks in progress: what the consumers that are in
    [asyncio.sleep(play_time)] are playing, oldest task first. *)
Definition playing_now (m : manager) : list str :=
  flat_map
    (fun c =>
       match suspended_at c with
       | Some (AudioManager.Playing audio_path _) => [audio_path]
       | Some AudioManager.Getting | Some AudioManager.Pausing | None => []
       end)
    (tasks m).

(** The consumers that have not finished. *)
Definition alive (m : manager) : nat :=
  List.length (filter (fun c => match suspended_at c with
                                | Some _ => true
                                | None => false
                                end) (tasks m)).

(** Every file is there. *)
Definition present (k : nat) : bool := true.

(** The second half of the Playback State invariant. *)
Definition idle_without_current (m : manager) : Prop :=
  current_audio m = None -> is_playing m = false.

(** The specification's invariant: at most one item is playing, and
    [is_playing] is false when there is no current item. *)
Definition playback_state_invariant (m : manager) : Prop :=
  (List.length (playing_now m) <= 1)%nat /\ idle_without_current m.

(** Three files are queued one after the other; [stop] is called during the
    first playback, and the second [add_to_queue] runs after the cancelled
    consumer has finished and before [stop] resumes. *)
Definition overlapping_stop : list op :=
  [AddToQueue (lit "a.mp3") true;
   Resume 0 10 present (Returned 1000);
   StopCall;
   Resume 0 11 present (Returned 0);
   AddToQueue (lit "b.mp3") true;
   StopReturn 0;
   Resume 1 12 present (Returned 1000);
   AddToQueue (lit "c.mp3") true;
   Resume 2 13 present (Returned 1000)].

End AudioTasks.

(** * Properties *)

Module RateLimiterFacts.
Import RateLimiter.

(** A limiter of two requests per 1.5 seconds, created at reading 0 and
    asked at reading 10: the refill is capped at the capacity, one token is
    taken, both time stamps move to 10. *)
Example acquire_after_ten_seconds :
  acquire (Clock 10 10 10) (init 2 (3 # 2) 3 1 0)
  = (Returned true, Limiter 2 (3 # 2) 1 10 10 3 1).
Proof. reflexivity. Qed.

Example acquire_with_zero_rate :
  acquire (Clock 10 10 10) (init 0 (3 # 2) 3 1 0)
  = (Raised ZeroDivisionError, init 0 (3 # 2) 3 1 0).
Proof. reflexivity. Qed.

Lemma refill_capacity n t s : rate_limit (refill n t s) = rate_limit s.
Proof. unfold refill; destruct (0 <? n); reflexivity. Qed.

Lemma refill_within n t s : within_capacity s -> within_capacity (refill n t s).
Proof.
  unfold within_capacity, refill. intros H.
  destruct (Z.ltb_spec 0 n); cbn; lia.
Qed.

Lemma consume_capacity t s : rate_limit (snd (consume t s)) = rate_limit s.
Proof. unfold consume; destruct (0 <? tokens s); reflexivity. Qed.

Lemma consume_within t s :
  within_capacity s -> within_capacity (snd (consume t s)).
Proof.
  unfold within_capacity, consume. intros H.
  destruct (Z.ltb_spec 0 (tokens s)); cbn; lia.
Qed.

Lemma acquire_capacity c s : rate_limit (snd (acquire c s)) = rate_limit s.
Proof.
  unfold acquire.
  destruct (rate_limit s =? 0); [reflexivity|].
  destruct (Qeq_bool (time_window s) 0); [reflexivity|].
  destruct (consume _ _) as [ok s2] eqn:E. cbn.
  change s2 with (snd (ok, s2)). rewrite <- E.
  now rewrite consume_capacity, refill_capacity.
Qed.

Lemma acquire_within c s :
  within_capacity s -> within_capacity (snd (acquire c s)).
Proof.
  intros H. unfold acquire.
  destruct (rate_limit s =? 0); [exact H|].
  destruct (Qeq_bool (time_window s) 0); [exact H|].
  destruct (consume _ _) as [ok s2] eqn:E. cbn.
  change s2 with (snd (ok, s2)). rewrite <- E.
  now apply consume_within, refill_within.
Qed.

(** Polling for a token keeps the count within the capacity as well. *)
Lemma wait_for_token_within timeout start_time polls : forall s,
  within_capacity s ->
  within_capacity (snd (wait_for_token timeout start_time polls s)) /\
  rate_limit (snd (wait_for_token timeout start_time polls s)) = rate_limit s.
Proof.
  unfold wait_for_token.
  induction polls as [|p polls IH]; intros s Hs; cbn [wait_for_token_loop].
  - auto.
  - destruct (flt (now_test p - start_time) timeout); [|auto].
    pose proof (acquire_within (poll_clock p) s Hs) as Hw.
    pose proof (acquire_capacity (poll_clock p) s) as Hc.
    destruct (acquire (poll_clock p) s) as [[[|]|e] s']; cbn [snd] in *; auto.
    destruct (IH s' Hw) as [IH1 IH2]. split; [exact IH1|congruence].
Qed.

(** What one call does to the token count: the count after the refill is at
    most the capacity, and the call takes exactly one token when that count
    is positive and none otherwise. *)
Lemma acquire_token_accounting c s ok s' :
  within_capacity s ->
  acquire c s = (Returned ok, s') ->
  let mid := refill (earned_tokens (spaced_time c s) s) (spaced_time c s) s in
  tokens s <= tokens mid <= rate_limit s /\
  (ok = true -> 1 <= tokens mid /\ tokens s' = tokens mid - 1) /\
  (ok = false -> tokens mid = 0 /\ tokens s' = 0).
Proof.
  intros H. unfold acquire.
  destruct (rate_limit s =? 0); [discriminate|].
  destruct (Qeq_bool (time_window s) 0); [discriminate|].
  set (mid := refill _ _ s). cbn zeta.
  assert (Hm : within_capacity mid) by now apply refill_within.
  assert (Hge : tokens s <= tokens mid).
  { subst mid. unfold refill. unfold within_capacity in H.
    destruct (Z.ltb_spec 0 (earned_tokens (spaced_time c s) s)); cbn; lia. }
  assert (Hc : rate_limit mid = rate_limit s) by apply refill_capacity.
  unfold consume. unfold within_capacity in Hm.
  destruct (Z.ltb_spec 0 (tokens mid)); intros [= <- <-]; cbn;
    (split; [lia|]); split; intros; try discriminate; lia.
Qed.

(** C2. Starting from a fresh limiter of non-negative capacity, after any
    sequence of [acquire] calls, whatever the clock reads, the token count
    of every state reached lies in [0, capacity] and the capacity itself
    never changes; moreover in each call the refill leaves the count at
    most the capacity, and a token is taken only when the count after the
    refill is at least one. *)
Theorem acquire_tokens_within_capacity
        (capacity : Z) (window : Q) (retries : Z) (delay now : Q)
        (cs : list clock) :
  0 <= capacity ->
  Forall (fun s =>
            rate_limit s = capacity /\ 0 <= tokens s <= capacity /\
            forall c ok s',
              acquire c s = (Returned ok, s') ->
              let mid := refill (earned_tokens (spaced_time c s) s)
                                (spaced_time c s) s in
              tokens mid <= capacity /\
              (ok = true -> 1 <= tokens mid /\ tokens s' = tokens mid - 1) /\
              (ok = false -> tokens s' = tokens mid))
         (acquire_states cs (init capacity window retries delay now)).
Proof.
  intros Hcap.
  assert (Hgen : forall cs s,
             rate_limit s = capacity -> within_capacity s ->
             Forall (fun s =>
               rate_limit s = capacity /\ 0 <= tokens s <= capacity /\
               forall c ok s',
                 acquire c s = (Returned ok, s') ->
                 let mid := refill (earned_tokens (spaced_time c s) s)
                                   (spaced_time c s) s in
                 tokens mid <= capacity /\
                 (ok = true -> 1 <= tokens mid /\ tokens s' = tokens mid - 1) /\
                 (ok = false -> tokens s' = tokens mid))
               (acquire_states cs s)).
  { clear cs. induction cs as [|c cs IH]; intros s Hr Hw; cbn [acquire_states].
    - constructor; [|constructor].
      split; [exact Hr|]. split; [unfold within_capacity in Hw; lia|].
      intros c ok s' E.
      destruct (acquire_token_accounting c s ok s' Hw E) as (A & B & C).
      cbn zeta. split; [lia|]. split; [exact B|]. intros F.
      destruct (C F) as [-> ->]. reflexivity.
    - constructor.
      + split; [exact Hr|]. split; [unfold within_capacity in Hw; lia|].
        intros c0 ok s' E.
        destruct (acquire_token_accounting c0 s ok s' Hw E) as (A & B & C).
        cbn zeta. split; [lia|]. split; [exact B|]. intros F.
        destruct (C F) as [-> ->]. reflexivity.
      + apply IH.
        * now rewrite acquire_capacity.
        * now apply acquire_within. }
  apply Hgen; [reflexivity|]. unfold within_capacity, init; cbn. lia.
Qed.

Lemma acquire_tokens_within_capacity_witness :
  Forall (fun s => rate_limit s = 2 /\ 0 <= tokens s <= 2)
         (acquire_states
            [Clock 10 10 10; Clock 10 (43#4) (43#4); Clock (43#4) (23#2) (23#2)]
            (init 2 (3#2) 3 1 0)).
Proof.
  eapply Forall_impl;
    [| apply (acquire_tokens_within_capacity 2 (3#2) 3 1 0
                [Clock 10 10 10; Clock 10 (43#4) (43#4);
                 Clock (43#4) (23#2) (23#2)]); lia].
  cbn beta. intros s (A & B & _). split; assumption.
Defined.

End RateLimiterFacts.

Module RetryFacts.
Import RateLimiter.

Example suggested_wait_leftmost :
  suggested_wait (lit "rate_limit: retry after 12 seconds, not after 3 seconds")
  = Some 12.
Proof. reflexivity. Qed.

Example suggested_wait_needs_digits :
  suggested_wait (lit "try again after  seconds") = None.
Proof. reflexivity. Qed.

(** The digits need not be ASCII: U+0663 is ARABIC-INDIC DIGIT THREE. *)
Example suggested_wait_reads_any_script :
  suggested_wait (lit "rate_limit: retry after " ++ [1635] ++ lit " seconds")
  = Some 3.
Proof. reflexivity. Qed.

Example suggested_wait_mixes_scripts :
  suggested_wait (lit "after 1" ++ [1635; 65297] ++ lit " seconds") = Some 131.
Proof. reflexivity. Qed.

Example is_rate_limit_ignores_case :
  is_rate_limit (Exn "RateLimitError" (lit "Error code: 429 - RATE_LIMIT_REACHED")) = true.
Proof. reflexivity. Qed.

(** Two token waits time out, the third is granted and the call returns 5:
    three passes, with sleeps of [retry_delay * 1] and [retry_delay * 2]. *)
Example execute_with_retry_after_two_timeouts :
  execute_with_retry (init 2 (3 # 2) 3 1 0)
                     (fun n => AttemptEnv (Returned (n =? 2)%nat) (Returned 5))
  = ([AttemptLog 0 false None (Some 1%Q);
      AttemptLog 1 false None (Some 2%Q);
      AttemptLog 2 true None None],
     Returned (Some 5)).
Proof. reflexivity. Qed.

Section Loop.
Context {A : Type}.
Variable s : limiter.
Variable env : nat -> attempt_env A.

(** One unfolding of the loop, with the two local helpers inlined. *)
Lemma retry_loop_step attempt remaining :
  retry_loop s env attempt (S remaining) =
  let next entry :=
    (entry :: fst (retry_loop s env (S attempt) remaining),
     snd (retry_loop s env (S attempt) remaining)) in
  let handle called e :=
    match on_exception s attempt e with
    | Some d => next (AttemptLog attempt called (Some e) (Some d))
    | None => ([AttemptLog attempt called (Some e) None], Raised e)
    end in
  match wait (env attempt) with
  | Raised e => handle false e
  | Returned false =>
      if Z.of_nat attempt =? max_retries s then handle false token_timeout
      else
        let delay := (retry_delay s * inject_Z (Z.of_nat attempt + 1))%Q in
        if flt delay 0 then handle false negative_sleep
        else next (AttemptLog attempt false None (Some delay))
  | Returned true =>
      match call (env attempt) with
      | Returned v => ([AttemptLog attempt true None None], Returned (Some v))
      | Raised e => handle true e
      end
  end.
Proof.
  cbn [retry_loop]. cbv zeta.
  destruct (retry_loop s env (S attempt) remaining) as [log res].
  reflexivity.
Qed.

Lemma token_timeout_not_rate_limit : is_rate_limit token_timeout = false.
Proof. reflexivity. Qed.


Lemma on_exception_some attempt e d :
  on_exception s attempt e = Some d ->
  is_rate_limit e = true /\ Z.of_nat attempt < max_retries s /\
  d = backoff s attempt e.
Proof.
  unfold on_exception.
  destruct (is_rate_limit e); [|discriminate].
  destruct (Z.ltb_spec (Z.of_nat attempt) (max_retries s)); [|discriminate].
  intros [= <-]. auto.
Qed.

Lemma on_exception_timeout attempt :
  on_exception s attempt token_timeout = None.
Proof. unfold on_exception. now rewrite token_timeout_not_rate_limit. Qed.

Lemma negative_sleep_not_rate_limit : is_rate_limit negative_sleep = false.
Proof. reflexivity. Qed.

Lemma on_exception_negative_sleep attempt :
  on_exception s attempt negative_sleep = None.
Proof. unfold on_exception. now rewrite negative_sleep_not_rate_limit. Qed.


Lemma retry_loop_nonempty attempt remaining :
  (1 <= List.length (fst (retry_loop s env attempt (S remaining))))%nat.
Proof.
  rewrite retry_loop_step. cbv zeta.
  destruct (wait (env attempt)) as [[|]|e];
    [destruct (call (env attempt)) as [v|e]| |];
    try destruct (Z.of_nat attempt =? max_retries s);
    try destruct (flt _ 0);
    try destruct (on_exception s attempt _); cbn; lia.
Qed.



(** The pass in which a granted call fails with [e]: what it logs, and
    whether the loop goes on after it. *)
Lemma retry_loop_failed_call remaining attempt n entry e :
  nth_error (fst (retry_loop s env attempt remaining)) n = Some entry ->
  wait (env (attempt + n)%nat) = Returned true ->
  call (env (attempt + n)%nat) = Raised e ->
  entry = AttemptLog (attempt + n) true (Some e)
                     (on_exception s (attempt + n) e) /\
  (on_exception s (attempt + n) e = None ->
   List.length (fst (retry_loop s env attempt remaining)) = S n /\
   snd (retry_loop s env attempt remaining) = Raised e) /\
  (on_exception s (attempt + n) e <> None ->
   Z.of_nat (attempt + remaining) = max_retries s + 1 ->
   (S n < List.length (fst (retry_loop s env attempt remaining)))%nat).
Proof.
  revert attempt n. induction remaining as [|r IH]; intros k n.
  - cbn. destruct n; discriminate.
  - rewrite retry_loop_step. cbv zeta. destruct n as [|n].
    + rewrite Nat.add_0_r. intros Hnth Hw Hc. rewrite Hw, Hc in *.
      destruct (on_exception s k e) as [d|] eqn:Eo; cbn [fst snd] in *.
      * injection Hnth as <-. split; [reflexivity|].
        split; [discriminate|]. intros _ Hk.
        apply on_exception_some in Eo. destruct Eo as (_ & Hlt & _).
        destruct r as [|r]; [lia|].
        pose proof (retry_loop_nonempty (S k) r). cbn [List.length]. lia.
      * injection Hnth as <-. split; [reflexivity|].
        split; [auto|]. intros F; now elim F.
    + replace (k + S n)%nat with (S k + n)%nat by lia.
      intros Hnth Hw Hc.
      assert (Hnext : forall entry0,
                 nth_error (entry0 :: fst (retry_loop s env (S k) r)) (S n)
                 = Some entry ->
                 entry = AttemptLog (S k + n) true (Some e)
                                    (on_exception s (S k + n) e) /\
                 (on_exception s (S k + n) e = None ->
                  List.length (entry0 :: fst (retry_loop s env (S k) r))
                  = S (S n) /\
                  snd (retry_loop s env (S k) r) = Raised e) /\
                 (on_exception s (S k + n) e <> None ->
                  Z.of_nat (k + S r) = max_retries s + 1 ->
                  (S (S n) < List.length
                               (entry0 :: fst (retry_loop s env (S k) r)))%nat)).
      { intros entry0 H0. cbn [nth_error] in H0.
        destruct (IH (S k) n H0 Hw Hc) as (E1 & E2 & E3).
        split; [exact E1|]. split.
        - intros Hn. destruct (E2 Hn) as [L R]. cbn [List.length]. auto.
        - intros Hs Hk. cbn [List.length].
          assert (S n < List.length (fst (retry_loop s env (S k) r)))%nat
            by (apply E3; [exact Hs | lia]).
          lia. }
      destruct (wait (env k)) as [[|]|e0].
      * destruct (call (env k)) as [v|e0].
        -- cbn in Hnth. destruct n; discriminate.
        -- destruct (on_exception s k e0); cbn [fst snd] in *.
           ++ now apply Hnext in Hnth.
           ++ cbn in Hnth. destruct n; discriminate.
      * destruct (Z.of_nat k =? max_retries s).
        -- rewrite on_exception_timeout in *. cbn in Hnth.
           destruct n; discriminate.
        -- destruct (flt (retry_delay s * inject_Z (Z.of_nat k + 1)) 0).
           ++ rewrite on_exception_negative_sleep in *. cbn in Hnth.
              destruct n; discriminate.
           ++ cbn [fst snd] in *. now apply Hnext in Hnth.
      * destruct (on_exception s k e0); cbn [fst snd] in *.
        -- now apply Hnext in Hnth.
        -- cbn in Hnth. destruct n; discriminate.
Qed.


End Loop.


(** With [max_retries = 3], a [ValueError] from the wrapped call in the
    second pass, after a rate-limit error in the first, ends the run in that
    pass: two passes of four. *)
Example execute_with_retry_stops_at_other_error :
  execute_with_retry
    (init 2 (3 # 2) 3 1 0)
    (fun n : nat =>
       AttemptEnv (Returned true)
                  (Raised (if (n =? 0)%nat
                           then Exn "RateLimitError" (lit "rate_limit_reached")
                           else Exn "ValueError" (lit "boom")) : outcome Z))
  = ([AttemptLog 0 true (Some (Exn "RateLimitError" (lit "rate_limit_reached")))
                 (Some 1%Q);
      AttemptLog 1 true (Some (Exn "ValueError" (lit "boom"))) None],
     Raised (Exn "ValueError" (lit "boom"))).
Proof. reflexivity. Qed.


(** C4 (as amended). Take a pass [k] of the run in which the token is
    granted and the wrapped call fails with [e].  If [e] is not of the
    rate-limit class, the run ends there and [e] is what the caller gets.
    If [e] is of the rate-limit class and [k < max_retries], and the digits
    and the delay are within what [int], the float product and [time.sleep]
    accept, pass [k + 1] is made, after a sleep of the suggested number of
    seconds plus one half when [str(e)] carries one, in the decimal digits
    of any script, and of [max(1.0, retry_delay * 2 ** k)] otherwise. *)
Theorem execute_with_retry_backoff {A} (s : limiter)
        (env : nat -> attempt_env A) (k : nat) (e : exn) :
  (k < List.length (fst (execute_with_retry s env)))%nat ->
  wait (env k) = Returned true ->
  call (env k) = Raised e ->
  (is_rate_limit e = false ->
   snd (execute_with_retry s env) = Raised e /\
   List.length (fst (execute_with_retry s env)) = S k) /\
  (is_rate_limit e = true -> Z.of_nat k < max_retries s ->
   within_limits s k e = true ->
   (S k < List.length (fst (execute_with_retry s env)))%nat /\
   exists entry,
     nth_error (fst (execute_with_retry s env)) k = Some entry /\
     att_sleep entry =
     Some (match search_after_seconds (exn_str e) with
           | Some digits => inject_Z (int_of_digits digits) + (1 # 2)
           | None => fmax 1 (retry_delay s * inject_Z (2 ^ Z.of_nat k))
           end)%Q).
Proof.
  unfold execute_with_retry. intros Hk Hw Hc.
  destruct (nth_error (fst (retry_loop s env 0 (Z.to_nat (max_retries s + 1)))) k)
    as [entry|] eqn:Hnth;
    [|apply nth_error_None in Hnth; lia].
  destruct (retry_loop_failed_call s env _ 0 k entry e Hnth Hw Hc)
    as (He & Hnone & Hsome).
  cbn [Nat.add] in *. split.
  - intros Hrl.
    assert (Ho : on_exception s k e = None)
      by (unfold on_exception; now rewrite Hrl).
    destruct (Hnone Ho). auto.
  - intros Hrl Hlt _.
    assert (Ho : on_exception s k e = Some (backoff s k e)).
    { unfold on_exception. rewrite Hrl.
      destruct (Z.ltb_spec (Z.of_nat k) (max_retries s)); [reflexivity|lia]. }
    split.
    + apply Hsome; [rewrite Ho; discriminate|]. lia.
    + exists entry. split; [reflexivity|]. rewrite He. cbn [att_sleep].
      rewrite Ho. unfold backoff, suggested_wait.
      destruct (search_after_seconds (exn_str e)); reflexivity.
Qed.

Lemma execute_with_retry_backoff_witness :
  let s := init 2 (3 # 2) 3 1 0 in
  let e := Exn "RateLimitError"
               (lit "rate_limit_reached_error: please retry after 2 seconds") in
  let env := fun n : nat =>
               AttemptEnv (Returned true)
                          (if (n =? 0)%nat then Raised e else Returned 7) in
  (is_rate_limit e = true /\ Z.of_nat 0 < max_retries s /\
   within_limits s 0 e = true) /\
  (1 < List.length (fst (execute_with_retry s env)))%nat /\
  exists entry,
    nth_error (fst (execute_with_retry s env)) 0 = Some entry /\
    att_sleep entry = Some (5 # 2)%Q.
Proof.
  intros s e env. split; [repeat split; reflexivity|].
  destruct (execute_with_retry_backoff s env 0 e) as [_ H];
    [vm_compute; lia | reflexivity | reflexivity |].
  destruct (H eq_refl eq_refl eq_refl) as [H1 (entry & H2 & H3)].
  split; [exact H1|]. exists entry. split; [exact H2|].
  rewrite H3. reflexivity.
Defined.

(** C4 as the specification words it fails: with [retry_delay = 0.5] a
    rate-limit error without a suggested wait in pass 0 is followed by a
    sleep of one second, not of [max(0.5, 0.5 * 2 ** 0) = 0.5]. *)
Lemma backoff_floor_is_one_second :
  exists entry,
    nth_error
      (fst (execute_with_retry
              (init 2 (3 # 2) 3 (1 # 2) 0)
              (fun _ : nat =>
                 AttemptEnv (Returned true)
                   (Raised (Exn "RateLimitError" (lit "rate_limit_reached_error"))
                    : outcome Z)))) 0 = Some entry /\
    att_sleep entry = Some 1%Q /\
    ~ (1 == spec_backoff (init 2 (3 # 2) 3 (1 # 2) 0) 0)%Q.
Proof.
  eexists. split; [vm_compute; reflexivity|].
  split; [reflexivity|]. vm_compute. discriminate.
Qed.

End RetryFacts.

Module TextCleanerFacts.
Import TextCleaner.

Example split_two_sentences :
  split_text_for_tts (lit "ab. cd.") 5 = Returned [lit "ab."; lit "cd."].
Proof. reflexivity. Qed.

Example split_long_clause :
  split_text_for_tts (lit "abcdefghijk, lmnop") 4
  = Returned [lit "abcd"; lit "efgh"; lit "ijk,"; lit "lmn"; lit "op"].
Proof. reflexivity. Qed.

Example split_with_zero_length :
  split_text_for_tts (lit "ab. cd.") 0 = Raised ValueError.
Proof. reflexivity. Qed.

Example split_with_negative_length :
  split_text_for_tts (lit "ab. cd.") (-1) = Returned [].
Proof. reflexivity. Qed.

(** *** White space left out *)

Lemma trimmed_refl s : trimmed s s.
Proof. induction s; constructor; assumption. Qed.

Lemma trimmed_app a b c d :
  trimmed a b -> trimmed c d -> trimmed (a ++ c) (b ++ d).
Proof. induction 1; intros; cbn; try constructor; auto. Qed.

Lemma trimmed_trans a b c : trimmed a b -> trimmed b c -> trimmed a c.
Proof.
  intros Hab Hbc. revert a Hab.
  induction Hbc as [|x b c Hbc IH|x b c Hx Hbc IH]; intros a Hab.
  - exact Hab.
  - inversion Hab; subst.
    + constructor. now apply IH.
    + apply trimmed_drop; [assumption|]. now apply IH.
  - apply trimmed_drop; [assumption|]. now apply IH.
Qed.

Lemma trimmed_length a b : trimmed a b -> (List.length a <= List.length b)%nat.
Proof. induction 1; cbn; lia. Qed.

Lemma trimmed_no_space a b : trimmed a b -> no_space b -> a = b.
Proof.
  induction 1 as [|c a b H IH|c a b Hc H IH]; intros Hb.
  - reflexivity.
  - inversion Hb; subst. f_equal. auto.
  - inversion Hb; subst. congruence.
Qed.

Lemma trimmed_rev a b : trimmed a b -> trimmed (rev a) (rev b).
Proof.
  induction 1 as [|c a b H IH|c a b Hc H IH]; cbn.
  - constructor.
  - apply trimmed_app; [assumption|apply trimmed_refl].
  - rewrite <- (app_nil_r (rev a)). apply trimmed_app; [assumption|].
    apply trimmed_drop; [assumption|constructor].
Qed.

Lemma trimmed_lstrip s : trimmed (lstrip s) s.
Proof.
  induction s as [|c s IH]; cbn; [constructor|].
  destruct (is_space c) eqn:E.
  - now apply trimmed_drop.
  - apply trimmed_refl.
Qed.

Lemma trimmed_strip s : trimmed (strip s) s.
Proof.
  unfold strip, rstrip.
  apply trimmed_trans with (lstrip s); [|apply trimmed_lstrip].
  rewrite <- (rev_involutive (lstrip s)) at 2.
  apply trimmed_rev, trimmed_lstrip.
Qed.

Lemma trimmed_blank s : is_blank s = true -> trimmed [] s.
Proof.
  unfold is_blank. intros H. pose proof (trimmed_strip s) as T.
  destruct (strip s); [exact T|discriminate].
Qed.

Lemma trimmed_concat_strip l : trimmed (List.concat (List.map strip l)) (List.concat l).
Proof.
  induction l as [|s l IH]; cbn; [constructor|].
  apply trimmed_app; [apply trimmed_strip|exact IH].
Qed.

Lemma len_strip s : len (strip s) <= len s.
Proof. pose proof (trimmed_length _ _ (trimmed_strip s)). unfold len. lia. Qed.

(** *** The two regular-expression splits and the forced chunks *)

Lemma concat_split_after p s : List.concat (split_after p s) = s.
Proof.
  induction s as [|c s IH]; cbn; [reflexivity|].
  destruct (split_after p s) as [|piece pieces]; cbn in *.
  - now subst.
  - destruct (p c); cbn; now rewrite IH.
Qed.

Lemma concat_chunks n : forall fuel part,
  (1 <= n)%nat -> (List.length part <= fuel)%nat ->
  List.concat (chunks fuel n part) = part.
Proof.
  induction fuel as [|fuel IH]; intros part Hn Hf.
  - destruct part; [reflexivity|cbn in Hf; lia].
  - destruct part as [|c part]; [reflexivity|].
    cbn [chunks List.concat]. rewrite IH; [apply firstn_skipn|assumption|].
    rewrite length_skipn. cbn [List.length] in *. lia.
Qed.

Lemma chunks_bounded n : forall fuel part,
  Forall (fun c => (List.length c <= n)%nat) (chunks fuel n part).
Proof.
  induction fuel as [|fuel IH]; intros part; cbn; [constructor|].
  destruct part as [|c part]; [constructor|].
  constructor; [apply firstn_le_length|apply IH].
Qed.

Lemma forced_chunks_ok max_length part :
  1 <= max_length ->
  exists cs, forced_chunks max_length part = Returned cs /\
             Forall (fun c => len c <= max_length) cs /\
             trimmed (List.concat cs) part.
Proof.
  intros Hm. unfold forced_chunks.
  destruct (Z.eqb_spec max_length 0); [lia|].
  destruct (Z.ltb_spec max_length 0); [lia|].
  eexists. split; [reflexivity|]. split.
  - apply Forall_map.
    eapply Forall_impl; [|apply (chunks_bounded (Z.to_nat max_length))].
    intros c Hc. cbn beta in Hc. pose proof (len_strip c). unfold len in *. lia.
  - pose proof (trimmed_concat_strip
                  (chunks (List.length part) (Z.to_nat max_length) part)) as T.
    rewrite concat_chunks in T by lia. exact T.
Qed.

Lemma flush_if_over_consumed max_length n b done :
  consumed max_length b done ->
  consumed max_length (flush_if_over max_length n b) done /\
  (len (current_paragraph (flush_if_over max_length n b)) + n <= max_length \/
   current_paragraph (flush_if_over max_length n b) = []).
Proof.
  intros (Hp & Hc & Ht). unfold flush_if_over.
  destruct (Z.ltb_spec max_length (len (current_paragraph b) + n)) as [Ho|Ho].
  - destruct (current_paragraph b) as [|c cur] eqn:E.
    + split; [|now right]. unfold consumed. rewrite E. auto.
    + split; [|now right]. unfold consumed. cbn [paragraphs current_paragraph].
      split; [|split].
      * apply Forall_app. split; [assumption|]. constructor; [|constructor].
        pose proof (len_strip (c :: cur)). lia.
      * unfold len in *; cbn [List.length] in *; lia.
      * rewrite concat_app, app_nil_r. cbn [List.concat]. rewrite app_nil_r.
        eapply trimmed_trans; [|exact Ht].
        apply trimmed_app; [apply trimmed_refl|apply trimmed_strip].
  - split; [|left; lia]. unfold consumed. auto.
Qed.

Lemma len_app {A} (a b : list A) : len (a ++ b) = len a + len b.
Proof. unfold len. rewrite length_app. lia. Qed.

Lemma add_part_consumed max_length b done part :
  1 <= max_length ->
  consumed max_length b done ->
  exists b', add_part max_length b part = Returned b' /\
             consumed max_length b' (done ++ part).
Proof.
  intros Hm Hb. unfold add_part.
  destruct (is_blank part) eqn:Ebl.
  - exists b. split; [reflexivity|]. destruct Hb as (Hp & Hc & Ht).
    split; [assumption|]. split; [assumption|].
    rewrite <- (app_nil_r (_ ++ current_paragraph b)).
    apply trimmed_app; [assumption|now apply trimmed_blank].
  - destruct (flush_if_over_consumed max_length (len part) b done Hb)
      as ((Hp & Hc & Ht) & Hroom).
    set (b1 := flush_if_over max_length (len part) b) in *.
    destruct (Z.ltb_spec max_length (len part)) as [Hlong|Hshort].
    + destruct (forced_chunks_ok max_length part Hm) as (cs & -> & Hcs & Htc).
      eexists. split; [reflexivity|].
      assert (Hnil : current_paragraph b1 = []).
      { destruct Hroom as [Hr|Hr]; [|exact Hr].
        assert (0 <= len (current_paragraph b1)) by (unfold len; lia). lia. }
      unfold consumed. cbn [paragraphs current_paragraph].
      rewrite Hnil in *. split; [|split].
      * apply Forall_app. auto.
      * assumption.
      * rewrite app_nil_r in *. rewrite concat_app.
        now apply trimmed_app.
    + eexists. split; [reflexivity|].
      unfold consumed. cbn [paragraphs current_paragraph].
      split; [assumption|]. split.
      * rewrite len_app. destruct Hroom as [Hr|Hr]; [lia|].
        rewrite Hr. unfold len at 1. cbn. lia.
      * rewrite app_assoc. apply trimmed_app; [assumption|apply trimmed_refl].
Qed.

Lemma add_parts_consumed max_length parts : forall b done,
  1 <= max_length ->
  consumed max_length b done ->
  exists b', add_parts max_length b parts = Returned b' /\
             consumed max_length b' (done ++ List.concat parts).
Proof.
  induction parts as [|part parts IH]; intros b done Hm Hb; cbn.
  - exists b. rewrite app_nil_r. auto.
  - destruct (add_part_consumed max_length b done part Hm Hb) as (b1 & -> & H1).
    destruct (IH b1 (done ++ part) Hm H1) as (b2 & E & H2).
    exists b2. split; [exact E|]. now rewrite app_assoc.
Qed.

Lemma add_sentence_consumed max_length b done sentence :
  1 <= max_length ->
  consumed max_length b done ->
  exists b', add_sentence max_length b sentence = Returned b' /\
             consumed max_length b' (done ++ sentence).
Proof.
  intros Hm Hb. unfold add_sentence.
  destruct (is_blank sentence) eqn:Ebl.
  - exists b. split; [reflexivity|]. destruct Hb as (Hp & Hc & Ht).
    split; [assumption|]. split; [assumption|].
    rewrite <- (app_nil_r (_ ++ current_paragraph b)).
    apply trimmed_app; [assumption|now apply trimmed_blank].
  - destruct (Z.ltb_spec max_length (len sentence)) as [Hlong|Hshort].
    + destruct (add_parts_consumed max_length (split_after is_comma sentence)
                  b done Hm Hb) as (b' & E & H').
      exists b'. split; [exact E|]. now rewrite concat_split_after in H'.
    + destruct (flush_if_over_consumed max_length (len sentence) b done Hb)
        as ((Hp & Hc & Ht) & Hroom).
      eexists. split; [reflexivity|].
      unfold consumed. cbn [paragraphs current_paragraph].
      split; [assumption|]. split.
      * rewrite len_app. destruct Hroom as [Hr|Hr]; [lia|].
        rewrite Hr. unfold len at 1. cbn. lia.
      * rewrite app_assoc. apply trimmed_app; [assumption|apply trimmed_refl].
Qed.

Lemma add_sentences_consumed max_length sentences : forall b done,
  1 <= max_length ->
  consumed max_length b done ->
  exists b', add_sentences max_length b sentences = Returned b' /\
             consumed max_length b' (done ++ List.concat sentences).
Proof.
  induction sentences as [|sentence sentences IH]; intros b done Hm Hb; cbn.
  - exists b. rewrite app_nil_r. auto.
  - destruct (add_sentence_consumed max_length b done sentence Hm Hb)
      as (b1 & -> & H1).
    destruct (IH b1 (done ++ sentence) Hm H1) as (b2 & E & H2).
    exists b2. split; [exact E|]. now rewrite app_assoc.
Qed.

(** C7 (as amended). For every text and every [max_length >= 1],
    [split_text_for_tts] returns a list of segments, each of length at most
    [max_length], whose concatenation in order is the text with some of its
    white space left out (segments are stripped and blank pieces skipped);
    the concatenation is the text itself when the text has no white-space
    character. *)
Theorem split_text_for_tts_segments (text : str) (max_length : Z) :
  1 <= max_length ->
  exists segments,
    split_text_for_tts text max_length = Returned segments /\
    Forall (fun p => len p <= max_length) segments /\
    trimmed (List.concat segments) text /\
    (no_space text -> List.concat segments = text).
Proof.
  intros Hm.
  assert (H : exists segments,
             split_text_for_tts text max_length = Returned segments /\
             Forall (fun p => len p <= max_length) segments /\
             trimmed (List.concat segments) text).
  { unfold split_text_for_tts.
    destruct (Z.leb_spec (len text) max_length) as [Hs|Hl].
    - eexists. split; [reflexivity|]. split.
      + constructor; [assumption|constructor].
      + cbn. rewrite app_nil_r. apply trimmed_refl.
    - assert (H0 : consumed max_length (Builder [] []) []).
      { split; [constructor|]. split; [unfold len; cbn; lia|constructor]. }
      destruct (add_sentences_consumed max_length
                  (split_after is_sentence_mark text) _ _ Hm H0)
        as (b & -> & Hp & Hc & Ht).
      rewrite concat_split_after in Ht. cbn [app] in Ht.
      destruct (current_paragraph b) as [|c cur] eqn:E.
      + eexists. split; [reflexivity|]. split; [assumption|].
        now rewrite app_nil_r in Ht.
      + eexists. split; [reflexivity|]. split.
        * apply Forall_app. split; [assumption|]. constructor; [|constructor].
          pose proof (len_strip (c :: cur)). lia.
        * rewrite concat_app. cbn [List.concat]. rewrite app_nil_r.
          eapply trimmed_trans; [|exact Ht].
          apply trimmed_app; [apply trimmed_refl|apply trimmed_strip]. }
  destruct H as (segments & E & Hb & Ht).
  exists segments. repeat split; try assumption.
  intros Hn. now apply trimmed_no_space.
Qed.

Lemma split_text_for_tts_segments_witness :
  1 <= 300 /\
  exists segments,
    split_text_for_tts (repeat 97 700) 300 = Returned segments /\
    Forall (fun p => len p <= 300) segments /\
    List.concat segments = repeat 97 700.
Proof.
  split; [lia|].
  destruct (split_text_for_tts_segments (repeat 97 700) 300 ltac:(lia))
    as (segments & E & Hb & _ & Hc).
  exists segments. split; [exact E|]. split; [exact Hb|].
  apply Hc. apply Forall_forall. intros c Hin.
  apply repeat_spec in Hin. subst c. reflexivity.
Defined.

(** C7 as the specification words it fails: a 700-character text without
    punctuation whose 300th character is a space comes back, with
    [max_length = 300], as three segments of 299, 300 and 100 characters. *)
Lemma split_text_for_tts_drops_space :
  ~ reconstructs (repeat 97 299 ++ [32] ++ repeat 97 400) 300.
Proof.
  intros (segments & E & _ & C).
  apply (f_equal (@List.length Z)) in C.
  assert (L : List.map (@List.length Z) segments = [299; 300; 100]%nat).
  { vm_compute in E. injection E as <-. vm_compute. reflexivity. }
  rewrite length_concat, L in C. vm_compute in C. discriminate.
Qed.

End TextCleanerFacts.

Module KimiAPIFacts.
Import RateLimiter KimiAPI.

(** A turn without tool calls whose stream breaks after two fragments. *)
Example turn_failing_mid_stream :
  List.map event_type
    (events
       (stream_chat
          (init 2 (3 # 2) 3 1 0)
          (TurnEnv
             (fun _ => AttemptEnv (Returned true)
                         (Returned [Choice (lit "stop")
                                           (ChatMessage (Some (lit "hi")) [])]))
             (fun _ => AttemptEnv (Returned true)
                         (Returned
                            (StreamChunk [Some (lit "Hello there, ")]
                               (StreamChunk [Some (lit "friend. ")]
                                  (StreamChunk [None]
                                     (StreamError
                                        (Exn "APIError" (lit "reset")))))))))
          (lit "chatcmpl-1") (lit "hello") []))
  = ["start"; "chunk"; "chunk"; "error"; "end"]%string.
Proof. reflexivity. Qed.

Lemma stream_chunks_body id s :
  forallb is_body_event (fst (stream_chunks id s)) = true.
Proof.
  induction s as [|choices rest IH|e]; cbn; try reflexivity.
  destruct choices as [|content choices]; [reflexivity|].
  destruct (stream_chunks id rest) as [evs err]. cbn in IH.
  destruct content as [[|c cs]|]; cbn; assumption.
Qed.

Lemma guarded_body_yields lim env id messages :
  forallb is_body_event (yielded (guarded_body lim env id messages)) = true.
Proof.
  unfold guarded_body.
  destruct (snd (execute_with_retry lim (probe env))) as [[[|choice choices]|]|e];
    try reflexivity.
  destruct (str_eqb (finish_reason choice) (lit "tool_calls")).
  - destruct (run_tool_calls _ _) as [ms [e|]]; [reflexivity|].
    destruct (snd (execute_with_retry lim (answer env))) as [[s|]|e];
      try reflexivity.
    pose proof (stream_chunks_body id s) as H.
    destruct (stream_chunks id s) as [chunks err']. cbn in *. exact H.
  - destruct (snd (execute_with_retry lim (answer env))) as [[s|]|e];
      try reflexivity.
    pose proof (stream_chunks_body id s) as H.
    destruct (stream_chunks id s) as [chunks err']. cbn in *. exact H.
Qed.

(** The shape of every turn: [start], body events, then [end] alone or an
    [error] followed by [end]. *)
Lemma process_stream_chat_shape lim env id messages :
  exists middle tail,
    events (process_stream_chat lim env id messages)
    = Start id :: middle ++ tail /\
    forallb is_body_event middle = true /\
    (tail = [End id] \/ exists msg, tail = [Error id msg; End id]).
Proof.
  unfold process_stream_chat. cbn [events].
  exists (yielded (guarded_body lim env id messages)).
  destruct (failure (guarded_body lim env id messages)) as [e|].
  - eexists. split; [reflexivity|]. split; [apply guarded_body_yields|].
    right. eexists. reflexivity.
  - eexists. split; [reflexivity|]. split; [apply guarded_body_yields|].
    now left.
Qed.

Lemma body_event_type ev :
  is_body_event ev = true ->
  event_type ev = "tool_call"%string \/ event_type ev = "chunk"%string.
Proof. destruct ev; cbn; intros; try discriminate; auto. Qed.

Lemma body_types_not_in (tag : string) middle :
  forallb is_body_event middle = true ->
  tag <> "tool_call"%string -> tag <> "chunk"%string ->
  ~ In tag (List.map event_type middle).
Proof.
  intros Hb H1 H2 Hin. apply in_map_iff in Hin. destruct Hin as (ev & <- & Hev).
  rewrite forallb_forall in Hb.
  destruct (body_event_type ev (Hb ev Hev)); congruence.
Qed.

Lemma process_stream_chat_bracketed lim env id messages :
  start_first_end_last
    (List.map event_type (events (process_stream_chat lim env id messages))).
Proof.
  destruct (process_stream_chat_shape lim env id messages)
    as (middle & tail & -> & Hb & Htail).
  assert (Hstart : ~ In "start"%string (List.map event_type middle))
    by (apply body_types_not_in; [assumption|discriminate|discriminate]).
  assert (Hend : ~ In "end"%string (List.map event_type middle))
    by (apply body_types_not_in; [assumption|discriminate|discriminate]).
  destruct Htail as [-> | (msg & ->)].
  - exists (List.map event_type middle). cbn [List.map]. rewrite map_app. auto.
  - exists (List.map event_type (middle ++ [Error id msg])). cbn [List.map].
    rewrite !map_app. cbn [List.map event_type]. rewrite <- app_assoc.
    split; [reflexivity|]. rewrite !in_app_iff. cbn [In].
    split; intros [H|[H|[]]]; try discriminate; auto.
Qed.

Lemma str_eqb_eq a b : str_eqb a b = true <-> a = b.
Proof.
  unfold str_eqb. destruct (list_eq_dec Z.eq_dec a b); split; intros;
    try reflexivity; try assumption; try discriminate; contradiction.
Qed.

Lemma str_eqb_neq a b : a <> b -> str_eqb a b = false.
Proof.
  intros H. destruct (str_eqb a b) eqn:E; [|reflexivity].
  apply str_eqb_eq in E. contradiction.
Qed.

(** When every argument payload decodes, the loop over the tool calls
    appends one answer per call, in order, and raises nothing. *)
Lemma run_tool_calls_decoded calls : forall messages,
  (forall tc, In tc calls -> exists args, tc_arguments tc = Returned args) ->
  exists results,
    run_tool_calls calls messages = (messages ++ results, None) /\
    Forall2 (fun tc m => exists args,
                 tc_arguments tc = Returned args /\ m = tool_answer tc args)
            calls results.
Proof.
  induction calls as [|tc calls IH]; intros messages Hdec.
  - exists []. rewrite app_nil_r. split; [reflexivity|constructor].
  - destruct (Hdec tc (or_introl eq_refl)) as (args & Eargs).
    cbn [run_tool_calls]. rewrite Eargs.
    destruct (IH (messages ++
                    [ToolResult (tc_id tc) (tc_name tc)
                       (if str_eqb (tc_name tc) web_search
                        then search_impl args else unknown_tool (tc_name tc))])
                 (fun tc' H => Hdec tc' (or_intror H)))
      as (results & E & HF).
    exists (tool_answer tc args :: results). split.
    + rewrite E, <- app_assoc. reflexivity.
    + constructor; [|exact HF]. exists args. auto.
Qed.

(** The tool round of the non-streaming path: with payloads that decode,
    the history gains the same messages and the second call is made on
    them. *)
Lemma process_chat_request_tool_round lim env messages choice others :
  snd (execute_with_retry lim (first_call env))
  = Returned (Some (choice :: others)) ->
  finish_reason choice = lit "tool_calls" ->
  (forall tc, In tc (cm_tool_calls (message choice)) ->
              exists args, tc_arguments tc = Returned args) ->
  exists results result,
    process_chat_request lim env messages
    = (result,
       messages ++ AssistantRequest (message choice) :: results,
       [Request messages true false;
        Request (messages ++ AssistantRequest (message choice) :: results)
                false false]) /\
    Forall2 (fun tc m => exists args,
                 tc_arguments tc = Returned args /\ m = tool_answer tc args)
            (cm_tool_calls (message choice)) results.
Proof.
  intros Hfirst Hfinish Hdec.
  destruct (run_tool_calls_decoded (cm_tool_calls (message choice))
              (messages ++ [AssistantRequest (message choice)]) Hdec)
    as (results & Erun & HF).
  exists results. unfold process_chat_request.
  rewrite Hfirst, (proj2 (str_eqb_eq _ _) Hfinish), Erun.
  rewrite <- app_assoc. cbn [app].
  destruct (snd (execute_with_retry lim (final_call env)))
    as [[[|final finals]|]|e]; eexists; (split; [reflexivity|exact HF]).
Qed.

(** C5 (as amended). Take a turn whose probing call returns a completion
    with finish reason [tool_calls], and whose tool calls all carry an
    argument payload that decodes as JSON.  Then the history gains the
    assistant request followed by one tool-result message per call, in
    order; the result recorded for a call whose name is not [$web_search] is
    the text [Error: unable to find tool by name '...']; the streaming call
    is made next, on that extended history; and the events of the turn run
    from [start] through the tool notice to [end]. *)
Theorem tool_round_with_unknown_tool lim env id messages choice others :
  snd (execute_with_retry lim (probe env)) = Returned (Some (choice :: others)) ->
  finish_reason choice = lit "tool_calls" ->
  (forall tc, In tc (cm_tool_calls (message choice)) ->
              exists args, tc_arguments tc = Returned args) ->
  tool_round_completes (process_stream_chat lim env id messages)
                       messages (message choice) /\
  (exists results,
      history (process_stream_chat lim env id messages)
      = messages ++ AssistantRequest (message choice) :: results /\
      Forall2 (fun tc m => exists args,
                   tc_arguments tc = Returned args /\ m = tool_answer tc args)
              (cm_tool_calls (message choice)) results) /\
  (forall tc, In tc (cm_tool_calls (message choice)) ->
              tc_name tc <> web_search ->
              In (ToolResult (tc_id tc) (tc_name tc)
                    (JString (lit "Error: unable to find tool by name '"
                              ++ tc_name tc ++ lit "'")))
                 (history (process_stream_chat lim env id messages))) /\
  requests (process_stream_chat lim env id messages)
  = [Request messages true false;
     Request (history (process_stream_chat lim env id messages)) false true] /\
  start_first_end_last
    (List.map event_type (events (process_stream_chat lim env id messages))) /\
  In (ToolCallNotice id searching_notice)
     (events (process_stream_chat lim env id messages)).
Proof.
  intros Hprobe Hfinish Hdec.
  pose proof (process_stream_chat_bracketed lim env id messages) as Hbr.
  destruct (run_tool_calls_decoded (cm_tool_calls (message choice))
              (messages ++ [AssistantRequest (message choice)]) Hdec)
    as (results & Erun & HF).
  assert (Ehist : history (process_stream_chat lim env id messages)
                  = messages ++ AssistantRequest (message choice) :: results
                  /\ requests (process_stream_chat lim env id messages)
                     = [Request messages true false;
                        Request (messages ++ AssistantRequest (message choice)
                                          :: results) false true]
                  /\ In (ToolCallNotice id searching_notice)
                        (events (process_stream_chat lim env id messages))).
  { unfold process_stream_chat, guarded_body. cbn [history requests events].
    rewrite Hprobe, (proj2 (str_eqb_eq _ _) Hfinish), Erun.
    rewrite <- app_assoc. cbn [app].
    destruct (snd (execute_with_retry lim (answer env))) as [[s|]|e];
      cbn [messages_after gateway_calls yielded];
      try (split; [reflexivity|]; split; [reflexivity|]; right; left; reflexivity).
    destruct (stream_chunks id s) as [chunks err'].
    cbn [messages_after gateway_calls yielded].
    split; [reflexivity|]. split; [reflexivity|]. right. left. reflexivity. }
  destruct Ehist as (Ehist & Ereq & Hnotice).
  assert (Hlen : List.length results = List.length (cm_tool_calls (message choice)))
    by (symmetry; eapply Forall2_length; exact HF).
  assert (Hall : forallb is_tool_result results = true).
  { clear -HF. induction HF as [|tc m calls results (args & _ & ->) _ IH];
      [reflexivity|exact IH]. }
  assert (Hlast : last (List.map event_type
                          (events (process_stream_chat lim env id messages)))
                       EmptyString = "end"%string).
  { destruct Hbr as (middle & -> & _).
    change ("start"%string :: middle ++ ["end"%string])
      with (("start"%string :: middle) ++ ["end"%string]).
    apply last_last. }
  split; [|split; [|split; [|split; [|split]]]].
  - split; [exists results; auto|]. split; [|exact Hlast].
    eexists. split; [rewrite Ereq; right; left; reflexivity|reflexivity].
  - exists results. auto.
  - intros tc Hin Hname. rewrite Ehist.
    apply in_or_app. right. right.
    clear -HF Hin Hname. induction HF as [|tc' m calls results (args & _ & ->) _ IH].
    + destruct Hin.
    + destruct Hin as [->|Hin]; [|right; auto].
      left. unfold tool_answer, unknown_tool.
      now rewrite (str_eqb_neq _ _ Hname).
  - now rewrite Ehist.
  - exact Hbr.
  - exact Hnotice.
Qed.

Lemma tool_round_with_unknown_tool_witness :
  let request :=
    ChatMessage None
      [ToolCall (lit "call_1") (lit "calculator")
                (Returned (JObject [(lit "expression", JString (lit "1+1"))]))] in
  let env :=
    TurnEnv
      (fun _ => AttemptEnv (Returned true)
                  (Returned [Choice (lit "tool_calls") request]))
      (fun _ => AttemptEnv (Returned true)
                  (Returned (StreamChunk [Some (lit "Two.")] StreamEnd))) in
  let messages := [Plain (lit "user") (lit "what is 1+1?")] in
  let t := process_stream_chat (init 2 (3 # 2) 3 1 0) env (lit "chatcmpl-1")
                               messages in
  history t
  = messages ++
    [AssistantRequest request;
     ToolResult (lit "call_1") (lit "calculator")
       (JString (lit "Error: unable to find tool by name 'calculator'"))] /\
  requests t = [Request messages true false; Request (history t) false true] /\
  List.map event_type (events t)
  = ["start"; "tool_call"; "chunk"; "end"]%string.
Proof.
  intros request env messages t.
  destruct (tool_round_with_unknown_tool
              (init 2 (3 # 2) 3 1 0) env (lit "chatcmpl-1") messages
              (Choice (lit "tool_calls") request) [])
    as (_ & _ & _ & Hreq & _).
  - reflexivity.
  - reflexivity.
  - intros tc [<-|[]]. eexists. reflexivity.
  - split; [reflexivity|]. split; [exact Hreq|reflexivity].
Defined.

(** C5 as the specification words it fails: when the argument payload of
    the unrecognized tool call is not valid JSON, decoding it raises before
    the name is looked at; no tool result is recorded, the streaming call is
    not made, and the turn goes [start], [tool_call], [error], [end]. *)
Lemma tool_round_stops_on_malformed_arguments :
  ~ tool_round_completes
      (process_stream_chat
         (init 2 (3 # 2) 3 1 0)
         (TurnEnv
            (fun _ => AttemptEnv (Returned true)
                        (Returned
                           [Choice (lit "tool_calls")
                              (ChatMessage None
                                 [ToolCall (lit "call_1") (lit "calculator")
                                           (Raised JSONDecodeError)])]))
            (fun _ => AttemptEnv (Returned true) (Returned StreamEnd)))
         (lit "chatcmpl-1")
         [Plain (lit "user") (lit "what is 1+1?")])
      [Plain (lit "user") (lit "what is 1+1?")]
      (ChatMessage None
         [ToolCall (lit "call_1") (lit "calculator") (Raised JSONDecodeError)]).
Proof.
  intros (_ & (req & Hin & Hs) & _).
  vm_compute in Hin. destruct Hin as [<-|[]]. discriminate.
Qed.

End KimiAPIFacts.

Module SegmenterFacts.
Import TextCleaner Router.

Lemma find_from_range c text : forall i,
  find_from c text i = -1 \/ i <= find_from c text i.
Proof.
  induction text as [|x text IH]; intros i; cbn; [now left|].
  destruct (x =? c); [right; lia|].
  destruct (IH (i + 1)); [now left|right; lia].
Qed.

Lemma list_min_least i ps : forall p,
  In i (p :: ps) -> (forall q, In q (p :: ps) -> i <= q) ->
  list_min p ps = i.
Proof.
  unfold list_min. induction ps as [|q ps IH]; intros p Hin Hle; cbn.
  - destruct Hin as [->|[]]. reflexivity.
  - apply IH.
    + assert (i <= p) by (apply Hle; cbn; auto).
      assert (i <= q) by (apply Hle; cbn; auto).
      destruct Hin as [->|[->|Hin]]; cbn; [left|left|right]; auto; lia.
    + intros r [<-|Hr]; [|apply Hle; cbn; auto].
      assert (i <= p) by (apply Hle; cbn; auto).
      assert (i <= q) by (apply Hle; cbn; auto). lia.
Qed.

Lemma valid_min_least i positions :
  i <> -1 -> In i positions ->
  (forall p, In p positions -> p = -1 \/ i <= p) ->
  valid_min positions = Some i.
Proof.
  intros Hi Hin Hle. unfold valid_min.
  assert (Hin' : In i (List.filter (fun pos => negb (pos =? -1)) positions)).
  { apply filter_In. split; [assumption|].
    destruct (Z.eqb_spec i (-1)); [contradiction|reflexivity]. }
  assert (Hle' : forall q,
             In q (List.filter (fun pos => negb (pos =? -1)) positions) -> i <= q).
  { intros q Hq. apply filter_In in Hq. destruct Hq as [Hq Hv].
    destruct (Hle q Hq) as [->|]; [discriminate|assumption]. }
  destruct (List.filter _ positions) as [|p ps]; [destruct Hin'|].
  f_equal. now apply list_min_least.
Qed.

Lemma valid_min_none positions :
  (forall p, In p positions -> p = -1) -> valid_min positions = None.
Proof.
  intros H. unfold valid_min.
  destruct (List.filter _ positions) as [|p ps] eqn:E; [reflexivity|].
  assert (Hp : In p (List.filter (fun pos => negb (pos =? -1)) positions))
    by (rewrite E; now left).
  apply filter_In in Hp. destruct Hp as [Hp Hv].
  rewrite (H p Hp) in Hv. discriminate.
Qed.

Lemma is_end_char_true x :
  is_end_char x = true <-> In x end_chars.
Proof.
  unfold is_end_char. rewrite existsb_exists. split.
  - intros (c & Hc & E). apply Z.eqb_eq in E. now subst.
  - intros H. exists x. split; [assumption|apply Z.eqb_refl].
Qed.

(** The minimum over the searches for each character is the position of
    the first character that is any of them. *)
Lemma positions_min text : forall i,
  0 <= i ->
  valid_min (List.map (fun c => find_from c text i) end_chars)
  = (if earliest_end text i =? -1 then None else Some (earliest_end text i)) /\
  (earliest_end text i = -1 \/ i <= earliest_end text i).
Proof.
  induction text as [|x text IH]; intros i Hi.
  - split; [reflexivity|now left].
  - cbn [earliest_end]. destruct (is_end_char x) eqn:Ex.
    + split; [|right; lia].
      destruct (Z.eqb_spec i (-1)); [lia|].
      apply valid_min_least; [assumption| |].
      * apply is_end_char_true in Ex. apply in_map_iff. exists x.
        split; [|assumption]. cbn. now rewrite Z.eqb_refl.
      * intros p Hp. apply in_map_iff in Hp. destruct Hp as (c & <- & _).
        cbn [find_from]. destruct (x =? c); [right; lia|].
        destruct (find_from_range c text (i + 1)); [now left|right; lia].
    + destruct (IH (i + 1) ltac:(lia)) as [E R]. split.
      * rewrite <- E. f_equal. apply map_ext_in. intros c Hc. cbn [find_from].
        destruct (Z.eqb_spec x c) as [->|]; [|reflexivity].
        apply is_end_char_true in Hc. congruence.
      * destruct R; [now left|right; lia].
Qed.

Lemma find_sentence_end_earliest text :
  find_sentence_end text
  = if earliest_end text 0 =? -1
    then (if 50 <? len text then len text - 1 else -1)
    else earliest_end text 0.
Proof.
  destruct (positions_min text 0 ltac:(lia)) as [E _].
  unfold find_sentence_end, find. unfold valid_min in E.
  destruct (List.filter _ _) as [|p ps];
    destruct (earliest_end text 0 =? -1); try discriminate; [reflexivity|].
  now injection E.
Qed.

Lemma earliest_end_none text : forall i,
  0 <= i -> (earliest_end text i = -1 <-> no_terminator text).
Proof.
  induction text as [|x text IH]; intros i Hi; cbn [earliest_end].
  - split; [constructor|reflexivity].
  - destruct (is_end_char x) eqn:Ex.
    + split; [lia|]. intros H. inversion H; subst. congruence.
    + rewrite (IH (i + 1)) by lia. split.
      * intros H. now constructor.
      * intros H. now inversion H.
Qed.

Lemma earliest_end_some text : forall i n,
  0 <= i ->
  (earliest_end text i = i + Z.of_nat n <-> earliest_terminator text n).
Proof.
  induction text as [|x text IH]; intros i n Hi; cbn [earliest_end].
  - split; [lia|]. intros [(c & Hc & _) _]. destruct n; discriminate.
  - destruct (is_end_char x) eqn:Ex.
    + split.
      * intros H. assert (n = 0%nat) by lia. subst n. split.
        -- exists x. auto.
        -- intros j c Hj. lia.
      * intros [_ Hfirst]. destruct n as [|n]; [lia|].
        specialize (Hfirst 0%nat x ltac:(lia) eq_refl). congruence.
    + destruct n as [|n].
      * split.
        -- intros H. destruct (positions_min text (i + 1) ltac:(lia)) as [_ [R|R]]; lia.
        -- intros [(c & Hc & Hend) _]. cbn in Hc. congruence.
      * replace (i + Z.of_nat (S n)) with (i + 1 + Z.of_nat n) by lia.
        rewrite (IH (i + 1) n) by lia. unfold earliest_terminator. cbn [nth_error].
        split; intros [Hat Hfirst]; (split; [exact Hat|]).
        -- intros [|j] c Hj Hc; [cbn in Hc; congruence|].
           apply (Hfirst j c); [lia|exact Hc].
        -- intros j c Hj Hc. apply (Hfirst (S j) c); [lia|exact Hc].
Qed.

Lemma earliest_end_bound text : forall i,
  earliest_end text i = -1 \/ earliest_end text i < i + len text.
Proof.
  induction text as [|x text IH]; intros i; cbn [earliest_end]; [now left|].
  unfold len in *. cbn [List.length].
  destruct (is_end_char x); [right; lia|].
  destruct (IH (i + 1)); [now left|right; lia].
Qed.

(** C6 (as amended). [feed] returns a segment in exactly two cases: the
    earliest sentence-ending character of the text is at an index greater
    than 10, and the segment is the text up to and including it, the rest
    being the remainder; or the text has no sentence-ending character but is
    longer than 50 characters, and the segment is the whole text.  Otherwise
    it returns nothing.  In particular "Hi" gives nothing, and
    "This is a sentence. " gives the sentence up to its period with the
    trailing space as remainder. *)
Theorem feed_segment :
  (forall text segment remainder,
      feed text = Some (segment, remainder) <->
      (exists i, earliest_terminator text i /\ (10 < i)%nat /\
                 segment = firstn (S i) text /\ remainder = skipn (S i) text) \/
      (no_terminator text /\ (50 < List.length text)%nat /\
       segment = text /\ remainder = [])) /\
  feed (lit "Hi") = None /\
  feed (lit "This is a sentence. ") = Some (lit "This is a sentence.", lit " ").
Proof.
  split; [|split; reflexivity].
  intros text segment remainder. unfold feed.
  rewrite find_sentence_end_earliest.
  destruct (Z.eqb_spec (earliest_end text 0) (-1)) as [Hnone|Hsome].
  - (* no sentence-ending character *)
    assert (Hno : no_terminator text) by (now apply (earliest_end_none text 0)).
    split.
    + destruct (Z.ltb_spec 50 (len text)) as [Hlong|Hshort].
      * destruct (Z.ltb_spec 10 (len text - 1)); [|discriminate].
        replace (Z.to_nat (len text - 1 + 1)) with (List.length text)
          by (unfold len; lia).
        rewrite firstn_all, skipn_all. intros [= <- <-].
        right. unfold len in Hlong. repeat split; [assumption|lia].
      * cbn. discriminate.
    + intros [(i & Hi & _) | (_ & Hlong & -> & ->)].
      * apply (earliest_end_some text 0 i) in Hi; lia.
      * unfold len.
        destruct (Z.ltb_spec 50 (Z.of_nat (List.length text))); [|lia].
        destruct (Z.ltb_spec 10 (Z.of_nat (List.length text) - 1)); [|lia].
        replace (Z.to_nat (Z.of_nat (List.length text) - 1 + 1))
          with (List.length text) by lia.
        now rewrite firstn_all, skipn_all.
  - (* the earliest one is at index [earliest_end text 0] *)
    destruct (positions_min text 0 ltac:(lia)) as [_ [R|R]]; [contradiction|].
    assert (Het : earliest_terminator text (Z.to_nat (earliest_end text 0)))
      by (apply (earliest_end_some text 0); lia).
    split.
    + destruct (Z.ltb_spec 10 (earliest_end text 0)); [|discriminate].
      intros [= <- <-]. left. exists (Z.to_nat (earliest_end text 0)).
      split; [assumption|]. split; [lia|].
      replace (S (Z.to_nat (earliest_end text 0)))
        with (Z.to_nat (earliest_end text 0 + 1)) by lia.
      split; reflexivity.
    + intros [(i & Hi & Hten & -> & ->) | (Hno & _)].
      * apply (earliest_end_some text 0 i) in Hi; [|lia].
        rewrite Hi. cbn [Z.add].
        destruct (Z.ltb_spec 10 (Z.of_nat i)); [|lia].
        replace (Z.to_nat (Z.of_nat i + 1)) with (S i) by lia. reflexivity.
      * apply (earliest_end_none text 0) in Hno; lia.
Qed.

(** C6 as the specification words it fails: 51 letters without any
    sentence-ending character are returned as a segment. *)
Lemma feed_long_text_without_terminator :
  ~ segments_only_at_terminator (repeat 97 51).
Proof.
  intros H.
  destruct (H (repeat 97 51) [] eq_refl) as (i & [(c & Hc & Hend) _] & _).
  apply nth_error_In, repeat_spec in Hc. subst c. discriminate.
Qed.

End SegmenterFacts.

Module RouterFacts.
Import RateLimiter KimiAPI TextCleaner Router KimiAPIFacts.

(** The same turn as sent to the client, speech synthesis enabled: the
    sentence is complete with the second fragment. *)
Example response_failing_mid_stream :
  List.map sse_type
    (event_generator true (fun _ => Some (lit "/audio/chunk_1.mp3"))
       (init 2 (3 # 2) 3 1 0)
       (TurnEnv
          (fun _ => AttemptEnv (Returned true)
                      (Returned [Choice (lit "stop")
                                        (ChatMessage (Some (lit "hi")) [])]))
          (fun _ => AttemptEnv (Returned true)
                      (Returned
                         (StreamChunk [Some (lit "Hello there, ")]
                            (StreamChunk [Some (lit "friend. ")]
                               (StreamChunk [None]
                                  (StreamError
                                     (Exn "APIError" (lit "reset")))))))))
       (lit "chatcmpl-1") (lit "hello") [])
  = ["chunk"; "chunk"; "audio"; "error"]%string.
Proof. reflexivity. Qed.

Section Generator.
Variable tts_enabled : bool.
Variable synthesize : str -> option str.

Lemma audio_for_payload text :
  forallb is_payload (audio_for synthesize text) = true.
Proof. unfold audio_for. destruct (synthesize text); reflexivity. Qed.

(** Body events are forwarded as payloads, and leave the loop running. *)
Lemma forward_body middle : forall acc tail,
  forallb is_body_event middle = true ->
  exists pre acc',
    forward tts_enabled synthesize acc (middle ++ tail)
    = pre ++ forward tts_enabled synthesize acc' tail /\
    forallb is_payload pre = true.
Proof.
  induction middle as [|ev middle IH]; intros acc tail Hb.
  - exists [], acc. split; reflexivity.
  - cbn [forallb] in Hb. apply andb_prop in Hb. destruct Hb as [Hev Hb].
    destruct ev; try discriminate; cbn [app forward].
    + destruct (IH acc tail Hb) as (pre & acc' & E & Hp).
      exists (SseToolCall searching_notice :: pre), acc'.
      rewrite E. split; [reflexivity|exact Hp].
    + destruct (tts_enabled && truthy (acc ++ content));
        [destruct (feed (acc ++ content)) as [[sentence remainder]|]|].
      * destruct (IH remainder tail Hb) as (pre & acc' & E & Hp).
        exists (SseChunk content :: audio_for synthesize sentence ++ pre), acc'.
        rewrite E, app_assoc. split; [reflexivity|].
        cbn [forallb is_payload]. rewrite forallb_app, audio_for_payload.
        exact Hp.
      * destruct (IH (acc ++ content) tail Hb) as (pre & acc' & E & Hp).
        exists (SseChunk content :: pre), acc'.
        rewrite E. split; [reflexivity|exact Hp].
      * destruct (IH (acc ++ content) tail Hb) as (pre & acc' & E & Hp).
        exists (SseChunk content :: pre), acc'.
        rewrite E. split; [reflexivity|exact Hp].
Qed.

Lemma forward_end acc id :
  exists pre url,
    forward tts_enabled synthesize acc [End id] = pre ++ [SseEnd url] /\
    forallb is_payload pre = true.
Proof.
  cbn. destruct (tts_enabled && truthy acc); [destruct (synthesize acc)|].
  - exists [SseAudio s], (Some s). split; reflexivity.
  - exists [], None. split; reflexivity.
  - exists [], None. split; reflexivity.
Qed.

Lemma payload_types_not_in (tag : string) pre :
  forallb is_payload pre = true ->
  tag <> "chunk"%string -> tag <> "audio"%string -> tag <> "tool_call"%string ->
  ~ In tag (List.map sse_type pre).
Proof.
  intros Hp H1 H2 H3 Hin. apply in_map_iff in Hin.
  destruct Hin as (ev & <- & Hev). rewrite forallb_forall in Hp.
  specialize (Hp ev Hev). destruct ev; cbn in *; congruence.
Qed.

(** C1 (as amended). The events yielded by [process_stream_chat] for a
    turn are [start] first and nowhere else and [end] last and nowhere
    else, and an [error] event, when there is one, is the event just
    before [end].  The response of [event_generator] never carries a
    [start]; it consists of chunk, audio and tool-call payloads and then
    exactly one closing payload: [error] (and no [end]) for a turn that
    failed, [end] otherwise. *)
Theorem stream_turn_event_order lim env id message history :
  start_first_end_last
    (List.map event_type (events (stream_chat lim env id message history))) /\
  (forall ev,
      In ev (events (stream_chat lim env id message history)) ->
      event_type ev = "error"%string ->
      exists pre,
        events (stream_chat lim env id message history)
        = pre ++ [ev; End id]) /\
  ~ In "start"%string
       (List.map sse_type
          (event_generator tts_enabled synthesize lim env id message history)) /\
  exists pre closing,
    event_generator tts_enabled synthesize lim env id message history
    = pre ++ [closing] /\
    forallb is_payload pre = true /\
    if existsb is_error_event
               (events (stream_chat lim env id message history))
    then exists msg, closing = SseError msg
    else exists url, closing = SseEnd url.
Proof.
  unfold event_generator, stream_chat.
  set (messages := Plain (lit "system") system_prompt :: _).
  destruct (process_stream_chat_shape lim env id messages)
    as (middle & tail & E & Hb & Htail).
  rewrite E. clear E.
  assert (Hstart : ~ In "start"%string (List.map event_type middle))
    by (apply body_types_not_in; [assumption|discriminate|discriminate]).
  assert (Hend : ~ In "end"%string (List.map event_type middle))
    by (apply body_types_not_in; [assumption|discriminate|discriminate]).
  assert (Herr : ~ In "error"%string (List.map event_type middle))
    by (apply body_types_not_in; [assumption|discriminate|discriminate]).
  assert (Hno : existsb is_error_event middle = false).
  { apply not_true_is_false. intros Hex. apply existsb_exists in Hex.
    destruct Hex as (ev & Hin & Hev). rewrite forallb_forall in Hb.
    specialize (Hb ev Hin). destruct ev; discriminate. }
  cbn [forward].
  destruct (forward_body middle [] tail Hb) as (pre & acc & Ef & Hp).
  rewrite Ef. clear Ef.
  destruct Htail as [-> | (msg & ->)].
  - (* the turn did not fail *)
    split; [|split; [|split]].
    + exists (List.map event_type middle). cbn [List.map].
      rewrite map_app. auto.
    + intros ev Hin Hty. exfalso.
      destruct Hin as [<-|Hin]; [discriminate|].
      apply in_app_or in Hin. destruct Hin as [Hin|[<-|[]]]; [|discriminate].
      apply Herr. rewrite <- Hty. now apply in_map.
    + destruct (forward_end acc id) as (pre' & url & -> & Hp').
      rewrite app_assoc, map_app, in_app_iff.
      intros [Hin | [Hin | []]]; [|discriminate].
      revert Hin. apply payload_types_not_in;
        [now rewrite forallb_app, Hp, Hp'|discriminate..].
    + destruct (forward_end acc id) as (pre' & url & -> & Hp').
      exists (pre ++ pre'), (SseEnd url).
      split; [now rewrite app_assoc|]. split; [now rewrite forallb_app, Hp, Hp'|].
      cbn [existsb is_error_event orb]. rewrite existsb_app, Hno. cbn.
      now exists url.
  - (* the turn failed *)
    split; [|split; [|split]].
    + exists (List.map event_type (middle ++ [Error id msg])). cbn [List.map].
      rewrite !map_app. cbn [List.map event_type]. rewrite <- app_assoc.
      split; [reflexivity|].
      rewrite !in_app_iff. cbn [In].
      split; intros [H|[H|[]]]; try discriminate; auto.
    + intros ev Hin Hty.
      destruct Hin as [<-|Hin]; [discriminate|].
      apply in_app_or in Hin. destruct Hin as [Hin|[<-|[<-|[]]]].
      * exfalso. apply Herr. rewrite <- Hty. now apply in_map.
      * exists (Start id :: middle). reflexivity.
      * discriminate.
    + cbn [forward]. rewrite map_app, in_app_iff.
      intros [Hin | [Hin | []]]; [|discriminate].
      revert Hin. apply payload_types_not_in; [assumption|discriminate..].
    + cbn [forward]. exists pre, (SseError msg).
      split; [reflexivity|]. split; [assumption|].
      cbn [existsb is_error_event orb]. rewrite existsb_app. cbn.
      rewrite orb_true_r. now exists msg.
Qed.

End Generator.

(** C1 as the specification words it fails on the response sent to the
    client: when the probing call fails with an error that is not retried,
    the response is the single [error] payload, with neither [start] nor
    [end]. *)
Lemma event_generator_error_ends_response :
  ~ start_first_end_last
      (List.map sse_type
         (event_generator true (fun _ => None)
            (init 2 (3 # 2) 3 1 0)
            (TurnEnv
               (fun _ => AttemptEnv (Returned true)
                           (Raised (Exn "APIConnectionError"
                                        (lit "Connection error."))))
               (fun _ => AttemptEnv (Returned true) (Returned StreamEnd)))
            (lit "chatcmpl-1") (lit "hello") [])).
Proof.
  intros (middle & E & _). vm_compute in E. discriminate.
Qed.

End RouterFacts.

Module AudioManagerFacts.
Import AudioManager.

(** Two files are queued, the consumer starts on the first (40000 bytes,
    160 seconds), and the queue is cleared: the second file is gone, the
    state is idle, the consumer still sleeps on the first. *)
Example clear_while_playing :
  run [AddToQueue (lit "a.mp3") true; AddToQueue (lit "b.mp3") true;
       Resume 1 true (Returned 40000); ClearQueue] init
  = Manager [] None 1 (40000 # 250) false
            (Some (Playing (lit "a.mp3") (40000 # 250)))
            [Began (lit "a.mp3")].
Proof. reflexivity. Qed.

Lemma drain_empty queue : drain queue = [].
Proof. induction queue; cbn; auto. Qed.

(** With nothing queued and nothing added, no playback begins. *)
Lemma step_begins_nothing o m :
  audio_queue m = [] -> is_add o = false ->
  audio_queue (step o m) = [] /\
  begun (playback_log (step o m)) = begun (playback_log m).
Proof.
  intros Hq Ho. destruct o; try discriminate; cbn [step].
  - unfold start. destruct (task m); cbn; auto.
  - unfold stop. destruct (task m) as [[| |]|]; cbn; auto.
  - unfold clear_queue. cbn. rewrite drain_empty. auto.
  - auto.
  - unfold resume. rewrite Hq. destruct (task m) as [[| |]|]; cbn; auto.
Qed.

Lemma run_begins_nothing ops : forall m,
  audio_queue m = [] -> forallb (fun o => negb (is_add o)) ops = true ->
  begun (playback_log (run ops m)) = begun (playback_log m).
Proof.
  induction ops as [|o ops IH]; intros m Hq Hops; [reflexivity|].
  cbn [forallb] in Hops. apply andb_prop in Hops. destruct Hops as [Ho Hops].
  apply negb_true_iff in Ho.
  destruct (step_begins_nothing o m Hq Ho) as [Hq' Hb].
  cbn [run]. rewrite (IH _ Hq' Hops). exact Hb.
Qed.

(** C8. After [clear_queue], whatever the manager was doing, the queue is
    empty, there is no current item and [is_playing] is false; [get_status]
    then reports not playing and a queue size of 0; [clear_queue] itself
    starts no playback, and as long as nothing new is queued no playback
    begins afterwards: the drained items are never played. *)
Theorem clear_queue_leaves_idle (m : manager) :
  audio_queue (clear_queue m) = [] /\
  current_audio (clear_queue m) = None /\
  is_playing (clear_queue m) = false /\
  (forall now,
      get_status now (clear_queue m) = Status false None None None None 0) /\
  playback_log (clear_queue m) = playback_log m /\
  (forall ops,
      forallb (fun o => negb (is_add o)) ops = true ->
      begun (playback_log (run ops (clear_queue m))) = begun (playback_log m)).
Proof.
  assert (Hq : audio_queue (clear_queue m) = []) by apply drain_empty.
  repeat split; try assumption; try reflexivity.
  - intros now. unfold get_status. rewrite Hq. reflexivity.
  - intros ops Hops. now rewrite run_begins_nothing.
Qed.

(** C10. [add_to_queue] called with an empty path, or with the path of a
    file that does not exist, returns [False] and leaves every field of the
    manager as it was: nothing is queued and no consumer task is started.
    When it returns [True] the path was not empty, the file existed, the
    path is the new last item of the queue and the consumer task is
    running. *)
Theorem add_to_queue_rejects (m : manager) (audio_path : str)
        (file_exists : bool) :
  (audio_path = [] \/ file_exists = false ->
   add_to_queue audio_path file_exists m = (false, m)) /\
  (forall m',
      add_to_queue audio_path file_exists m = (true, m') ->
      audio_path <> [] /\ file_exists = true /\
      audio_queue m' = audio_queue m ++ [audio_path] /\
      task m' <> None).
Proof.
  unfold add_to_queue. split.
  - intros [-> | ->]; [reflexivity|]. destruct audio_path; reflexivity.
  - intros m'. destruct audio_path as [|c cs]; [discriminate|].
    destruct file_exists; cbn [negb]; [|discriminate].
    intros [= <-]. split; [discriminate|]. split; [reflexivity|].
    unfold start. cbn. destruct (task m); cbn; split; auto; discriminate.
Qed.

End AudioManagerFacts.

(** * Further properties *)

Module LimiterRunsFacts.
Import RateLimiter LimiterRuns RateLimiterFacts.

Lemma flt_true a b : flt a b = true -> (a < b)%Q.
Proof.
  unfold flt. intros H. apply negb_true_iff in H.
  apply Qnot_le_lt. intros Hle. apply Qle_bool_iff in Hle. congruence.
Qed.

Lemma flt_false a b : flt a b = false -> (b <= a)%Q.
Proof.
  unfold flt. intros H. apply negb_false_iff in H. now apply Qle_bool_iff.
Qed.

(** One call: what is granted plus what is left is at most what was there
    plus what the refill earned. *)
Lemma acquire_balance c s :
  match fst (acquire c s) with Returned true => 1 | _ => 0 end
  + tokens (snd (acquire c s))
  <= tokens s
     + match fst (acquire c s) with
       | Returned _ => Z.max 0 (earned_tokens (spaced_time c s) s)
       | Raised _ => 0
       end.
Proof.
  unfold acquire.
  destruct (rate_limit s =? 0); [cbn; lia|].
  destruct (Qeq_bool (time_window s) 0); [cbn; lia|].
  set (n := earned_tokens (spaced_time c s) s).
  unfold consume, refill.
  destruct (Z.ltb_spec 0 n); cbn [tokens].
  - destruct (Z.ltb_spec 0 (Z.min (rate_limit s) (tokens s + n)));
      cbn [fst snd tokens]; lia.
  - destruct (Z.ltb_spec 0 (tokens s)); cbn [fst snd tokens]; lia.
Qed.

Lemma run_balance cs : forall s,
  granted cs s + tokens (after cs s) <= tokens s + earned cs s.
Proof.
  induction cs as [|c cs IH]; intros s; cbn [granted earned after]; [lia|].
  pose proof (acquire_balance c s). pose proof (IH (snd (acquire c s))). lia.
Qed.

Lemma after_within cs : forall s,
  within_capacity s -> within_capacity (after cs s).
Proof.
  induction cs as [|c cs IH]; intros s Hs; cbn [after]; [exact Hs|].
  apply IH. now apply acquire_within.
Qed.

(** X1. A fresh limiter of capacity [capacity >= 0] never grants more
    requests, over any sequence of [acquire] calls, than its capacity plus
    the tokens its refills counted as earned. *)
Theorem acquire_never_overgrants
        (capacity : Z) (window : Q) (retries : Z) (delay now : Q)
        (cs : list clock) :
  0 <= capacity ->
  granted cs (init capacity window retries delay now)
  <= capacity + earned cs (init capacity window retries delay now).
Proof.
  intros Hcap.
  set (s := init capacity window retries delay now).
  pose proof (run_balance cs s) as Hb.
  assert (Hw : within_capacity (after cs s)).
  { apply after_within. unfold within_capacity, s, init. cbn. lia. }
  unfold within_capacity in Hw. change (tokens s) with capacity in Hb. lia.
Qed.

Lemma acquire_never_overgrants_witness :
  0 <= 2 /\
  granted [Clock 0 0 0; Clock 0 1 1; Clock 1 2 2; Clock 2 3 3]
          (init 2 (3 # 2) 3 1 0)
  <= 2 + earned [Clock 0 0 0; Clock 0 1 1; Clock 1 2 2; Clock 2 3 3]
                (init 2 (3 # 2) 3 1 0).
Proof.
  split; [lia|].
  apply (acquire_never_overgrants 2 (3 # 2) 3 1 0
           [Clock 0 0 0; Clock 0 1 1; Clock 1 2 2; Clock 2 3 3]).
  lia.
Defined.

(** X2. When [time.sleep] lasts at least as long as asked and the clock does
    not run backwards before the request is stamped, a granted [acquire]
    stamps its request at least [time_window / rate_limit] after the
    previous granted one. *)
Theorem acquire_keeps_spacing (c : clock) (s s' : limiter) :
  acquire c s = (Returned true, s') ->
  sleep_is_honoured c s ->
  (spaced_time c s <= now_stamp c)%Q ->
  (min_interval s <= last_request_time s' - last_request_time s)%Q.
Proof.
  unfold acquire, sleep_is_honoured.
  destruct (rate_limit s =? 0); [discriminate|].
  destruct (Qeq_bool (time_window s) 0); [discriminate|].
  set (mid := refill _ _ s).
  assert (Hl : last_request_time mid = last_request_time s).
  { unfold mid, refill. destruct (0 <? _); reflexivity. }
  unfold consume. destruct (0 <? tokens mid); [|discriminate].
  intros [= <-] Hsleep Hmono. cbn [last_request_time].
  unfold spaced_time in Hmono. fold (min_interval s) in Hmono.
  destruct (flt (now_enter c - last_request_time s) (min_interval s)) eqn:E.
  - specialize (Hsleep eq_refl). lra.
  - apply flt_false in E. lra.
Qed.

Lemma acquire_keeps_spacing_witness :
  (min_interval (Limiter 2 (3 # 2) 1 10 10 3 1)
   <= (43 # 4) - 10)%Q.
Proof.
  apply (acquire_keeps_spacing (Clock 10 (43 # 4) (43 # 4))
           (Limiter 2 (3 # 2) 1 10 10 3 1)
           (Limiter 2 (3 # 2) 1 (43 # 4) (43 # 4) 3 1)).
  - reflexivity.
  - intros _. vm_compute. discriminate.
  - vm_compute. discriminate.
Defined.

(** X3. [wait_for_token] keeps the token count within the capacity.  When
    it returns [True], the loop test held at some poll and that poll's
    [acquire] stamped the request time; when it returns [False], some poll
    found the timeout passed, and the limiter is either untouched or left
    with no token. *)
Theorem wait_for_token_result (timeout start_time : Q) (polls : list poll)
        (s s' : limiter) (r : bool) :
  within_capacity s ->
  wait_for_token timeout start_time polls s = (Some (Returned r), s') ->
  within_capacity s' /\ rate_limit s' = rate_limit s /\
  (r = true ->
   exists p, In p polls /\
             flt (now_test p - start_time) timeout = true /\
             last_request_time s' = now_stamp (poll_clock p)) /\
  (r = false ->
   (exists p, In p polls /\ flt (now_test p - start_time) timeout = false) /\
   (s' = s \/ tokens s' = 0)).
Proof.
  unfold wait_for_token. revert s.
  induction polls as [|p polls IH]; intros s Hs; cbn [wait_for_token_loop].
  - discriminate.
  - destruct (flt (now_test p - start_time) timeout) eqn:Et.
    + pose proof (acquire_within (poll_clock p) s Hs) as Hw.
      pose proof (acquire_capacity (poll_clock p) s) as Hc.
      destruct (acquire (poll_clock p) s) as [[[|]|e] s1] eqn:Ea;
        cbn [snd] in *.
      * intros [= <- <-]. split; [exact Hw|]. split; [exact Hc|].
        split; [|discriminate]. intros _. exists p.
        split; [now left|]. split; [exact Et|].
        revert Ea. unfold acquire.
        destruct (rate_limit s =? 0); [discriminate|].
        destruct (Qeq_bool (time_window s) 0); [discriminate|].
        unfold consume. destruct (0 <? tokens _); [|discriminate].
        intros [= <-]. reflexivity.
      * intros H. destruct (IH s1 Hw H) as (I1 & I2 & I3 & I4).
        split; [exact I1|]. split; [congruence|]. split.
        -- intros Hr. destruct (I3 Hr) as (q & Hq & Hrest).
           exists q. split; [now right|exact Hrest].
        -- intros Hr. destruct (I4 Hr) as ((q & Hq & Hrest) & Hst).
           split; [exists q; split; [now right|exact Hrest]|].
           right.
           destruct (acquire_token_accounting (poll_clock p) s false s1 Hs Ea)
             as (_ & _ & Hz).
           destruct (Hz eq_refl) as [_ Hzero].
           destruct Hst as [->|Hst]; assumption.
      * discriminate.
    + intros [= <- <-]. split; [exact Hs|]. split; [reflexivity|].
      split; [discriminate|]. intros _. split; [|now left].
      exists p. split; [now left|exact Et].
Qed.

Lemma wait_for_token_result_witness :
  within_capacity (Limiter 2 (3 # 2) 1 (43 # 4) (43 # 4) 3 1) /\
  rate_limit (Limiter 2 (3 # 2) 1 (43 # 4) (43 # 4) 3 1) = 2.
Proof.
  destruct (wait_for_token_result 30 10 [Poll 10 (Clock 10 (43 # 4) (43 # 4))]
              (Limiter 2 (3 # 2) 1 10 10 3 1)
              (Limiter 2 (3 # 2) 1 (43 # 4) (43 # 4) 3 1) true)
    as (H1 & H2 & _).
  - unfold within_capacity. cbn. lia.
  - reflexivity.
  - split; [exact H1|exact H2].
Defined.

End LimiterRunsFacts.

Module RetryMoreFacts.
Import RateLimiter LimiterRuns RetryFacts LimiterRunsFacts.

Section Loop.
Context {A : Type}.
Variable s : limiter.
Variable env : nat -> attempt_env A.

Lemma decimal_range c v : decimal c = Some v -> 0 <= v <= 9.
Proof.
  unfold decimal.
  destruct (List.find (fun zero => (zero <=? c) && (c <=? zero + 9)) digit_zeros)
    as [zero|] eqn:E; [|discriminate].
  apply find_some in E. destruct E as [_ E]. apply andb_prop in E.
  destruct E as [E1 E2]. apply Z.leb_le in E1, E2. intros [= <-]. lia.
Qed.

Lemma int_of_digits_from ds : forall acc,
  0 <= acc ->
  0 <= fold_left
         (fun acc d => 10 * acc + match decimal d with Some v => v | None => 0 end)
         ds acc.
Proof.
  induction ds as [|d ds IH]; intros acc Hacc; cbn [fold_left]; [exact Hacc|].
  apply IH. destruct (decimal d) as [v|] eqn:E; [|lia].
  apply decimal_range in E. lia.
Qed.

Lemma suggested_wait_nonneg str0 n : suggested_wait str0 = Some n -> 0 <= n.
Proof.
  unfold suggested_wait. destruct (search_after_seconds str0); [|discriminate].
  intros [= <-]. unfold int_of_digits. apply int_of_digits_from. lia.
Qed.

Lemma fmax_ge_l a b : (a <= fmax a b)%Q.
Proof.
  unfold fmax. destruct (flt a b) eqn:E.
  - apply flt_true in E. lra.
  - lra.
Qed.

Lemma backoff_at_least_half k e : (1 # 2 <= backoff s k e)%Q.
Proof.
  unfold backoff. destruct (suggested_wait (exn_str e)) as [n|] eqn:E.
  - apply suggested_wait_nonneg in E.
    assert (0 <= inject_Z n)%Q by (rewrite (Zle_Qle 0 n) in E; exact E). lra.
  - pose proof (fmax_ge_l 1 (retry_delay s * inject_Z (2 ^ Z.of_nat k))). lra.
Qed.

(** What the entry of pass [k + n] says, for a loop started at pass [k]. *)
Lemma retry_loop_entry remaining : forall k n entry,
  Z.of_nat (k + remaining) = max_retries s + 1 ->
  nth_error (fst (retry_loop s env k remaining)) n = Some entry ->
  att_index entry = (k + n)%nat /\
  (att_called entry = true -> wait (env (k + n)%nat) = Returned true) /\
  (forall d, att_sleep entry = Some d -> (0 <= d)%Q) /\
  (att_sleep entry = None <->
   List.length (fst (retry_loop s env k remaining)) = S n).
Proof.
  induction remaining as [|r IH]; intros k n entry Hk.
  - cbn. destruct n; discriminate.
  - rewrite retry_loop_step. cbv zeta.
    assert (Hlast : forall called e0,
               (called = true -> wait (env k) = Returned true) ->
               nth_error [AttemptLog k called (Some e0) None] n = Some entry ->
               att_index entry = (k + n)%nat /\
               (att_called entry = true -> wait (env (k + n)%nat) = Returned true) /\
               (forall d, att_sleep entry = Some d -> (0 <= d)%Q) /\
               (att_sleep entry = None <->
                List.length [AttemptLog k called (Some e0) None] = S n)).
    { intros called e0 Hc Hn. destruct n as [|n]; [|destruct n; discriminate].
      injection Hn as <-. rewrite Nat.add_0_r. cbn.
      repeat split; auto; discriminate. }
    assert (Hnext : forall called err d,
               Z.of_nat k < max_retries s ->
               (called = true -> wait (env k) = Returned true) ->
               (0 <= d)%Q ->
               nth_error (AttemptLog k called err (Some d)
                            :: fst (retry_loop s env (S k) r)) n = Some entry ->
               att_index entry = (k + n)%nat /\
               (att_called entry = true -> wait (env (k + n)%nat) = Returned true) /\
               (forall d, att_sleep entry = Some d -> (0 <= d)%Q) /\
               (att_sleep entry = None <->
                List.length (AttemptLog k called err (Some d)
                               :: fst (retry_loop s env (S k) r)) = S n)).
    { intros called err d Hlt Hc Hd Hn. destruct n as [|n].
      - injection Hn as <-. rewrite Nat.add_0_r. cbn [att_index att_called att_sleep].
        split; [reflexivity|]. split; [exact Hc|]. split.
        + intros d' [= <-]. exact Hd.
        + split; [discriminate|]. cbn [List.length]. intros Hl.
          exfalso. destruct r as [|r]; [lia|].
          pose proof (retry_loop_nonempty s env (S k) r). lia.
      - cbn [nth_error] in Hn.
        destruct (IH (S k) n entry ltac:(lia) Hn) as (I1 & I2 & I3 & I4).
        replace (k + S n)%nat with (S k + n)%nat by lia.
        split; [exact I1|]. split; [exact I2|]. split; [exact I3|].
        cbn [List.length]. rewrite I4. split; intros; lia. }
    destruct (wait (env k)) as [[|]|e0] eqn:Ew.
    + destruct (call (env k)) as [v|e0].
      * cbn [fst]. intros Hn. destruct n as [|n]; [|destruct n; discriminate].
        injection Hn as <-. rewrite Nat.add_0_r. cbn.
        repeat split; auto; discriminate.
      * destruct (on_exception s k e0) as [d|] eqn:Eo; cbn [fst].
        -- apply on_exception_some in Eo. destruct Eo as (_ & Hlt & ->).
           apply Hnext; [exact Hlt|auto|].
           pose proof (backoff_at_least_half k e0). lra.
        -- apply Hlast. auto.
    + destruct (Z.eqb_spec (Z.of_nat k) (max_retries s)) as [Hm|Hm].
      * rewrite on_exception_timeout. cbn [fst]. apply Hlast. discriminate.
      * destruct (flt (retry_delay s * inject_Z (Z.of_nat k + 1)) 0) eqn:En.
        -- rewrite on_exception_negative_sleep. cbn [fst]. apply Hlast. discriminate.
        -- cbn [fst]. apply Hnext; [lia|discriminate|]. now apply flt_false.
    + destruct (on_exception s k e0) as [d|] eqn:Eo; cbn [fst].
      * apply on_exception_some in Eo. destruct Eo as (_ & Hlt & ->).
        apply Hnext; [exact Hlt|discriminate|].
        pose proof (backoff_at_least_half k e0). lra.
      * apply Hlast. discriminate.
Qed.

Lemma retry_loop_returned remaining : forall k v,
  snd (retry_loop s env k remaining) = Returned (Some v) ->
  exists n,
    List.length (fst (retry_loop s env k remaining)) = S n /\
    wait (env (k + n)%nat) = Returned true /\
    call (env (k + n)%nat) = Returned v /\
    forall j, (j < n)%nat -> failed_retriably env (k + j).
Proof.
  induction remaining as [|r IH]; intros k v.
  - cbn. discriminate.
  - rewrite retry_loop_step. cbv zeta.
    assert (Hnext : forall entry,
               failed_retriably env k ->
               snd (retry_loop s env (S k) r) = Returned (Some v) ->
               exists n,
                 List.length (entry :: fst (retry_loop s env (S k) r)) = S n /\
                 wait (env (k + n)%nat) = Returned true /\
                 call (env (k + n)%nat) = Returned v /\
                 forall j, (j < n)%nat -> failed_retriably env (k + j)).
    { intros entry Hf Hres. destruct (IH (S k) v Hres) as (n & Hl & Hw & Hc & Hj).
      exists (S n). replace (k + S n)%nat with (S k + n)%nat by lia.
      split; [cbn; lia|]. split; [exact Hw|]. split; [exact Hc|].
      intros [|j] Hlt; [now rewrite Nat.add_0_r|].
      replace (k + S j)%nat with (S k + j)%nat by lia. apply Hj. lia. }
    unfold failed_retriably in Hnext at 1.
    destruct (wait (env k)) as [[|]|e0] eqn:Ew.
    + destruct (call (env k)) as [v0|e0] eqn:Ec.
      * cbn [fst snd]. intros [= <-]. exists 0%nat. rewrite Nat.add_0_r.
        split; [reflexivity|]. split; [exact Ew|]. split; [exact Ec|].
        intros j Hj. lia.
      * destruct (on_exception s k e0) as [d|] eqn:Eo; cbn [fst snd];
          [|discriminate].
        apply Hnext. right. exists e0.
        apply on_exception_some in Eo. destruct Eo as (Hr & _). auto.
    + destruct (Z.of_nat k =? max_retries s).
      * rewrite on_exception_timeout. cbn [snd]. discriminate.
      * destruct (flt (retry_delay s * inject_Z (Z.of_nat k + 1)) 0).
        -- rewrite on_exception_negative_sleep. cbn [snd]. discriminate.
        -- cbn [fst snd]. apply Hnext. now left.
    + destruct (on_exception s k e0) as [d|] eqn:Eo; cbn [fst snd];
        [|discriminate].
      apply Hnext. right. exists e0.
      apply on_exception_some in Eo. destruct Eo as (Hr & _). auto.
Qed.

Lemma retry_loop_never_none remaining : forall k,
  Z.of_nat (k + S remaining) = max_retries s + 1 ->
  snd (retry_loop s env k (S remaining)) <> Returned None.
Proof.
  induction remaining as [|r IH]; intros k Hk; rewrite retry_loop_step; cbv zeta.
  - destruct (wait (env k)) as [[|]|e0].
    + destruct (call (env k)) as [v|e0]; [discriminate|].
      destruct (on_exception s k e0) as [d|] eqn:Eo; [|discriminate].
      apply on_exception_some in Eo. lia.
    + destruct (Z.eqb_spec (Z.of_nat k) (max_retries s)); [|lia].
      rewrite on_exception_timeout. discriminate.
    + destruct (on_exception s k e0) as [d|] eqn:Eo; [|discriminate].
      apply on_exception_some in Eo. lia.
  - specialize (IH (S k) ltac:(lia)).
    destruct (wait (env k)) as [[|]|e0].
    + destruct (call (env k)) as [v|e0]; [discriminate|].
      destruct (on_exception s k e0); [exact IH|discriminate].
    + destruct (Z.of_nat k =? max_retries s).
      * rewrite on_exception_timeout. discriminate.
      * destruct (flt _ 0).
        -- rewrite on_exception_negative_sleep. discriminate.
        -- exact IH.
    + destruct (on_exception s k e0); [exact IH|discriminate].
Qed.


End Loop.

(** X4. In the log of [execute_with_retry] the passes are numbered from 0 in
    order; the wrapped call is made only in a pass whose token wait
    succeeded; every sleep has a non-negative length; and a pass is followed
    by a sleep exactly when it is not the last pass of the run. *)
Theorem execute_with_retry_log {A} (s : limiter) (env : nat -> attempt_env A)
        (n : nat) (entry : attempt_log) :
  nth_error (fst (execute_with_retry s env)) n = Some entry ->
  att_index entry = n /\
  (att_called entry = true -> wait (env n) = Returned true) /\
  (forall d, att_sleep entry = Some d -> (0 <= d)%Q) /\
  (att_sleep entry = None <->
   List.length (fst (execute_with_retry s env)) = S n).
Proof.
  unfold execute_with_retry. intros H.
  destruct (Z.le_gt_cases 0 (max_retries s + 1)) as [Hm|Hm].
  - apply (retry_loop_entry s env _ 0 n entry); [cbn [Nat.add]; lia|exact H].
  - replace (Z.to_nat (max_retries s + 1)) with 0%nat in H by lia.
    cbn in H. destruct n; discriminate.
Qed.

Lemma execute_with_retry_log_witness :
  att_index (AttemptLog 1 false None (Some 2%Q)) = 1%nat /\
  (0 <= 2)%Q.
Proof.
  destruct (execute_with_retry_log (init 2 (3 # 2) 3 1 0)
              (fun n => AttemptEnv (Returned (n =? 2)%nat) (Returned 5))
              1 (AttemptLog 1 false None (Some 2%Q)) eq_refl)
    as (H1 & _ & H3 & _).
  split; [exact H1|]. apply H3. reflexivity.
Defined.

(** X5. When [execute_with_retry] returns a value, it is the value the
    wrapped call returned in the last pass of the run, a pass whose token
    wait succeeded; every earlier pass ended in a token-wait timeout or in an
    exception of the rate-limit class. *)
Theorem execute_with_retry_returns {A} (s : limiter)
        (env : nat -> attempt_env A) (v : A) :
  snd (execute_with_retry s env) = Returned (Some v) ->
  exists n,
    List.length (fst (execute_with_retry s env)) = S n /\
    wait (env n) = Returned true /\
    call (env n) = Returned v /\
    forall j, (j < n)%nat -> failed_retriably env j.
Proof.
  unfold execute_with_retry. intros H.
  exact (retry_loop_returned s env _ 0 v H).
Qed.

Lemma execute_with_retry_returns_witness :
  exists n,
    List.length
      (fst (execute_with_retry (init 2 (3 # 2) 3 1 0)
              (fun n => AttemptEnv (Returned (n =? 2)%nat) (Returned 5))))
    = S n /\
    (n =? 2)%nat = true.
Proof.
  destruct (execute_with_retry_returns (init 2 (3 # 2) 3 1 0)
              (fun n => AttemptEnv (Returned (n =? 2)%nat) (Returned 5)) 5 eq_refl)
    as (n & Hl & Hw & _).
  exists n. split; [exact Hl|]. cbn in Hw. congruence.
Defined.



(** X7. [execute_with_retry] falls off the end of its loop, returning [None]
    without having called the wrapped function, exactly when [max_retries]
    is negative. *)
Theorem execute_with_retry_none {A} (s : limiter) (env : nat -> attempt_env A) :
  (snd (execute_with_retry s env) = Returned None <-> max_retries s < 0) /\
  (max_retries s < 0 -> fst (execute_with_retry s env) = []).
Proof.
  unfold execute_with_retry. split; [split|].
  - intros H. destruct (Z.lt_ge_cases (max_retries s) 0) as [Hm|Hm]; [exact Hm|].
    exfalso. revert H.
    replace (Z.to_nat (max_retries s + 1)) with (S (Z.to_nat (max_retries s)))
      by lia.
    apply retry_loop_never_none. lia.
  - intros Hm. replace (Z.to_nat (max_retries s + 1)) with 0%nat by lia.
    reflexivity.
  - intros Hm. replace (Z.to_nat (max_retries s + 1)) with 0%nat by lia.
    reflexivity.
Qed.

End RetryMoreFacts.

Module TranscriptFacts.
Import RateLimiter KimiAPI TextCleaner Router Transcript.
Import KimiAPIFacts SegmenterFacts RouterFacts.

(** X8. [find_sentence_end] returns [-1] or an index of the text, and it
    returns [-1] exactly when the text has no sentence-ending character and
    is at most 50 characters long. *)
Theorem find_sentence_end_range (text : str) :
  -1 <= find_sentence_end text < len text /\
  (find_sentence_end text = -1 <->
   no_terminator text /\ len text <= 50).
Proof.
  rewrite find_sentence_end_earliest.
  destruct (positions_min text 0 ltac:(lia)) as [_ Hr].
  pose proof (earliest_end_bound text 0) as Hb.
  pose proof (earliest_end_none text 0 ltac:(lia)) as Hn.
  assert (Hlen : 0 <= len text) by (unfold len; lia).
  destruct (Z.eqb_spec (earliest_end text 0) (-1)) as [E|E].
  - destruct (Z.ltb_spec 50 (len text)).
    + split; [lia|]. split; [lia|]. intros [_ ?]. lia.
    + split; [lia|]. split; [|reflexivity]. intros _. split; [now apply Hn|lia].
  - split; [lia|]. split; [intros; contradiction|].
    intros [Hno _]. apply Hn in Hno. contradiction.
Qed.

(** X9. When [feed] cuts a sentence off the accumulated text, the sentence
    followed by the remainder is the accumulated text, unchanged, and the
    sentence has at least 12 characters. *)
Theorem feed_conserves_text (text sentence remainder : str) :
  feed text = Some (sentence, remainder) ->
  sentence ++ remainder = text /\ (12 <= List.length sentence)%nat.
Proof.
  unfold feed. pose proof (find_sentence_end_range text) as [Hr _].
  destruct (Z.ltb_spec 10 (find_sentence_end text)); [|discriminate].
  intros [= <- <-]. split; [apply firstn_skipn|].
  rewrite length_firstn. unfold len in Hr. lia.
Qed.

Lemma feed_conserves_text_witness :
  lit "This is a sentence." ++ lit " " = lit "This is a sentence. " /\
  (12 <= List.length (lit "This is a sentence."))%nat.
Proof.
  apply (feed_conserves_text (lit "This is a sentence. ")). reflexivity.
Defined.

Lemma run_tool_calls_appends calls : forall messages,
  exists results,
    fst (run_tool_calls calls messages) = messages ++ results /\
    forallb is_tool_result results = true.
Proof.
  induction calls as [|tc calls IH]; intros messages; cbn [run_tool_calls].
  - exists []. now rewrite app_nil_r.
  - destruct (tc_arguments tc) as [args|e].
    + destruct (IH (messages ++
                      [ToolResult (tc_id tc) (tc_name tc)
                         (if str_eqb (tc_name tc) web_search
                          then search_impl args else unknown_tool (tc_name tc))]))
        as (results & E & Hr).
      eexists (_ :: results). rewrite E, <- app_assoc. split; [reflexivity|].
      exact Hr.
    + exists []. now rewrite app_nil_r.
Qed.

(** X10. A turn only ever appends to the message list it is given: the list
    is left as it was, or gains the assistant's tool-call request followed by
    tool results only.  It makes one gateway call, the probe with the tool
    definitions on the messages given, or two, the second being the streaming
    call, without tool definitions, on the final message list. *)
Theorem process_stream_chat_appends lim env id messages :
  (exists added,
      history (process_stream_chat lim env id messages) = messages ++ added /\
      (added = [] \/
       exists m results,
         added = AssistantRequest m :: results /\
         forallb is_tool_result results = true)) /\
  (requests (process_stream_chat lim env id messages)
   = [Request messages true false] \/
   requests (process_stream_chat lim env id messages)
   = [Request messages true false;
      Request (history (process_stream_chat lim env id messages)) false true]).
Proof.
  unfold process_stream_chat, guarded_body. cbn [history requests].
  assert (Hsame : forall evs gw f,
             (exists added,
                 messages_after (Body evs messages gw f) = messages ++ added /\
                 (added = [] \/
                  exists m results,
                    added = AssistantRequest m :: results /\
                    forallb is_tool_result results = true))).
  { intros. exists []. rewrite app_nil_r. cbn. auto. }
  destruct (snd (execute_with_retry lim (probe env)))
    as [[[|choice choices]|]|e]; try (split; [apply Hsame|left; reflexivity]).
  destruct (str_eqb (finish_reason choice) (lit "tool_calls")).
  - destruct (run_tool_calls_appends (cm_tool_calls (message choice))
                (messages ++ [AssistantRequest (message choice)]))
      as (results & E & Hr).
    destruct (run_tool_calls _ _) as [ms err]. cbn [fst] in E. subst ms.
    assert (Hadd : forall evs gw f,
               exists added,
                 messages_after
                   (Body evs ((messages ++ [AssistantRequest (message choice)])
                              ++ results) gw f) = messages ++ added /\
                 (added = [] \/
                  exists m results0,
                    added = AssistantRequest m :: results0 /\
                    forallb is_tool_result results0 = true)).
    { intros. exists (AssistantRequest (message choice) :: results).
      cbn [messages_after]. rewrite <- app_assoc. split; [reflexivity|].
      right. eauto. }
    destruct err as [e|]; [split; [apply Hadd|left; reflexivity]|].
    destruct (snd (execute_with_retry lim (answer env))) as [[s|]|e];
      try (split; [apply Hadd|right; reflexivity]).
    destruct (stream_chunks id s) as [chunks err'].
    split; [apply Hadd|right; reflexivity].
  - destruct (snd (execute_with_retry lim (answer env))) as [[s|]|e];
      try (split; [apply Hsame|right; reflexivity]).
    destruct (stream_chunks id s) as [chunks err'].
    split; [apply Hsame|right; reflexivity].
Qed.

Lemma sent_text_app a b : sent_text (a ++ b) = sent_text a ++ sent_text b.
Proof.
  induction a as [|ev a IH]; [reflexivity|].
  destruct ev; cbn; rewrite IH; try reflexivity. now rewrite app_assoc.
Qed.

Lemma audio_payloads_app a b :
  audio_payloads (a ++ b) = audio_payloads a ++ audio_payloads b.
Proof.
  induction a as [|ev a IH]; [reflexivity|].
  destruct ev; cbn; rewrite IH; reflexivity.
Qed.

Lemma streamed_text_app a b :
  streamed_text (a ++ b) = streamed_text a ++ streamed_text b.
Proof.
  induction a as [|ev a IH]; [reflexivity|].
  destruct ev; cbn; rewrite IH; try reflexivity. now rewrite app_assoc.
Qed.

Lemma audio_for_sends_no_text synthesize text :
  sent_text (audio_for synthesize text) = [].
Proof. unfold audio_for. destruct (synthesize text); reflexivity. Qed.

(** Body events: every chunk is forwarded, and nothing else is sent as
    text. *)
Lemma forward_sent tts_enabled synthesize middle : forall acc tail,
  forallb is_body_event middle = true ->
  exists pre acc',
    forward tts_enabled synthesize acc (middle ++ tail)
    = pre ++ forward tts_enabled synthesize acc' tail /\
    sent_text pre = streamed_text middle.
Proof.
  induction middle as [|ev middle IH]; intros acc tail Hb.
  - exists [], acc. split; reflexivity.
  - cbn [forallb] in Hb. apply andb_prop in Hb. destruct Hb as [Hev Hb].
    destruct ev; try discriminate; cbn [app forward streamed_text].
    + destruct (IH acc tail Hb) as (pre & acc' & E & Hp).
      exists (SseToolCall searching_notice :: pre), acc'.
      rewrite E. split; [reflexivity|exact Hp].
    + destruct (tts_enabled && truthy (acc ++ content));
        [destruct (feed (acc ++ content)) as [[sentence remainder]|]|].
      * destruct (IH remainder tail Hb) as (pre & acc' & E & Hp).
        exists (SseChunk content :: audio_for synthesize sentence ++ pre), acc'.
        rewrite E, app_assoc. split; [reflexivity|].
        cbn [sent_text]. now rewrite sent_text_app, audio_for_sends_no_text, Hp.
      * destruct (IH (acc ++ content) tail Hb) as (pre & acc' & E & Hp).
        exists (SseChunk content :: pre), acc'.
        rewrite E. split; [reflexivity|]. cbn [sent_text]. now rewrite Hp.
      * destruct (IH (acc ++ content) tail Hb) as (pre & acc' & E & Hp).
        exists (SseChunk content :: pre), acc'.
        rewrite E. split; [reflexivity|]. cbn [sent_text]. now rewrite Hp.
Qed.

Lemma forward_end_sends_no_text tts_enabled synthesize acc id :
  sent_text (forward tts_enabled synthesize acc [End id]) = [].
Proof.
  cbn. destruct (tts_enabled && truthy acc); [destruct (synthesize acc)|];
    reflexivity.
Qed.

Lemma stream_chunks_nonempty id s id' content :
  In (Chunk id' content) (fst (stream_chunks id s)) -> content <> [].
Proof.
  induction s as [|choices rest IH|e]; cbn; try contradiction.
  destruct choices as [|c0 choices]; [contradiction|].
  destruct (stream_chunks id rest) as [evs err]. cbn [fst] in *.
  destruct c0 as [[|c cs]|]; cbn [fst]; try exact IH.
  intros [[= <- <-]|H]; [discriminate|now apply IH].
Qed.

Lemma guarded_body_chunks_nonempty lim env id messages id' content :
  In (Chunk id' content) (yielded (guarded_body lim env id messages)) ->
  content <> [].
Proof.
  unfold guarded_body.
  destruct (snd (execute_with_retry lim (probe env)))
    as [[[|choice choices]|]|e]; try contradiction.
  destruct (str_eqb (finish_reason choice) (lit "tool_calls")).
  - destruct (run_tool_calls _ _) as [ms [e|]];
      [intros [H|[]]; discriminate|].
    destruct (snd (execute_with_retry lim (answer env))) as [[s|]|e];
      try (intros [H|[]]; discriminate).
    pose proof (stream_chunks_nonempty id s id' content) as Hs.
    destruct (stream_chunks id s) as [chunks err']. cbn in *.
    intros [H|H]; [discriminate|auto].
  - destruct (snd (execute_with_retry lim (answer env))) as [[s|]|e];
      try contradiction.
    pose proof (stream_chunks_nonempty id s id' content) as Hs.
    destruct (stream_chunks id s) as [chunks err']. cbn in *. exact Hs.
Qed.

(** X11. Every [chunk] event of a turn carries a non-empty text, and the
    response of [event_generator] forwards the text of all of them, in order
    and once each, whether or not speech synthesis is enabled and whether or
    not the turn fails. *)
Theorem event_generator_forwards_text
        tts_enabled synthesize lim env id message history :
  sent_text (event_generator tts_enabled synthesize lim env id message history)
  = streamed_text (events (stream_chat lim env id message history)) /\
  forall id' content,
    In (Chunk id' content) (events (stream_chat lim env id message history)) ->
    content <> [].
Proof.
  unfold event_generator, stream_chat.
  set (messages := Plain (lit "system") system_prompt :: _). split.
  - destruct (process_stream_chat_shape lim env id messages)
      as (middle & tail & -> & Hb & Htail).
    cbn [forward streamed_text].
    destruct (forward_sent tts_enabled synthesize middle [] tail Hb)
      as (pre & acc & -> & Hp).
    rewrite sent_text_app, streamed_text_app, Hp.
    destruct Htail as [-> | (msg & ->)].
    + now rewrite forward_end_sends_no_text.
    + reflexivity.
  - intros id' content. unfold process_stream_chat. cbn [events].
    intros [H|H]; [discriminate|].
    apply in_app_or in H. destruct H as [H|H].
    + now apply guarded_body_chunks_nonempty in H.
    + apply in_app_or in H. destruct H as [H|[H|[]]]; [|discriminate].
      destruct (failure _); [destruct H as [H|[]]; discriminate|destruct H].
Qed.

(** With the echoing synthesizer: the texts synthesized so far, followed by
    the text still accumulated, are the text streamed so far. *)
Lemma forward_spoken middle : forall acc tail,
  forallb is_body_event middle = true ->
  exists pre acc',
    forward true echo acc (middle ++ tail)
    = pre ++ forward true echo acc' tail /\
    List.concat (audio_payloads pre) ++ acc' = acc ++ streamed_text middle.
Proof.
  induction middle as [|ev middle IH]; intros acc tail Hb.
  - exists [], acc. split; [reflexivity|]. cbn. now rewrite app_nil_r.
  - cbn [forallb] in Hb. apply andb_prop in Hb. destruct Hb as [Hev Hb].
    destruct ev; try discriminate; cbn [app forward streamed_text].
    + destruct (IH acc tail Hb) as (pre & acc' & E & Hp).
      exists (SseToolCall searching_notice :: pre), acc'.
      rewrite E. split; [reflexivity|exact Hp].
    + cbn [andb].
      destruct (truthy (acc ++ content));
        [destruct (feed (acc ++ content)) as [[sentence remainder]|] eqn:Ef|].
      * destruct (IH remainder tail Hb) as (pre & acc' & E & Hp).
        exists (SseChunk content :: SseAudio sentence :: pre), acc'.
        rewrite E. split; [reflexivity|].
        cbn [audio_payloads List.concat]. rewrite <- app_assoc, Hp.
        apply feed_conserves_text in Ef. destruct Ef as [Ef _].
        now rewrite !app_assoc, Ef.
      * destruct (IH (acc ++ content) tail Hb) as (pre & acc' & E & Hp).
        exists (SseChunk content :: pre), acc'.
        rewrite E. split; [reflexivity|]. cbn [audio_payloads].
        now rewrite Hp, app_assoc.
      * destruct (IH (acc ++ content) tail Hb) as (pre & acc' & E & Hp).
        exists (SseChunk content :: pre), acc'.
        rewrite E. split; [reflexivity|]. cbn [audio_payloads].
        now rewrite Hp, app_assoc.
Qed.

Lemma forward_silent synthesize evs : forall acc,
  audio_payloads (forward false synthesize acc evs) = [].
Proof.
  induction evs as [|ev evs IH]; intros acc; [reflexivity|].
  destruct ev; cbn; auto.
Qed.

(** X12. With speech synthesis enabled, the texts [event_generator] passes
    to synthesis, in order, make up a prefix of the text streamed in the
    turn, and the whole of it when the turn ends without an [error] event:
    every streamed character is then synthesized exactly once.  With speech
    synthesis disabled the response carries no [audio] payload. *)
Theorem speech_covers_streamed_text lim env id message history :
  (exists unspoken,
      streamed_text (events (stream_chat lim env id message history))
      = List.concat
          (audio_payloads (event_generator true echo lim env id message history))
        ++ unspoken /\
      (existsb is_error_event (events (stream_chat lim env id message history))
       = false -> unspoken = [])) /\
  forall synthesize,
    audio_payloads (event_generator false synthesize lim env id message history)
    = [].
Proof.
  unfold event_generator, stream_chat.
  set (messages := Plain (lit "system") system_prompt :: _).
  split; [|intros; apply forward_silent].
  destruct (process_stream_chat_shape lim env id messages)
    as (middle & tail & -> & Hb & Htail).
  cbn [forward streamed_text existsb is_error_event orb].
  destruct (forward_spoken middle [] tail Hb) as (pre & acc & -> & Hp).
  cbn [app] in Hp. rewrite audio_payloads_app, concat_app, streamed_text_app.
  destruct Htail as [-> | (msg & ->)].
  - exists []. split; [|reflexivity]. cbn [forward streamed_text andb].
    rewrite <- Hp. destruct acc as [|c acc]; cbn; now rewrite ?app_nil_r.
  - exists acc. split.
    + cbn [forward audio_payloads List.concat streamed_text].
      now rewrite !app_nil_r.
    + rewrite existsb_app. cbn. rewrite orb_true_r. discriminate.
Qed.

End TranscriptFacts.

Module SplitMoreFacts.
Import TextCleaner TextCleanerFacts.

(** *** Stripping *)

Lemma lstrip_head s :
  match lstrip s with
  | [] => True
  | c :: _ => is_space c = false
  end.
Proof.
  induction s as [|c s IH]; cbn; [exact I|].
  destruct (is_space c) eqn:E; [exact IH|exact E].
Qed.

Lemma lstrip_fixed c s : is_space c = false -> lstrip (c :: s) = c :: s.
Proof. intros H. cbn. now rewrite H. Qed.

Lemma lstrip_keeps_last a c :
  is_space c = false -> exists x, lstrip (a ++ [c]) = x ++ [c].
Proof.
  intros Hc. induction a as [|d a IH]; cbn.
  - rewrite Hc. now exists [].
  - destruct (is_space d); [exact IH|]. now exists (d :: a).
Qed.

Lemma lstrip_nil_iff s : lstrip s = [] <-> forallb is_space s = true.
Proof.
  induction s as [|c s IH]; cbn; [tauto|].
  destruct (is_space c); cbn; [exact IH|]. split; discriminate.
Qed.

Lemma strip_fixed_by_strip s : strip (strip s) = strip s.
Proof.
  unfold strip at 2 3. unfold rstrip.
  pose proof (lstrip_head s) as Hh.
  destruct (lstrip s) as [|c l] eqn:El; [reflexivity|].
  cbn [rev]. destruct (lstrip_keeps_last (rev l) c Hh) as (x & Ex).
  rewrite Ex, rev_app_distr. cbn [rev app].
  unfold strip, rstrip. rewrite (lstrip_fixed c (rev x) Hh).
  change (rev (c :: rev x)) with (rev (rev x) ++ [c]).
  rewrite rev_involutive.
  assert (Hx : lstrip (x ++ [c]) = x ++ [c]).
  { rewrite <- Ex. pose proof (lstrip_head (rev l ++ [c])) as H2.
    destruct (lstrip (rev l ++ [c])) as [|d r]; [reflexivity|].
    now apply lstrip_fixed. }
  rewrite Hx, rev_app_distr. reflexivity.
Qed.

Lemma is_blank_iff s : is_blank s = true <-> forallb is_space s = true.
Proof.
  unfold is_blank, strip, rstrip. split.
  - intros H. destruct (rev (lstrip (rev (lstrip s)))) as [|c r] eqn:E;
      [|discriminate].
    apply (f_equal (@rev Z)) in E. rewrite rev_involutive in E. cbn in E.
    apply lstrip_nil_iff in E. rewrite forallb_forall in E.
    assert (Hl : lstrip s = []).
    { pose proof (lstrip_head s) as Hh.
      destruct (lstrip s) as [|d l]; [reflexivity|].
      rewrite (E d) in Hh; [discriminate|]. apply in_rev.
      rewrite rev_involutive. now left. }
    now apply lstrip_nil_iff.
  - intros H. apply lstrip_nil_iff in H. now rewrite H.
Qed.

Lemma not_blank_nonempty s : is_blank s = false -> 0 < len s.
Proof. destruct s; [discriminate|]. unfold len. cbn [List.length]. lia. Qed.

Lemma blank_pieces l :
  (forall piece, In piece l -> is_blank piece = true) <->
  is_blank (List.concat l) = true.
Proof.
  rewrite is_blank_iff. induction l as [|p l IH]; cbn.
  - split; [reflexivity|intros _ ? []].
  - rewrite forallb_app, andb_true_iff, <- IH, <- is_blank_iff. split.
    + intros H. split; [apply H; now left|]. intros q Hq. apply H. now right.
    + intros [H1 H2] q [<-|Hq]; auto.
Qed.

(** *** Saved paragraphs are stripped *)

Lemma forced_chunks_stripped max_length part cs :
  forced_chunks max_length part = Returned cs ->
  Forall (fun p => strip p = p) cs.
Proof.
  unfold forced_chunks. destruct (max_length =? 0); [discriminate|].
  destruct (max_length <? 0); intros [= <-]; [constructor|].
  apply Forall_map, Forall_forall. intros c _. apply strip_fixed_by_strip.
Qed.

Lemma flush_if_over_stripped max_length n b :
  Forall (fun p => strip p = p) (paragraphs b) ->
  Forall (fun p => strip p = p) (paragraphs (flush_if_over max_length n b)).
Proof.
  intros H. unfold flush_if_over.
  destruct (max_length <? len (current_paragraph b) + n); [|exact H].
  destruct (current_paragraph b); [exact H|]. cbn [paragraphs].
  apply Forall_app. split; [exact H|].
  constructor; [apply strip_fixed_by_strip|constructor].
Qed.

Lemma add_part_stripped max_length b part b' :
  add_part max_length b part = Returned b' ->
  Forall (fun p => strip p = p) (paragraphs b) ->
  Forall (fun p => strip p = p) (paragraphs b').
Proof.
  unfold add_part. destruct (is_blank part); [now intros [= <-]|].
  intros H Hb. pose proof (flush_if_over_stripped max_length (len part) b Hb) as Hf.
  destruct (max_length <? len part).
  - destruct (forced_chunks max_length part) as [cs|e] eqn:E; [|discriminate].
    injection H as <-. cbn [paragraphs]. apply Forall_app. split; [exact Hf|].
    now apply (forced_chunks_stripped max_length part).
  - injection H as <-. exact Hf.
Qed.

Lemma add_parts_stripped max_length parts : forall b b',
  add_parts max_length b parts = Returned b' ->
  Forall (fun p => strip p = p) (paragraphs b) ->
  Forall (fun p => strip p = p) (paragraphs b').
Proof.
  induction parts as [|part parts IH]; intros b b'; cbn [add_parts].
  - now intros [= <-].
  - destruct (add_part max_length b part) as [b1|e] eqn:E; [|discriminate].
    intros H Hb. apply (IH b1 b' H). now apply (add_part_stripped _ _ _ _ E).
Qed.

Lemma add_sentence_stripped max_length b sentence b' :
  add_sentence max_length b sentence = Returned b' ->
  Forall (fun p => strip p = p) (paragraphs b) ->
  Forall (fun p => strip p = p) (paragraphs b').
Proof.
  unfold add_sentence. destruct (is_blank sentence); [now intros [= <-]|].
  destruct (max_length <? len sentence).
  - apply add_parts_stripped.
  - intros [= <-] Hb. cbn [paragraphs]. now apply flush_if_over_stripped.
Qed.

Lemma add_sentences_stripped max_length sentences : forall b b',
  add_sentences max_length b sentences = Returned b' ->
  Forall (fun p => strip p = p) (paragraphs b) ->
  Forall (fun p => strip p = p) (paragraphs b').
Proof.
  induction sentences as [|sentence sentences IH]; intros b b'; cbn [add_sentences].
  - now intros [= <-].
  - destruct (add_sentence max_length b sentence) as [b1|e] eqn:E; [|discriminate].
    intros H Hb. apply (IH b1 b' H). now apply (add_sentence_stripped _ _ _ _ E).
Qed.

(** X13. When the text is longer than [max_length], no segment
    [split_text_for_tts] returns begins or ends with white space: stripping
    a segment again changes nothing.  (A text within [max_length] comes back
    as it is, white space included.) *)
Theorem split_text_for_tts_stripped (text : str) (max_length : Z)
        (segments : list str) :
  max_length < len text ->
  split_text_for_tts text max_length = Returned segments ->
  Forall (fun p => strip p = p) segments.
Proof.
  intros Hlong. unfold split_text_for_tts.
  destruct (Z.leb_spec (len text) max_length); [lia|].
  destruct (add_sentences max_length (Builder [] [])
              (split_after is_sentence_mark text)) as [b|e] eqn:E;
    [|discriminate].
  pose proof (add_sentences_stripped _ _ _ _ E (Forall_nil _)) as Hb.
  destruct (current_paragraph b); intros [= <-]; [exact Hb|].
  apply Forall_app. split; [exact Hb|].
  constructor; [apply strip_fixed_by_strip|constructor].
Qed.

Lemma split_text_for_tts_stripped_witness :
  Forall (fun p => strip p = p) [lit "ab."; lit "cd."].
Proof.
  apply (split_text_for_tts_stripped (lit "ab. cd.") 5).
  - vm_compute. reflexivity.
  - reflexivity.
Defined.

(** *** Degenerate lengths *)

Lemma add_parts_blank max_length parts : forall b,
  (forall piece, In piece parts -> is_blank piece = true) ->
  add_parts max_length b parts = Returned b.
Proof.
  induction parts as [|part parts IH]; intros b H; cbn [add_parts]; [reflexivity|].
  unfold add_part. rewrite (H part (or_introl eq_refl)).
  apply IH. intros q Hq. apply H. now right.
Qed.

Lemma add_parts_zero parts : forall b,
  ~ (forall piece, In piece parts -> is_blank piece = true) ->
  add_parts 0 b parts = Raised ValueError.
Proof.
  induction parts as [|part parts IH]; intros b H; cbn [add_parts].
  - exfalso. apply H. intros ? [].
  - unfold add_part. destruct (is_blank part) eqn:Eb.
    + apply IH. intros Hall. apply H. intros q [<-|Hq]; auto.
    + pose proof (not_blank_nonempty part Eb) as Hlen.
      destruct (Z.ltb_spec 0 (len part)); [|lia]. reflexivity.
Qed.

Lemma add_sentences_blank max_length sentences : forall b,
  (forall piece, In piece sentences -> is_blank piece = true) ->
  add_sentences max_length b sentences = Returned b.
Proof.
  induction sentences as [|x sentences IH]; intros b H; cbn [add_sentences];
    [reflexivity|].
  unfold add_sentence. rewrite (H x (or_introl eq_refl)).
  apply IH. intros q Hq. apply H. now right.
Qed.

Lemma add_sentences_zero sentences : forall b,
  ~ (forall piece, In piece sentences -> is_blank piece = true) ->
  add_sentences 0 b sentences = Raised ValueError.
Proof.
  induction sentences as [|x sentences IH]; intros b H; cbn [add_sentences].
  - exfalso. apply H. intros ? [].
  - unfold add_sentence. destruct (is_blank x) eqn:Eb.
    + apply IH. intros Hall. apply H. intros q [<-|Hq]; auto.
    + pose proof (not_blank_nonempty x Eb) as Hlen.
      destruct (Z.ltb_spec 0 (len x)); [|lia].
      rewrite add_parts_zero; [reflexivity|].
      rewrite blank_pieces, concat_split_after. congruence.
Qed.

(** X14. With [max_length = 0], [split_text_for_tts] raises the [ValueError]
    of [range] for every text that has a character other than white space;
    a non-empty text of white space only gives the empty list, and the empty
    text gives the list holding the empty text. *)
Theorem split_text_for_tts_zero_length (text : str) :
  (is_blank text = false -> split_text_for_tts text 0 = Raised ValueError) /\
  (is_blank text = true -> text <> [] ->
   split_text_for_tts text 0 = Returned []) /\
  split_text_for_tts [] 0 = Returned [[]].
Proof.
  split; [|split; [|reflexivity]].
  - intros Hb. unfold split_text_for_tts.
    pose proof (not_blank_nonempty text Hb).
    destruct (Z.leb_spec (len text) 0); [lia|].
    rewrite add_sentences_zero; [reflexivity|].
    rewrite blank_pieces, concat_split_after. congruence.
  - intros Hb Hne. unfold split_text_for_tts.
    assert (0 < len text) by (destruct text; [contradiction|unfold len; cbn; lia]).
    destruct (Z.leb_spec (len text) 0); [lia|].
    rewrite add_sentences_blank; [reflexivity|].
    apply blank_pieces. now rewrite concat_split_after.
Qed.

Lemma add_parts_negative max_length parts :
  max_length < 0 ->
  add_parts max_length (Builder [] []) parts = Returned (Builder [] []).
Proof.
  intros Hm. induction parts as [|part parts IH]; cbn [add_parts]; [reflexivity|].
  assert (E : add_part max_length (Builder [] []) part = Returned (Builder [] [])).
  { unfold add_part. destruct (is_blank part); [reflexivity|].
    unfold flush_if_over. cbn [current_paragraph].
    assert (0 <= len part) by (unfold len; lia).
    destruct (max_length <? len (@nil Z) + len part); cbn [paragraphs current_paragraph];
      (destruct (Z.ltb_spec max_length (len part)); [|lia]);
      unfold forced_chunks;
      (destruct (Z.eqb_spec max_length 0); [lia|]);
      (destruct (Z.ltb_spec max_length 0); [|lia]); reflexivity. }
  rewrite E. exact IH.
Qed.

(** X15. With a negative [max_length], [split_text_for_tts] returns the
    empty list for every text: nothing of the text is kept. *)
Theorem split_text_for_tts_negative_length (text : str) (max_length : Z) :
  max_length < 0 -> split_text_for_tts text max_length = Returned [].
Proof.
  intros Hm. unfold split_text_for_tts.
  assert (0 <= len text) by (unfold len; lia).
  destruct (Z.leb_spec (len text) max_length); [lia|].
  assert (E : forall sentences,
             add_sentences max_length (Builder [] []) sentences
             = Returned (Builder [] [])).
  { induction sentences as [|x sentences IH]; cbn [add_sentences]; [reflexivity|].
    unfold add_sentence. destruct (is_blank x); [exact IH|].
    assert (0 <= len x) by (unfold len; lia).
    destruct (Z.ltb_spec max_length (len x)); [|lia].
    rewrite add_parts_negative by exact Hm. exact IH. }
  rewrite E. reflexivity.
Qed.

Lemma split_text_for_tts_negative_length_witness :
  split_text_for_tts (lit "Hello, world. How are you?") (-5) = Returned [].
Proof.
  apply split_text_for_tts_negative_length. lia.
Defined.

End SplitMoreFacts.

Module AudioRunsFacts.
Import Py AudioManager AudioManagerFacts AudioRuns LimiterRunsFacts.

Lemma subsequence_refl {A} (l : list A) : subsequence l l.
Proof. induction l; [constructor|now apply subsequence_keep]. Qed.

Lemma subsequence_trans {A} (l1 l2 l3 : list A) :
  subsequence l1 l2 -> subsequence l2 l3 -> subsequence l1 l3.
Proof.
  intros H12 H23. revert l1 H12.
  induction H23 as [|x l2 l3 H IH|x l2 l3 H IH]; intros l1 H12.
  - exact H12.
  - constructor. now apply IH.
  - inversion H12; subst.
    + apply subsequence_skip. now apply IH.
    + apply subsequence_keep. now apply IH.
Qed.

Lemma subsequence_empty {A} (l : list A) : subsequence [] l.
Proof. induction l; constructor; auto. Qed.

Lemma subsequence_app {A} (l1 l1' l2 l2' : list A) :
  subsequence l1 l1' -> subsequence l2 l2' ->
  subsequence (l1 ++ l2) (l1' ++ l2').
Proof.
  intros H1 H2. induction H1; cbn; [exact H2| |].
  - now apply subsequence_skip.
  - now apply subsequence_keep.
Qed.

Lemma accepted_add audio_path file_exists m :
  audio_queue (snd (add_to_queue audio_path file_exists m))
  = audio_queue m ++ accepted (AddToQueue audio_path file_exists) /\
  playback_log (snd (add_to_queue audio_path file_exists m)) = playback_log m.
Proof.
  unfold accepted, add_to_queue. destruct audio_path as [|c cs].
  - cbn. now rewrite app_nil_r.
  - destruct file_exists; cbn [negb fst snd].
    + unfold start. cbn. destruct (task m); cbn; auto.
    + now rewrite app_nil_r.
Qed.

(** One step that keeps the items: what has begun, followed by what waits,
    grows by what the step put on the queue. *)
Lemma step_keeps_order o m :
  keeps_items o = true ->
  rev (begun (playback_log (step o m))) ++ audio_queue (step o m)
  = (rev (begun (playback_log m)) ++ audio_queue m) ++ accepted o.
Proof.
  intros Hk. destruct o; cbn [step]; try discriminate.
  - unfold start. cbn [accepted]. rewrite app_nil_r.
    destruct (task m); reflexivity.
  - unfold stop. cbn [accepted]. rewrite app_nil_r.
    destruct (task m) as [[| |]|]; reflexivity.
  - destruct (accepted_add audio_path file_exists m) as [-> ->].
    now rewrite app_assoc.
  - cbn [accepted]. now rewrite app_nil_r.
  - cbn [accepted]. rewrite app_nil_r. unfold resume.
    destruct file_size as [size|e]; [|discriminate]. cbn in Hk. subst.
    destruct (task m) as [[| |]|]; try reflexivity.
    destruct (audio_queue m) as [|audio_path queue'] eqn:Eq;
      [now rewrite Eq|].
    cbn. now rewrite <- app_assoc.
Qed.

(** Any step: nothing is added but what the step put on the queue, and the
    order is kept. *)
Lemma step_in_order o m :
  subsequence
    (rev (begun (playback_log (step o m))) ++ audio_queue (step o m))
    ((rev (begun (playback_log m)) ++ audio_queue m) ++ accepted o).
Proof.
  destruct (keeps_items o) eqn:Hk.
  - rewrite step_keeps_order by exact Hk. apply subsequence_refl.
  - destruct o; try discriminate; cbn [step accepted]; rewrite app_nil_r.
    + unfold clear_queue. cbn. rewrite drain_empty.
      apply subsequence_app; [apply subsequence_refl|apply subsequence_empty].
    + unfold resume.
      destruct (task m) as [[| |]|]; try apply subsequence_refl.
      destruct (audio_queue m) as [|audio_path queue'] eqn:Eq;
        [rewrite Eq; apply subsequence_refl|].
      destruct file_exists; cbn [negb].
      * destruct file_size; [discriminate|]. cbn.
        apply subsequence_app; [apply subsequence_refl|].
        constructor. apply subsequence_refl.
      * cbn. apply subsequence_app; [apply subsequence_refl|].
        constructor. apply subsequence_refl.
Qed.

Lemma run_keeps_order ops : forall m,
  forallb keeps_items ops = true ->
  rev (begun (playback_log (run ops m))) ++ audio_queue (run ops m)
  = (rev (begun (playback_log m)) ++ audio_queue m) ++ enqueued ops.
Proof.
  induction ops as [|o ops IH]; intros m H; cbn [run enqueued].
  - now rewrite app_nil_r.
  - cbn [forallb] in H. apply andb_prop in H. destruct H as [Ho Hops].
    rewrite (IH _ Hops), (step_keeps_order _ _ Ho). now rewrite <- !app_assoc.
Qed.

Lemma run_in_order ops : forall m,
  subsequence
    (rev (begun (playback_log (run ops m))) ++ audio_queue (run ops m))
    ((rev (begun (playback_log m)) ++ audio_queue m) ++ enqueued ops).
Proof.
  induction ops as [|o ops IH]; intros m; cbn [run enqueued].
  - rewrite app_nil_r. apply subsequence_refl.
  - eapply subsequence_trans; [apply IH|].
    rewrite (app_assoc _ (accepted o)).
    apply subsequence_app; [apply step_in_order|apply subsequence_refl].
Qed.

(** X16. First in, first out.  In a run from the initial state in which
    [clear_queue] is not called and every file the consumer takes exists and
    has a size, the playbacks begun so far, in the order they began,
    followed by the queue, are exactly the paths [add_to_queue] accepted, in
    the order of the calls. *)
Theorem playback_is_first_in_first_out (ops : list op) :
  forallb keeps_items ops = true ->
  rev (begun (playback_log (run ops init))) ++ audio_queue (run ops init)
  = enqueued ops.
Proof. intros H. now rewrite run_keeps_order. Qed.

Lemma playback_is_first_in_first_out_witness :
  let ops := [AddToQueue (lit "a.mp3") true; AddToQueue (lit "b.mp3") true;
              Resume 1 true (Returned 40000); AddToQueue (lit "c.mp3") true;
              Resume 161 true (Returned 40000); Resume 162 true (Returned 0);
              Resume 163 true (Returned 100)] in
  rev (begun (playback_log (run ops init))) ++ audio_queue (run ops init)
  = [lit "a.mp3"; lit "b.mp3"; lit "c.mp3"].
Proof.
  cbv zeta.
  apply (playback_is_first_in_first_out
           [AddToQueue (lit "a.mp3") true; AddToQueue (lit "b.mp3") true;
            Resume 1 true (Returned 40000); AddToQueue (lit "c.mp3") true;
            Resume 161 true (Returned 40000); Resume 162 true (Returned 0);
            Resume 163 true (Returned 100)]).
  reflexivity.
Defined.

(** X17. In every run from the initial state, [clear_queue] calls, vanished
    files and failing [os.path.getsize] included, the playbacks begun so
    far, in the order they began, followed by the queue, are paths
    [add_to_queue] accepted, in the order of the calls, each call giving at
    most one of them: nothing is played that was not queued, nothing is
    played twice, and no item overtakes another. *)
Theorem playback_keeps_queue_order (ops : list op) :
  subsequence
    (rev (begun (playback_log (run ops init))) ++ audio_queue (run ops init))
    (enqueued ops).
Proof. exact (run_in_order ops init). Qed.





Lemma fmax_ge_r a b : (b <= fmax a b)%Q.
Proof.
  unfold fmax. destruct (flt a b) eqn:E.
  - lra.
  - apply flt_false in E. exact E.
Qed.

Lemma fmax_ge_left a b : (a <= fmax a b)%Q.
Proof.
  unfold fmax. destruct (flt a b) eqn:E.
  - apply flt_true in E. lra.
  - lra.
Qed.

(** X21. The estimated duration of a playback is never under 2 seconds, and
    a larger file never gets a shorter one. *)
Theorem estimate_floor_and_growth (size1 size2 : Z) :
  (2 <= estimate size1)%Q /\
  (size1 <= size2 -> (estimate size1 <= estimate size2)%Q).
Proof.
  split; [apply fmax_ge_left|]. intros H.
  assert (Hq : (inject_Z size1 <= inject_Z size2)%Q) by (rewrite <- Zle_Qle; lia).
  unfold estimate. cbv zeta.
  pose proof (fmax_ge_left 2 (inject_Z size2 / 50 * (1 # 5))) as Hl.
  pose proof (fmax_ge_r 2 (inject_Z size2 / 50 * (1 # 5))) as Hr.
  unfold fmax at 1. destruct (flt 2 (inject_Z size1 / 50 * (1 # 5))).
  - eapply Qle_trans; [|exact Hr].
    apply Qmult_le_compat_r; [|discriminate].
    apply Qmult_le_compat_r; [exact Hq|discriminate].
  - exact Hl.
Qed.

(** X22. [get_status] reports playing exactly when it reports a path, then
    with a remaining time that is not negative and that, with the elapsed
    time, makes up the total as long as the elapsed time is within it; the
    queue size it reports is the length of the queue. *)
Theorem get_status_consistent (now : Q) (m : manager) :
  let st := get_status now m in
  (playing st = true <-> path st <> None) /\
  (playing st = true <->
   exists r e t, remaining st = Some r /\ elapsed st = Some e /\
                 total st = Some t /\ (0 <= r)%Q /\
                 (e <= t -> r + e == t)%Q) /\
  queue_size st = List.length (audio_queue m).
Proof.
  cbv zeta. unfold get_status.
  destruct (current_audio m) as [[|c cs]|]; cbn.
  - split; [|split; [|reflexivity]]; split; try discriminate;
      [congruence|intros (r & e & t & H & _); discriminate].
  - destruct (is_playing m) eqn:Ep; cbn.
    + split; [|split; [|reflexivity]]; split; auto; [discriminate|].
      intros _. eexists _, _, _. repeat split; try reflexivity.
      * apply fmax_ge_left.
      * intros Hle. unfold fmax.
        destruct (flt 0 (audio_play_duration m - (now - audio_start_time m)))
          eqn:E; [lra|]. apply flt_false in E. lra.
    + split; [|split; [|reflexivity]]; split; try discriminate;
        [congruence|intros (r & e & t & H & _); discriminate].
  - split; [|split; [|reflexivity]]; split; try discriminate;
      [congruence|intros (r & e & t & H & _); discriminate].
Qed.

End AudioRunsFacts.

Module AudioTasksFacts.
Import Py AudioTasks.

Lemma nth_error_set_nth {A} (l : list A) : forall n x y,
  nth_error l n = Some y -> nth_error (set_nth n x l) n = Some x.
Proof.
  induction l as [|z l IH]; intros [|n] x y; cbn; try discriminate; auto.
  apply IH.
Qed.

(** The run of [overlapping_stop], step by step: after it the first consumer
    is done, and the second and the third are both in a playback. *)
Example overlapping_stop_tasks :
  tasks (run overlapping_stop init)
  = [Consumer None true;
     Consumer (Some (AudioManager.Playing (lit "b.mp3") (1000 # 250))) false;
     Consumer (Some (AudioManager.Playing (lit "c.mp3") (1000 # 250))) false].
Proof. reflexivity. Qed.

(** C9 fails on the code.  After the run [overlapping_stop], in which the
    second [add_to_queue] falls between the end of the cancelled consumer
    and the resumption of [stop], two consumers are alive, [self.task]
    refers to the younger only, and two playbacks are in progress at once:
    the invariant of the Playback State does not hold.  When the older of
    the two playbacks ends, [get_status] reports that nothing is playing
    while the other playback goes on. *)
Theorem overlapping_stop_breaks_invariant :
  let m := run overlapping_stop init in
  playing_now m = [lit "b.mp3"; lit "c.mp3"] /\
  alive m = 2%nat /\
  task m = Some 2%nat /\
  ~ playback_state_invariant m /\
  let m' := resume 1 16 present (Returned 0) m in
  playing_now m' = [lit "c.mp3"] /\
  get_status (33 # 2) m'
  = AudioManager.Status false None None None None 0.
Proof.
  cbv zeta. split; [reflexivity|]. split; [reflexivity|].
  split; [reflexivity|]. split.
  - intros [H _]. vm_compute in H. lia.
  - split; reflexivity.
Qed.

(** The half of the invariant that no interleaving breaks: every write of
    the playback state sets the current item and [is_playing] together. *)
Lemma step_idle_without_current o m :
  idle_without_current m -> idle_without_current (step o m).
Proof.
  unfold idle_without_current. intros H. destruct o; cbn [step].
  - unfold start. destruct (task m) as [t|]; [destruct (task_done t m)|];
      cbn; exact H.
  - unfold stop_call. destruct (task m) as [t|]; [|exact H].
    destruct (nth_error (tasks m) t) as [[[ph|] c]|]; cbn; exact H.
  - unfold stop_return.
    destruct (existsb (Nat.eqb t) (stops m) && task_done t m); cbn; exact H.
  - unfold add_to_queue. destruct audio_path; [exact H|].
    destruct file_exists; cbn [negb snd]; [|exact H].
    unfold start. cbn [task].
    destruct (task m) as [t|]; [destruct (task_done t _)|]; cbn; exact H.
  - cbn. reflexivity.
  - exact H.
  - assert (Htake : forall queue looked,
               current_audio
                 (take now file_exists file_size looked queue t m) = None ->
               is_playing
                 (take now file_exists file_size looked queue t m) = false).
    { induction queue as [|audio_path queue' IH]; intros looked; cbn [take].
      - cbn. exact H.
      - destruct (file_exists looked); cbn [negb]; [|apply IH].
        destruct file_size; cbn; [discriminate|reflexivity]. }
    unfold resume.
    destruct (nth_error (tasks m) t) as [[[ph|] c]|]; [|exact H|exact H].
    destruct ph, c; cbn; try exact H; try reflexivity; apply Htake.
Qed.

Lemma run_idle_without_current ops :
  idle_without_current (run ops init).
Proof.
  assert (H : forall ops m,
             idle_without_current m -> idle_without_current (run ops m)).
  { clear ops. induction ops as [|o ops IH]; intros m Hm; [exact Hm|].
    cbn [run]. apply IH, step_idle_without_current, Hm. }
  apply H. intros _. reflexivity.
Qed.

(** X20. A consumer that is not being cancelled takes the item at the head
    of the queue within two of its resumptions, whatever it was doing, when
    the file is there and has a size: after them the playback of the item
    has begun, after the playbacks begun before, and the rest of the queue
    waits. *)
Theorem consumer_takes_head (m : manager) (t : nat) (ph : AudioManager.phase)
        (audio_path : str) (queue' : list str) (now1 now2 : Q)
        (found1 found2 : nat -> bool) (size1 size2 : Z) :
  nth_error (tasks m) t = Some (Consumer (Some ph) false) ->
  audio_queue m = audio_path :: queue' ->
  found1 O = true ->
  found2 O = true ->
  let m' := run [Resume t now1 found1 (Returned size1);
                 Resume t now2 found2 (Returned size2)] m in
  AudioManager.begun (playback_log m')
  = audio_path :: AudioManager.begun (playback_log m) /\
  audio_queue m' = queue'.
Proof.
  intros Ht Hq H1 H2. cbv zeta. cbn [run step].
  assert (Htaken : resume t now1 found1 (Returned size1) m
                   = Manager queue' (Some audio_path) now1
                             (AudioManager.estimate size1) true (task m)
                             (set_nth t
                                (Consumer
                                   (Some (AudioManager.Playing
                                            audio_path
                                            (AudioManager.estimate size1)))
                                   false)
                                (tasks m))
                             (stops m)
                             (AudioManager.Began audio_path :: playback_log m)
                   \/ exists playing d,
                        ph = AudioManager.Playing playing d /\
                        resume t now1 found1 (Returned size1) m
                        = Manager (audio_queue m) None (audio_start_time m)
                                  (audio_play_duration m) false (task m)
                                  (set_nth t
                                     (Consumer (Some AudioManager.Pausing) false)
                                     (tasks m))
                                  (stops m)
                                  (AudioManager.Ended playing :: playback_log m)).
  { unfold resume. rewrite Ht.
    destruct ph as [|playing d|];
      [left|right; exists playing, d; split; reflexivity|left];
      rewrite Hq; cbn [take]; rewrite H1; reflexivity. }
  destruct Htaken as [E|(playing & d & _ & E)]; rewrite E; clear E.
  - unfold resume. cbn [tasks].
    rewrite !(nth_error_set_nth _ _ _ _ Ht). cbn. auto.
  - unfold resume. cbn [tasks].
    rewrite !(nth_error_set_nth _ _ _ _ Ht). cbn [audio_queue].
    rewrite Hq. cbn [take]. rewrite H2. cbn. auto.
Qed.

Lemma consumer_takes_head_witness :
  let m := run [AddToQueue (lit "a.mp3") true; AddToQueue (lit "b.mp3") true;
                Resume 0 1 present (Returned 40000)] init in
  let m' := run [Resume 0 161 present (Returned 0);
                 Resume 0 162 present (Returned 700)] m in
  AudioManager.begun (playback_log m')
  = lit "b.mp3" :: AudioManager.begun (playback_log m) /\
  audio_queue m' = [].
Proof.
  cbv zeta.
  apply (consumer_takes_head
           (run [AddToQueue (lit "a.mp3") true; AddToQueue (lit "b.mp3") true;
                 Resume 0 1 present (Returned 40000)] init)
           0 (AudioManager.Playing (lit "a.mp3") (40000 # 250))
           (lit "b.mp3") [] 161 162 present present 0 700);
    reflexivity.
Defined.

End AudioTasksFacts.

Module GatewayFacts.
Import Py RateLimiter LimiterRuns KimiAPI.

(** X23. Where [rate_limited_api_call] returns a value, [execute_with_retry]
    on the same wait and call returns that value from its first pass,
    without sleeping, whenever it makes a pass at all
    ([max_retries >= 0]). *)
Theorem first_pass_is_rate_limited_call {A} (s : limiter)
        (env : nat -> attempt_env A) (v : A) :
  0 <= max_retries s ->
  rate_limited_api_call (env O) = Returned v ->
  execute_with_retry s env = ([AttemptLog 0 true None None], Returned (Some v)).
Proof.
  intros Hm Hv. unfold execute_with_retry.
  destruct (Z.to_nat (max_retries s + 1)) as [|n] eqn:En; [lia|].
  unfold rate_limited_api_call in Hv. cbn [retry_loop].
  destruct (wait (env O)) as [[|]|e]; try discriminate.
  now rewrite Hv.
Qed.

Lemma first_pass_is_rate_limited_call_witness :
  execute_with_retry (init 3 1 2 1 0)
    (fun _ => {| wait := Returned true; call := Returned 7 |})
  = ([AttemptLog 0 true None None], Returned (Some 7)).
Proof.
  apply first_pass_is_rate_limited_call.
  - cbn. lia.
  - reflexivity.
Defined.

(** X24. [process_chat_request] and [process_stream_chat] run the same tool
    round: given the same messages and the same outcome of the first
    gateway call, they leave the same message list behind.
    [process_chat_request] makes that first call on the messages as given,
    with the tools offered, and at most one more, on the message list as it
    leaves it, without tools; neither of its calls streams. *)
Theorem chat_and_stream_share_tool_round lim env final id messages :
  let chat := process_chat_request lim (ChatEnv (probe env) final) messages in
  let t := process_stream_chat lim env id messages in
  snd (fst chat) = history t /\
  (snd chat = [Request messages true false] \/
   snd chat = [Request messages true false;
               Request (history t) false false]).
Proof.
  cbv zeta. unfold process_chat_request, process_stream_chat, guarded_body.
  cbn [first_call final_call]. generalize (lit "tool_calls"). intros marker.
  destruct (snd (execute_with_retry lim (probe env))) as [[[|c cs]|]|e];
    cbn; auto.
  destruct (str_eqb (finish_reason c) marker).
  - destruct (run_tool_calls (cm_tool_calls (message c))
                (messages ++ [AssistantRequest (message c)])) as [ms [e|]];
      cbn; auto.
    destruct (snd (execute_with_retry lim final)) as [[[|c1 cs1]|]|e1];
      destruct (snd (execute_with_retry lim (answer env))) as [[s|]|e2];
      cbn; try destruct (stream_chunks id s); cbn; auto.
  - destruct (snd (execute_with_retry lim (answer env))) as [[s|]|e2];
      cbn; try destruct (stream_chunks id s); cbn; auto.
Qed.

End GatewayFacts.

Module MemoryManagerFacts.
Import Py MemoryManager.

Lemma str_eqb_refl a : str_eqb a a = true.
Proof. unfold str_eqb. destruct (list_eq_dec Z.eq_dec a a); congruence. Qed.

Lemma str_eqb_true a b : str_eqb a b = true -> a = b.
Proof.
  unfold str_eqb. destruct (list_eq_dec Z.eq_dec a b); [auto|discriminate].
Qed.

(** *** The dictionary *)

Lemma lookup_store key v c k :
  lookup k (store key v c) = if str_eqb key k then Some v else lookup k c.
Proof.
  induction c as [|[k0 v0] c IH]; cbn.
  - destruct (str_eqb key k); reflexivity.
  - destruct (str_eqb k0 key) eqn:E; cbn.
    + apply str_eqb_true in E. subst k0. destruct (str_eqb key k); reflexivity.
    + destruct (str_eqb k0 k) eqn:E2; [|exact IH].
      apply str_eqb_true in E2. subst k0.
      destruct (str_eqb key k) eqn:E3; [|reflexivity].
      apply str_eqb_true in E3. subst k. rewrite str_eqb_refl in E.
      discriminate.
Qed.

Lemma store_store key v v' c : store key v (store key v' c) = store key v c.
Proof.
  induction c as [|[k0 v0] c IH]; cbn.
  - now rewrite str_eqb_refl.
  - destruct (str_eqb k0 key) eqn:E; cbn; rewrite E; [reflexivity|].
    now rewrite IH.
Qed.

Lemma store_members key v c k v' :
  In (k, v') (store key v c) -> (k, v') = (key, v) \/ In (k, v') c.
Proof.
  induction c as [|[k0 v0] c IH]; cbn.
  - intros [H|[]]; auto.
  - destruct (str_eqb k0 key) eqn:E; cbn.
    + apply str_eqb_true in E. subst k0. intros [H|H]; auto.
    + intros [H|H]; auto. destruct (IH H); auto.
Qed.

Lemma store_has key v c : In (key, v) (store key v c).
Proof.
  induction c as [|[k0 v0] c IH]; cbn; [now left|].
  destruct (str_eqb k0 key) eqn:E; cbn; [|now right].
  apply str_eqb_true in E. subst k0. now left.
Qed.

Lemma lookup_member key c v : lookup key c = Some v -> In (key, v) c.
Proof.
  induction c as [|[k0 v0] c IH]; cbn; [discriminate|].
  destruct (str_eqb k0 key) eqn:E; [|auto].
  apply str_eqb_true in E. subst k0. intros [= <-]. now left.
Qed.

(** [_update_memory_cache] comes down to one assignment. *)
Lemma update_memory_cache_store m c :
  update_memory_cache m c
  = store (firstn 10 (mem_timestamp m)) (updated_entries m c) c.
Proof.
  unfold update_memory_cache, updated_entries. cbv zeta.
  set (key := firstn 10 (mem_timestamp m)).
  assert (Hget : get key (match lookup key c with
                          | Some _ => c
                          | None => store key [] c
                          end) = get key c).
  { unfold get. destruct (lookup key c) eqn:E; [now rewrite E|].
    now rewrite lookup_store, str_eqb_refl. }
  rewrite Hget.
  assert (Hstore : forall v,
             store key v (match lookup key c with
                          | Some _ => c
                          | None => store key [] c
                          end) = store key v c).
  { intros v. destruct (lookup key c); [reflexivity|apply store_store]. }
  rewrite Hstore.
  assert (Hnew : forall v, get key (store key v c) = v).
  { intros v. unfold get. now rewrite lookup_store, str_eqb_refl. }
  rewrite !Hnew.
  destruct (20 <? len (get key c ++ [m])); [apply store_store|reflexivity].
Qed.

Lemma updated_entries_last m c :
  exists older, updated_entries m c = older ++ [m] /\
                incl older (get (firstn 10 (mem_timestamp m)) c).
Proof.
  unfold updated_entries. cbv zeta.
  set (old := get (firstn 10 (mem_timestamp m)) c).
  destruct (20 <? len (old ++ [m])) eqn:E.
  - apply Z.ltb_lt in E. unfold len in E. rewrite length_app in E. cbn in E.
    unfold last_items. rewrite skipn_app, length_app. cbn [List.length].
    replace (List.length old + 1 - 20 - List.length old)%nat with O by lia.
    cbn [skipn]. eexists. split; [reflexivity|].
    intros x Hx. rewrite <- (firstn_skipn (List.length old + 1 - 20) old).
    apply in_or_app. now right.
  - exists old. split; [reflexivity|apply incl_refl].
Qed.

Lemma updated_entries_length m c :
  (List.length (get (firstn 10 (mem_timestamp m)) c) <= 20)%nat ->
  (1 <= List.length (updated_entries m c) <= 20)%nat.
Proof.
  intros H. unfold updated_entries. cbv zeta.
  set (old := get (firstn 10 (mem_timestamp m)) c) in *.
  destruct (20 <? len (old ++ [m])) eqn:E.
  - apply Z.ltb_lt in E. unfold len in E. rewrite length_app in E. cbn in E.
    unfold last_items. rewrite length_skipn, length_app. cbn [List.length]. lia.
  - apply Z.ltb_ge in E. unfold len in E. rewrite length_app in *. cbn in *. lia.
Qed.

(** *** The cache stays small and sorted by date *)

Lemma get_well_kept key c :
  well_kept c ->
  (List.length (get key c) <= 20)%nat /\
  Forall (fun mem => firstn 10 (mem_timestamp mem) = key) (get key c).
Proof.
  intros H. unfold get. destruct (lookup key c) as [v|] eqn:E.
  - apply (H key v), lookup_member, E.
  - split; [cbn; lia|constructor].
Qed.

Lemma update_memory_cache_well_kept m c :
  well_kept c -> well_kept (update_memory_cache m c).
Proof.
  intros H key entries Hin. rewrite update_memory_cache_store in Hin.
  apply store_members in Hin. destruct Hin as [[= -> ->]|Hin]; [|now apply H].
  destruct (get_well_kept (firstn 10 (mem_timestamp m)) c H) as [Hlen Hkeys].
  split; [apply updated_entries_length, Hlen|].
  destruct (updated_entries_last m c) as (older & -> & Hincl).
  apply Forall_app. split; [|now repeat constructor].
  rewrite Forall_forall in *. auto.
Qed.

Lemma delete_cached_well_kept memory_id c :
  well_kept c -> well_kept (delete_cached memory_id c).
Proof.
  intros H key entries Hin. unfold delete_cached in Hin.
  apply in_map_iff in Hin. destruct Hin as ([k v] & [= <- <-] & Hin).
  destruct (H k v Hin) as [Hlen Hkeys]. cbn [fst snd]. split.
  - pose proof (filter_length_le
                  (fun mem => negb (str_eqb (mem_id mem) memory_id)) v). lia.
  - rewrite Forall_forall in *. intros x Hx. apply filter_In in Hx.
    now apply Hkeys.
Qed.

Lemma cache_run_well_kept ops : forall c,
  well_kept c -> well_kept (cache_run ops c).
Proof.
  induction ops as [|o ops IH]; intros c H; [exact H|].
  cbn [cache_run]. apply IH. destruct o; cbn [cache_step].
  - now apply update_memory_cache_well_kept.
  - now apply delete_cached_well_kept.
Qed.

Lemma cached_day_bounded ops date entries :
  lookup date (cache_run ops []) = Some entries ->
  (List.length entries <= 20)%nat /\
  Forall (fun mem => firstn 10 (mem_timestamp mem) = date) entries.
Proof.
  intros H. apply (cache_run_well_kept ops []).
  - intros ? ? [].
  - now apply lookup_member.
Qed.

(** X25. Whatever conversations are remembered and memories deleted, in
    whatever order, every date of the cache holds at most 20 memories, and
    each memory is cached under the first ten characters of the time stamp
    it was saved with. *)
Theorem cache_holds_twenty_a_day (ops : list cache_op) (date : str)
        (entries : list memory) :
  lookup date (cache_run ops []) = Some entries ->
  (List.length entries <= 20)%nat /\
  Forall (fun mem => firstn 10 (mem_timestamp mem) = date) entries.
Proof. apply cached_day_bounded. Qed.

Lemma cache_holds_twenty_a_day_witness :
  let md := MemoryData (lit "conv_1") (lit "2025-03-01T10:00:00.000000")
                       [Message (Some (lit "user")) (Some (lit "hi"))]
                       None [] in
  let m := convert_to_storage_format md (lit "2025-03-01T10:00:01") in
  (List.length (repeat m 20) <= 20)%nat /\
  Forall (fun mem => firstn 10 (mem_timestamp mem) = lit "2025-03-01")
         (repeat m 20).
Proof.
  cbv zeta.
  apply (cache_holds_twenty_a_day
           (repeat (Remember
                      (MemoryData (lit "conv_1")
                                  (lit "2025-03-01T10:00:00.000000")
                                  [Message (Some (lit "user")) (Some (lit "hi"))]
                                  None [])
                      (lit "2025-03-01T10:00:01")) 23)
           (lit "2025-03-01")).
  vm_compute. reflexivity.
Defined.

(** *** Looking a memory up *)

Lemma find_id_app memory_id l1 l2 :
  find_id memory_id (l1 ++ l2)
  = match find_id memory_id l1 with
    | Some mem => Some mem
    | None => find_id memory_id l2
    end.
Proof.
  induction l1 as [|x l1 IH]; cbn; [reflexivity|].
  destruct (str_eqb (mem_id x) memory_id); [reflexivity|exact IH].
Qed.

Lemma find_id_found memory_id l mem :
  find_id memory_id l = Some mem -> In mem l /\ mem_id mem = memory_id.
Proof.
  induction l as [|x l IH]; cbn; [discriminate|].
  destruct (str_eqb (mem_id x) memory_id) eqn:E.
  - intros [= <-]. split; [now left|now apply str_eqb_true].
  - intros H. destruct (IH H). auto.
Qed.

Lemma find_id_none memory_id l :
  find_id memory_id l = None <->
  forall mem, In mem l -> mem_id mem <> memory_id.
Proof.
  induction l as [|x l IH]; cbn.
  - split; [intros _ ? []|reflexivity].
  - destruct (str_eqb (mem_id x) memory_id) eqn:E.
    + apply str_eqb_true in E. split; [discriminate|].
      intros H. exfalso. apply (H x); auto.
    + rewrite IH. split.
      * intros H mem [<-|Hin]; [|now apply H].
        intros Heq. rewrite Heq, str_eqb_refl in E. discriminate.
      * intros H mem Hin. apply H. now right.
Qed.

Lemma get_by_id_cached_found memory_id c mem :
  get_by_id_cached memory_id c = Some mem ->
  (exists key entries, In (key, entries) c /\ In mem entries) /\
  mem_id mem = memory_id.
Proof.
  induction c as [|[k v] c IH]; cbn; [discriminate|].
  destruct (find_id memory_id v) as [x|] eqn:E.
  - intros [= <-]. apply find_id_found in E. destruct E as [Hin Hid].
    split; [|exact Hid]. exists k, v. auto.
  - intros H. destruct (IH H) as [(key & entries & Hin & Hmem) Hid].
    split; [|exact Hid]. exists key, entries. auto.
Qed.

Lemma get_by_id_cached_none memory_id c :
  get_by_id_cached memory_id c = None <->
  forall key entries, In (key, entries) c -> find_id memory_id entries = None.
Proof.
  induction c as [|[k v] c IH]; cbn.
  - split; [intros _ ? ? []|reflexivity].
  - destruct (find_id memory_id v) eqn:E.
    + split; [discriminate|]. intros H.
      rewrite (H k v (or_introl eq_refl)) in E. discriminate.
    + rewrite IH. split.
      * intros H key entries [[= <- <-]|Hin]; [exact E|now apply (H key)].
      * intros H key entries Hin. apply (H key). now right.
Qed.

Lemma get_by_id_cached_store memory_id key v c :
  (forall k entries, In (k, entries) c -> find_id memory_id entries = None) ->
  get_by_id_cached memory_id (store key v c) = find_id memory_id v.
Proof.
  induction c as [|[k0 v0] c IH]; intros H; cbn.
  - destruct (find_id memory_id v); reflexivity.
  - assert (Hc : get_by_id_cached memory_id c = None).
    { apply get_by_id_cached_none. intros k entries Hin.
      apply (H k). now right. }
    destruct (str_eqb k0 key); cbn.
    + rewrite Hc. destruct (find_id memory_id v); reflexivity.
    + rewrite (H k0 v0 (or_introl eq_refl)). apply IH.
      intros k entries Hin. apply (H k). now right.
Qed.

(** X26. A memory that has just gone into the cache is found by its id
    without a look at the file system: [get_by_id] returns a cached memory
    with that id, and it is the new one when no cached memory had the id
    before; otherwise an older one with the same id may come first. *)
Theorem get_by_id_after_update (m : memory) (c : cache)
        (from_files : outcome (option memory)) :
  (exists mem,
      get_by_id (mem_id m) (update_memory_cache m c) from_files
      = Returned (Some mem) /\
      mem_id mem = mem_id m) /\
  (get_by_id_cached (mem_id m) c = None ->
   get_by_id (mem_id m) (update_memory_cache m c) from_files
   = Returned (Some m)).
Proof.
  rewrite update_memory_cache_store.
  destruct (updated_entries_last m c) as (older & Heq & Hincl).
  unfold get_by_id. split.
  - destruct (get_by_id_cached (mem_id m)
                (store (firstn 10 (mem_timestamp m)) (updated_entries m c) c))
      as [mem|] eqn:E.
    + exists mem. split; [reflexivity|].
      now apply get_by_id_cached_found in E.
    + exfalso. rewrite get_by_id_cached_none in E.
      specialize (E _ _ (store_has _ _ _)). rewrite find_id_none in E.
      apply (E m); [|reflexivity]. rewrite Heq. apply in_or_app. right. now left.
  - intros Hnone. rewrite get_by_id_cached_none in Hnone.
    rewrite get_by_id_cached_store by exact Hnone.
    rewrite Heq, find_id_app.
    assert (Hold : find_id (mem_id m) older = None).
    { apply find_id_none. intros mem Hin. apply Hincl in Hin.
      unfold get in Hin.
      destruct (lookup (firstn 10 (mem_timestamp m)) c) as [v|] eqn:E;
        [|destruct Hin].
      specialize (Hnone _ _ (lookup_member _ _ _ E)).
      rewrite find_id_none in Hnone. now apply Hnone. }
    rewrite Hold. cbn. now rewrite str_eqb_refl.
Qed.

Lemma find_id_filter memory_id other l :
  find_id other
    (filter (fun mem => negb (str_eqb (mem_id mem) memory_id)) l)
  = if str_eqb memory_id other then None else find_id other l.
Proof.
  induction l as [|x l IH]; cbn.
  - destruct (str_eqb memory_id other); reflexivity.
  - destruct (str_eqb (mem_id x) memory_id) eqn:E; cbn.
    + apply str_eqb_true in E. rewrite E.
      destruct (str_eqb memory_id other); [exact IH|exact IH].
    + destruct (str_eqb (mem_id x) other) eqn:E2; [|exact IH].
      apply str_eqb_true in E2. rewrite <- E2.
      destruct (str_eqb memory_id (mem_id x)) eqn:E3; [|reflexivity].
      apply str_eqb_true in E3. rewrite E3, str_eqb_refl in E. discriminate.
Qed.

(** X27. After [delete] no cached memory has the deleted id, so that
    [get_by_id] goes to the file system for it; the cached memories with
    other ids are found as before. *)
Theorem delete_then_get_by_id (memory_id other : str) (c : cache)
        (from_files : outcome (option memory)) :
  get_by_id memory_id (delete_cached memory_id c) from_files = from_files /\
  (other <> memory_id ->
   get_by_id other (delete_cached memory_id c) from_files
   = get_by_id other c from_files).
Proof.
  assert (H : forall id,
             get_by_id_cached id (delete_cached memory_id c)
             = if str_eqb memory_id id then None else get_by_id_cached id c).
  { intros id. unfold delete_cached.
    induction c as [|[k v] c IH]; cbn [List.map get_by_id_cached fst snd].
    - destruct (str_eqb memory_id id); reflexivity.
    - rewrite find_id_filter, IH.
      destruct (str_eqb memory_id id); reflexivity. }
  unfold get_by_id. split.
  - now rewrite H, str_eqb_refl.
  - intros Hne. rewrite H. destruct (str_eqb memory_id other) eqn:E; [|reflexivity].
    apply str_eqb_true in E. congruence.
Qed.

(** *** Summaries *)

Lemma first_user_summary_length msgs s :
  first_user_summary msgs = Some s -> len s <= 103.
Proof.
  induction msgs as [|msg msgs IH]; cbn [first_user_summary]; [discriminate|].
  destruct (is_user msg); [|exact IH]. clear IH.
  pose proof (firstn_le_length 100 (content_of msg)) as Hpre.
  revert Hpre. generalize (firstn 100 (content_of msg)). intros pre Hpre.
  assert (Hdots : List.length (lit "...") = 3%nat) by reflexivity.
  revert Hdots. generalize (lit "..."). intros dots Hdots [= <-].
  unfold len. rewrite length_app.
  destruct (100 <? Z.of_nat (List.length (content_of msg)));
    cbn [List.length]; lia.
Qed.

Lemma generate_summary_length msgs : len (generate_summary msgs) <= 103.
Proof.
  unfold generate_summary. destruct msgs as [|msg msgs]; [cbn; lia|].
  destruct (first_user_summary (msg :: msgs)) as [s|] eqn:E.
  - now apply (first_user_summary_length (msg :: msgs)).
  - cbn. lia.
Qed.

(** X28. The summary [_generate_summary] makes has at most 103 characters,
    whatever the conversation, and the summary [_convert_to_storage_format]
    stores is never longer than that unless a longer one was given with the
    conversation. *)
Theorem stored_summary_length (md : memory_data) (processed_at : str) :
  len (generate_summary (messages md)) <= 103 /\
  len (mem_summary (convert_to_storage_format md processed_at))
  <= Z.max 103 (match summary md with Some s => len s | None => 0 end).
Proof.
  pose proof (generate_summary_length (messages md)) as H.
  split; [exact H|]. unfold convert_to_storage_format. cbn [mem_summary].
  destruct (summary md) as [[|c cs]|]; lia.
Qed.

(** *** Searching the cache *)

Lemma firstn_incl {A} n (l : list A) : incl (firstn n l) l.
Proof.
  intros x Hx. rewrite <- (firstn_skipn n l). apply in_or_app. now left.
Qed.

Lemma slice_to_incl {A} limit (l : list A) : incl (slice_to limit l) l.
Proof. unfold slice_to. destruct (limit <? 0); apply firstn_incl. Qed.

Lemma slice_to_length {A} limit (l : list A) :
  (List.length (slice_to limit l) <= List.length l)%nat /\
  (0 <= limit -> Z.of_nat (List.length (slice_to limit l)) <= limit).
Proof.
  unfold slice_to. destruct (Z.ltb_spec limit 0).
  - split; [|lia]. rewrite length_firstn. lia.
  - split; rewrite length_firstn; lia.
Qed.

(** X29. When [search] answers from the cache, it returns at most 20
    memories, and at most [limit] of them when [limit] is not negative; all
    of them are cached under the date asked for, and when a query is given
    each of them has a message that contains it, case apart. *)
Theorem search_cached_bounded (lower : str -> str) (ops : list cache_op)
        (query date : option str) (limit : Z) (results : list memory) :
  search_cached lower query date limit (cache_run ops []) = Some results ->
  (List.length results <= 20)%nat /\
  (0 <= limit -> len results <= limit) /\
  (exists d entries,
      date = Some d /\ lookup d (cache_run ops []) = Some entries /\
      incl results entries) /\
  (forall q, query = Some q -> q <> [] ->
             forallb (mentions lower q) results = true).
Proof.
  unfold search_cached. destruct date as [[|d ds]|]; try discriminate.
  destruct (lookup (d :: ds) (cache_run ops [])) as [entries|] eqn:E;
    [|discriminate].
  intros [= <-].
  destruct (cached_day_bounded ops (d :: ds) entries E) as [Hlen _].
  set (chosen := match query with
                 | Some (q :: qs) => filter (mentions lower (q :: qs)) entries
                 | _ => entries
                 end).
  assert (Hsub : incl chosen entries).
  { unfold chosen. destruct query as [[|q qs]|]; try apply incl_refl.
    intros x Hx. now apply filter_In in Hx. }
  assert (Hchosen : (List.length chosen <= List.length entries)%nat).
  { unfold chosen. destruct query as [[|q qs]|]; try lia.
    apply filter_length_le. }
  destruct (slice_to_length limit chosen) as [Hl1 Hl2].
  split; [lia|]. split; [exact Hl2|]. split.
  - exists (d :: ds), entries. split; [reflexivity|]. split; [exact E|].
    intros x Hx. apply Hsub. now apply (slice_to_incl limit).
  - intros q -> Hq. destruct q as [|q qs]; [contradiction|].
    apply forallb_forall. intros x Hx. apply (slice_to_incl limit) in Hx.
    unfold chosen in Hx. now apply filter_In in Hx.
Qed.

Lemma search_cached_bounded_witness :
  let md := MemoryData (lit "conv_1") (lit "2025-03-01T10:00:00.000000")
                       [Message (Some (lit "user")) (Some (lit "Hello there"))]
                       None [] in
  let m := convert_to_storage_format md (lit "2025-03-01T10:00:01") in
  (List.length [m; m] <= 20)%nat /\
  (0 <= 2 -> len [m; m] <= 2) /\
  (exists d entries,
      Some (lit "2025-03-01") = Some d /\
      lookup d (cache_run (repeat (Remember md (lit "2025-03-01T10:00:01")) 3) [])
      = Some entries /\
      incl [m; m] entries) /\
  (forall q, Some (lit "hello") = Some q -> q <> [] ->
             forallb (mentions Py.lower q) [m; m] = true).
Proof.
  cbv zeta.
  apply (search_cached_bounded Py.lower
           (repeat (Remember
                      (MemoryData (lit "conv_1")
                                  (lit "2025-03-01T10:00:00.000000")
                                  [Message (Some (lit "user"))
                                           (Some (lit "Hello there"))]
                                  None [])
                      (lit "2025-03-01T10:00:01")) 3)
           (Some (lit "hello")) (Some (lit "2025-03-01")) 2).
  vm_compute. reflexivity.
Defined.

End MemoryManagerFacts.
